(** * SVG path compiler, transform composer and <use> resolution of
      manimlib/mobject/svg/svg_mobject.py

    A shallow embedding of the path-string compiler
    ([VMobjectFromSVGPathstring]), of the geometry cache it sits behind, and
    of the parts of [SVGMobject] that parse attributes, apply [transform]
    operations and resolve [<use>] references.

    Numbers.  The source computes with Python floats (numpy float64).  They
    are modelled by exact rationals ([Qc], the canonical rationals, whose
    equality is Leibniz equality): a decimal literal denotes its exact value
    and [+], [-], [*] are exact.  Rounding, infinities and NaN are outside
    the model.  Where the code adds a point and later subtracts it again,
    the statements keep both operations as the code has them.

    Exceptions.  A Python function that may raise returns a [result]; the
    interpreter's bounded call stack is a fuel argument, and running out of
    it is [RecursionError]. *)

From Stdlib Require Import ZArith QArith Qcanon String Ascii List Lia.
From stdpp Require Import base option gmap strings list.

Open Scope string_scope.
Open Scope list_scope.

Set Warnings "-register-all".

(* ================================================================= *)
(** ** Exceptions *)

Inductive exn : Type :=
| ValueError        (* float() of a bad literal, reshape of a wrong size *)
| TypeError         (* a call with too few positional arguments *)
| KeyError          (* a dict lookup that misses *)
| IndexError        (* indexing an empty array *)
| IOError           (* a file that cannot be read or written *)
| NotImplemented    (* Exception("Not implemented") *)
| RecursionError    (* maximum recursion depth exceeded *)
| AttributeError.   (* an attribute that the object does not have *)

Inductive result (A : Type) : Type :=
| Ok (a : A)
| Raise (e : exn).

Arguments Ok {A} a.
Arguments Raise {A} e.

#[global] Instance exn_eq_dec : EqDecision exn.
Proof. solve_decision. Defined.

#[global] Instance result_ret : MRet result := fun A a => Ok a.

#[global] Instance result_bind : MBind result := fun A B f m =>
  match m with
  | Ok a => f a
  | Raise e => Raise e
  end.

#[global] Instance result_fmap : FMap result := fun A B f m =>
  match m with
  | Ok a => Ok (f a)
  | Raise e => Raise e
  end.

Definition is_ok {A} (r : result A) : bool :=
  match r with Ok _ => true | Raise _ => false end.

(** [[f(x) for x in l]]: the elements are evaluated left to right and the
    first exception ends the comprehension. *)
Fixpoint mapM {A B} (f : A -> result B) (l : list A) : result (list B) :=
  match l with
  | [] => Ok []
  | x :: l' => y ← f x; ys ← mapM f l'; Ok (y :: ys)
  end.

(* ================================================================= *)
(** ** Characters and strings *)

Definition chars (s : string) : list ascii := list_ascii_of_string s.
Definition str (l : list ascii) : string := string_of_list_ascii l.

Definition ascii_in (lo hi c : ascii) : bool :=
  (nat_of_ascii lo <=? nat_of_ascii c)%nat && (nat_of_ascii c <=? nat_of_ascii hi)%nat.

(** [c in string.digits] *)
Definition is_digit (c : ascii) : bool := ascii_in "0" "9" c.

(** [str.islower] and [str.isupper] on a one-character string over ASCII:
    true exactly on the cased letters of that case. *)
Definition islower (c : ascii) : bool := ascii_in "a" "z" c.
Definition isupper (c : ascii) : bool := ascii_in "A" "Z" c.

(** [str.upper] and [str.lower] on one ASCII character. *)
Definition upper (c : ascii) : ascii :=
  if islower c then ascii_of_nat (nat_of_ascii c - 32) else c.
Definition lower (c : ascii) : ascii :=
  if isupper c then ascii_of_nat (nat_of_ascii c + 32) else c.

Definition ascii_eqb (a b : ascii) : bool := Ascii.eqb a b.

(** Whitespace that [float] strips from both ends of its argument: the
    ASCII characters on which [str.isspace] holds. *)
Definition is_space (c : ascii) : bool :=
  let n := nat_of_ascii c in
  (n =? 32)%nat || ((9 <=? n)%nat && (n <=? 13)%nat)
  || ((28 <=? n)%nat && (n <=? 31)%nat).

Fixpoint drop_while {A} (p : A -> bool) (l : list A) : list A :=
  match l with
  | [] => []
  | x :: l' => if p x then drop_while p l' else l
  end.

Fixpoint span {A} (p : A -> bool) (l : list A) : list A * list A :=
  match l with
  | [] => ([], [])
  | x :: l' =>
      if p x then let '(a, b) := span p l' in (x :: a, b) else ([], l)
  end.

Definition strip (l : list ascii) : list ascii :=
  rev (drop_while is_space (rev (drop_while is_space l))).

Fixpoint is_prefix (p l : list ascii) : bool :=
  match p, l with
  | [], _ => true
  | a :: p', b :: l' => ascii_eqb a b && is_prefix p' l'
  | _ :: _, [] => false
  end.

(** [s.replace(old, new)] for a non-empty [old]: the occurrences of [old]
    are found left to right without overlap.  [skip] counts the characters
    of a matched occurrence that are still to be passed over. *)
Fixpoint replace_from (old new : list ascii) (skip : nat) (l : list ascii)
  : list ascii :=
  match l with
  | [] => []
  | c :: l' =>
      match skip with
      | S k => replace_from old new k l'
      | O =>
          if is_prefix old l
          then new ++ replace_from old new (length old - 1) l'
          else c :: replace_from old new 0 l'
      end
  end.

(** For the empty [old] Python puts [new] before every character and at the
    end. *)
Definition replace (old new : string) (s : string) : string :=
  match chars old with
  | [] => str (concat (map (fun c => chars new ++ [c]) (chars s)) ++ chars new)
  | o => str (replace_from o (chars new) 0 (chars s))
  end.

(** [re.split("[...]", s)] for a character class [sep]: the pieces between
    the separators, the empty ones included. *)
Fixpoint split_on (sep : ascii -> bool) (l : list ascii) : list (list ascii) :=
  match l with
  | [] => [[]]
  | c :: l' =>
      match split_on sep l' with
      | [] => [[]]
      | w :: ws => if sep c then [] :: w :: ws else (c :: w) :: ws
      end
  end.

(* ================================================================= *)
(** ** Numbers *)

Abbreviation number := Qc.

Definition num_of_Z (z : Z) : number := Q2Qc (inject_Z z).

Definition digit_val (c : ascii) : Z := Z.of_nat (nat_of_ascii c - 48).

Definition digits_val (ds : list ascii) : Z :=
  fold_left (fun acc c => (10 * acc + digit_val c)%Z) ds 0%Z.

(** [10 ** e] for an integer exponent of either sign. *)
Definition pow10 (e : Z) : number :=
  if (0 <=? e)%Z then num_of_Z (10 ^ e)
  else (/ num_of_Z (10 ^ (- e)))%Qc.

Definition parse_sign (l : list ascii) : bool * list ascii :=
  match l with
  | "-"%char :: l' => (true, l')
  | "+"%char :: l' => (false, l')
  | _ => (false, l)
  end.

(** The exponent part [[eE][-+]?\d+] of a float literal, when there is one. *)
Definition parse_exponent (l : list ascii) : Z * list ascii :=
  match l with
  | c :: l' =>
      if ascii_eqb c "e" || ascii_eqb c "E" then
        let '(neg, l1) := parse_sign l' in
        let '(ds, l2) := span is_digit l1 in
        match ds with
        | [] => (0%Z, l)
        | _ => ((if neg then - digits_val ds else digits_val ds)%Z, l2)
        end
      else (0%Z, l)
  | [] => (0%Z, l)
  end.

(** Python's [float(s)] on a decimal literal: surrounding whitespace is
    dropped, then an optional sign, digits with an optional point (at least
    one digit in all) and an optional exponent must make up the whole
    string; anything else is a [ValueError].  The literals of the
    non-finite floats ([inf], [nan]) and underscores between digits are
    not covered. *)
Definition float_of_chars (l : list ascii) : result number :=
  let '(neg, l1) := parse_sign (strip l) in
  let '(ip, l2) := span is_digit l1 in
  let '(fp, l3) :=
    match l2 with
    | "."%char :: l' => span is_digit l'
    | _ => ([], l2)
    end in
  match ip ++ fp with
  | [] => Raise ValueError
  | ds =>
      let '(e, l4) := parse_exponent l3 in
      match l4 with
      | [] =>
          let m := (num_of_Z (digits_val ds)
                    * pow10 (e - Z.of_nat (length fp)))%Qc in
          Ok (if neg then (- m)%Qc else m)
      | _ => Raise ValueError
      end
  end.

Definition float (s : string) : result number := float_of_chars (chars s).

(** [string_to_numbers] (svg_mobject.py, lines 29-32). *)
Definition string_to_numbers (num_string : string) : result (list number) :=
  let num_string := replace "-" ",-" num_string in
  let num_string := replace "e,-" "e-" num_string in
  mapM float_of_chars
    (filter (fun s => s <> [])
       (split_on (fun c => ascii_eqb c " " || ascii_eqb c ",")
          (chars num_string))).

(* ================================================================= *)
(** ** Points and arrays of points *)

(** A row of a numpy array of shape [(n, dim)]; [dim] is 3. *)
Record point : Type := Point { px : number; py : number; pz : number }.

Definition ORIGIN : point := Point 0%Qc 0%Qc 0%Qc.
Definition RIGHT : point := Point 1%Qc 0%Qc 0%Qc.
Definition UP : point := Point 0%Qc 1%Qc 0%Qc.
Definition DOWN : point := Point 0%Qc (-1)%Qc 0%Qc.

Definition point_add (p q : point) : point :=
  Point (px p + px q)%Qc (py p + py q)%Qc (pz p + pz q)%Qc.
Definition point_sub (p q : point) : point :=
  Point (px p - px q)%Qc (py p - py q)%Qc (pz p - pz q)%Qc.
Definition point_scale (k : number) (p : point) : point :=
  Point (k * px p)%Qc (k * py p)%Qc (k * pz p)%Qc.

(** [p[i]] for [i] in 0..2. *)
Definition coord (i : nat) (p : point) : number :=
  match i with 0 => px p | 1 => py p | _ => pz p end.

(** [p[i] = v] *)
Definition set_coord (i : nat) (v : number) (p : point) : point :=
  match i with
  | 0 => Point v (py p) (pz p)
  | 1 => Point (px p) v (pz p)
  | _ => Point (px p) (py p) v
  end.

#[global] Instance point_eq_dec : EqDecision point.
Proof. solve_decision. Defined.

(* ================================================================= *)
(** ** The drawing interface of VMobject *)

(** [VMobject] (manimlib/mobject/types/vectorized_mobject.py) is the base
    class of the path compiler; its code is not embedded.  The compiler
    reaches it only through the methods below, which are therefore the
    operations of two classes.  The first has the methods
    that draw and the current point; [M] is the state of the mobject. *)
Class VMobject (M : Type) : Type := {
  start_new_path : point -> M -> result M;
  add_line_to : point -> M -> result M;
  add_cubic_bezier_curve_to : point -> point -> point -> M -> result M;
  add_smooth_cubic_curve_to : point -> point -> M -> result M;
  add_quadratic_bezier_curve_to : point -> point -> M -> result M;
  add_smooth_curve_to : point -> M -> result M;
  close_path : M -> result M;
  get_last_point : M -> result point
}.

(** The second has the methods that work on the whole array of points; [P]
    is the array [get_points] returns. *)
Class VMobjectPoints (M P : Type) : Type := {
  subdivide_sharp_curves : M -> result M;
  get_points_without_null_curves : M -> result P;
  (* stretch(factor, dim, about_point=...) *)
  stretch : number -> nat -> point -> M -> result M;
  get_points : M -> P;
  set_points : P -> M -> M
}.

(** The bound methods stored in the command table. *)
Inductive method : Type :=
| Start_new_path
| Add_line_to
| Add_cubic_bezier_curve_to
| Add_smooth_cubic_curve_to
| Add_quadratic_bezier_curve_to
| Add_smooth_curve_to
| Close_path.

(** [CONFIG] of [VMobjectFromSVGPathstring]. *)
Record config : Type := Config {
  long_lines : bool;
  should_subdivide_sharp_curves : bool;
  should_remove_null_curves : bool
}.

Definition CONFIG : config := Config true false false.

(** [get_command_to_function_map] (lines 568-584): command letter, method
    and the number of points one call takes. *)
Definition get_command_to_function_map : list (ascii * (method * nat)) :=
  [ ("M"%char, (Start_new_path, 1));
    ("L"%char, (Add_line_to, 1));
    ("H"%char, (Add_line_to, 1));
    ("V"%char, (Add_line_to, 1));
    ("C"%char, (Add_cubic_bezier_curve_to, 3));
    ("S"%char, (Add_smooth_cubic_curve_to, 2));
    ("Q"%char, (Add_quadratic_bezier_curve_to, 2));
    ("T"%char, (Add_smooth_curve_to, 1));
    ("A"%char, (Add_quadratic_bezier_curve_to, 2));
    ("Z"%char, (Close_path, 0)) ].

Fixpoint dict_get {V} (d : list (ascii * V)) (k : ascii) : result V :=
  match d with
  | [] => Raise KeyError
  | (k', v) :: d' => if ascii_eqb k' k then Ok v else dict_get d' k
  end.

(** [command_to_function] (lines 565-566). *)
Definition command_to_function (command : ascii) : result (method * nat) :=
  dict_get get_command_to_function_map (upper command).

(** The character class [[MLHVCSQTAZmlhvcsqtaz]] of
    [get_commands_and_coord_strings]. *)
Definition all_commands : list ascii :=
  let keys := map fst get_command_to_function_map in
  keys ++ map lower keys.

Definition is_command (c : ascii) : bool :=
  existsb (ascii_eqb c) all_commands.

(** [re.split(pattern, s)] paired with [re.findall(pattern, s)]: the text
    before the first command letter, and every command letter with the
    text that follows it up to the next one. *)
Fixpoint scan_commands (l : list ascii) : list ascii * list (ascii * string) :=
  match l with
  | [] => ([], [])
  | c :: l' =>
      let '(head, rest) := scan_commands l' in
      if is_command c then ([], (c, str head) :: rest)
      else (c :: head, rest)
  end.

(** [get_commands_and_coord_strings] (lines 518-525). *)
Definition get_commands_and_coord_strings (path_string : string)
  : list (ascii * string) :=
  snd (scan_commands (chars path_string)).

(** [np.array(numbers).reshape((len(numbers) // 2, 2))]: the numbers taken
    two by two; an odd count cannot be reshaped. *)
Fixpoint reshape_pairs (numbers : list number) : result (list (number * number)) :=
  match numbers with
  | [] => Ok []
  | [_] => Raise ValueError
  | a :: b :: rest => xy ← reshape_pairs rest; Ok ((a, b) :: xy)
  end.

(** [row[i] = v] on a row of an array of shape [(n, 2)]. *)
Definition set_col (i : nat) (v : number) (row : number * number)
  : number * number :=
  match i with 0 => (v, snd row) | _ => (fst row, v) end.

(** [string_to_points] (lines 549-563).  [relative_point] is
    [self.relative_point]; the rows of the result have [dim] = 3 entries. *)
Definition string_to_points (relative_point : point)
    (command : ascii) (coord_string : string) : result (list point) :=
  numbers ← string_to_numbers coord_string;
  xy ←
    (if ascii_eqb (upper command) "H" || ascii_eqb (upper command) "V" then
       let i := if ascii_eqb (upper command) "H" then 0 else 1 in
       let xy := map (fun v => set_col i v (0%Qc, 0%Qc)) numbers in
       Ok (if isupper command
           then map (set_col (1 - i) (coord (1 - i) relative_point)) xy
           else xy)
     else if ascii_eqb (upper command) "A" then
       Raise NotImplemented
     else
       reshape_pairs numbers);
  Ok (map (fun '(a, b) => Point a b 0%Qc) xy).

Section PathCompiler.

Context {M : Type} {VM : VMobject M}.

(** The state of a [VMobjectFromSVGPathstring] while it is compiled: the
    mobject it extends and [self.relative_point]. *)
Record path_state : Type := PathState {
  mob : M;
  relative_point : point
}.

(** The call of [func] on the unpacked slice: its rows become the
    positional arguments of the method; too few of them is a
    [TypeError]. *)
Definition call (func : method) (args : list point) (m : M) : result M :=
  match func, args with
  | Start_new_path, [p] => start_new_path p m
  | Add_line_to, [p] => add_line_to p m
  | Add_cubic_bezier_curve_to, [h1; h2; p] =>
      add_cubic_bezier_curve_to h1 h2 p m
  | Add_smooth_cubic_curve_to, [h; p] => add_smooth_cubic_curve_to h p m
  | Add_quadratic_bezier_curve_to, [h; p] =>
      add_quadratic_bezier_curve_to h p m
  | Add_smooth_curve_to, [p] => add_smooth_curve_to p m
  | Close_path, [] => close_path m
  | _, _ => Raise TypeError
  end.

(** [handle_command] (lines 527-547).  [fuel] is the number of nested
    calls the interpreter still allows. *)
Fixpoint handle_command (fuel : nat) (command : ascii)
    (new_points : list point) (self : path_state) : result path_state :=
  match fuel with
  | O => Raise RecursionError
  | S fuel' =>
      let new_points :=
        if islower command
        then map (fun p => point_add p (relative_point self)) new_points
        else new_points in
      '(func, n_points) ← command_to_function command;
      m ← call func (take n_points new_points) (mob self);
      let leftover_points := drop n_points new_points in
      if (0 <? length leftover_points)%nat then
        let command :=
          if ascii_eqb (upper command) "M" then "l"%char else command in
        if islower command then
          let leftover_points :=
            map (fun p => point_sub p (relative_point self)) leftover_points in
          last ← get_last_point m;
          handle_command fuel' command leftover_points (PathState m last)
        else
          handle_command fuel' command leftover_points
            (PathState m (relative_point self))
      else
        last ← get_last_point m;
        Ok (PathState m last)
  end.

(** The loop of [init_points] over the commands (lines 504-506). *)
Fixpoint run_commands (fuel : nat) (cmds : list (ascii * string))
    (self : path_state) : result path_state :=
  match cmds with
  | [] => Ok self
  | (command, coord_string) :: cmds' =>
      new_points ← string_to_points (relative_point self) command coord_string;
      self' ← handle_command fuel command new_points self;
      run_commands fuel cmds' self'
  end.

End PathCompiler.

Arguments path_state M : clear implicits.
Arguments PathState {M} mob relative_point.
Arguments mob {M} p.
Arguments relative_point {M} p.

(* ================================================================= *)
(** ** The geometry cache *)

(** What a file of the data directory holds: an array written by
    [np.save], or bytes that [np.load] cannot decode. *)
Inductive file (P : Type) : Type :=
| Npy (p : P)
| Garbage.

Arguments Npy {P} p.
Arguments Garbage {P}.

(** The part of the file system the compiler sees: the files by path, and
    whether a file can be created or overwritten. *)
Record filesys (P : Type) : Type := FileSys {
  files : gmap string (file P);
  writable : bool
}.

Arguments FileSys {P} files writable.
Arguments files {P} f.
Arguments writable {P} f.

(** [os.path.exists] *)
Definition path_exists {P} (fs : filesys P) (path : string) : bool :=
  bool_decide (is_Some (files fs !! path)).

(** [np.load]: a missing file and an undecodable one both raise. *)
Definition np_load {P} (fs : filesys P) (path : string) : result P :=
  match files fs !! path with
  | Some (Npy p) => Ok p
  | Some Garbage => Raise ValueError
  | None => Raise IOError
  end.

(** [np.save]: raises when the file cannot be written. *)
Definition np_save {P} (fs : filesys P) (path : string) (p : P)
  : result (filesys P) :=
  if writable fs
  then Ok (FileSys (<[path := Npy p]> (files fs)) (writable fs))
  else Raise IOError.

(** [os.path.join(a, b)] on POSIX paths. *)
Definition path_join (a b : string) : string :=
  match chars b with
  | "/"%char :: _ => b
  | _ =>
      match rev (chars a) with
      | [] => b
      | "/"%char :: _ => a +:+ b
      | _ => a +:+ "/" +:+ b
      end
  end.

(** [s[:n]] *)
Definition str_take (n : nat) (s : string) : string := str (take n (chars s)).

Section GeometryCache.

Context {M P : Type} {VM : VMobject M} {VP : VMobjectPoints M P}.

(** The [else] branch of [init_points] through the Y flip (lines 503-514):
    what is computed when the cache misses. *)
Definition compile_path (fuel : nat) (cfg : config) (path_string : string)
    (m : M) : result M :=
  self ← run_commands fuel (get_commands_and_coord_strings path_string)
           (PathState m ORIGIN);
  m ← (if should_subdivide_sharp_curves cfg
       then subdivide_sharp_curves (mob self) else Ok (mob self));
  m ← (if should_remove_null_curves cfg
       then pts ← get_points_without_null_curves m; Ok (set_points pts m)
       else Ok m);
  stretch (-1)%Qc 1 ORIGIN m.

(** [hashlib.sha256(s.encode()).hexdigest()] and [get_mobject_data_dir()]
    come from outside the module. *)
Variable sha256_hexdigest : string -> string.
Variable get_mobject_data_dir : string.

Definition path_hash (path_string : string) : string :=
  str_take 16 (sha256_hexdigest path_string).

Definition points_filepath (path_string : string) : string :=
  path_join get_mobject_data_dir (path_hash path_string +:+ "_points.npy").

Definition tris_filepath (path_string : string) : string :=
  path_join get_mobject_data_dir (path_hash path_string +:+ "_tris.npy").

(** The test of line 500. *)
Definition cache_hit (fs : filesys P) (path_string : string) : bool :=
  path_exists fs (points_filepath path_string)
  && path_exists fs (tris_filepath path_string).

(** [init_points] (lines 489-516).  [m] is the mobject under
    construction; the result is the mobject with its points and the file
    system after the call. *)
Definition init_points (fuel : nat) (cfg : config) (path_string : string)
    (m : M) (fs : filesys P) : result (M * filesys P) :=
  if cache_hit fs path_string then
    pts ← np_load fs (points_filepath path_string);
    Ok (set_points pts m, fs)
  else
    m ← compile_path fuel cfg path_string m;
    fs ← np_save fs (points_filepath path_string) (get_points m);
    Ok (m, fs).

End GeometryCache.

(* ================================================================= *)
(** ** Subpaths: the geometry a compile produces *)

(** Modelled from the spec: the curve segments of a subpath.  VMobject's
    own representation is missing; the spec's data model has subpaths of
    segments that share their end points, so a segment is kept by the
    points the compiler hands over and starts where the one before it
    ends. *)
Inductive curve : Type :=
| LineTo (p : point)
| CubicTo (h1 h2 p : point)
| SmoothCubicTo (h p : point)
| QuadraticTo (h p : point)
| SmoothTo (p : point).

(** Modelled from the spec: a subpath, with its closure recorded
    explicitly (VMobject's representation is missing). *)
Record subpath : Type := Subpath {
  sp_start : point;
  sp_curves : list curve;
  sp_closed : bool
}.

(** Modelled from the spec: the ordered list of subpaths of a Geometry
    (VMobject's points array is missing). *)
Definition geometry : Type := list subpath.

Definition curve_end (c : curve) : point :=
  match c with
  | LineTo p | CubicTo _ _ p | SmoothCubicTo _ p | QuadraticTo _ p
  | SmoothTo p => p
  end.

Definition curve_map (f : point -> point) (c : curve) : curve :=
  match c with
  | LineTo p => LineTo (f p)
  | CubicTo h1 h2 p => CubicTo (f h1) (f h2) (f p)
  | SmoothCubicTo h p => SmoothCubicTo (f h) (f p)
  | QuadraticTo h p => QuadraticTo (f h) (f p)
  | SmoothTo p => SmoothTo (f p)
  end.

Definition subpath_map (f : point -> point) (sp : subpath) : subpath :=
  Subpath (f (sp_start sp)) (map (curve_map f) (sp_curves sp)) (sp_closed sp).

(** Modelled from the spec: the current point, "the most recent segment
    endpoint", or the move that opened the subpath when it has no segment
    yet ([VMobject.get_last_point] is missing). *)
Definition current_point (sp : subpath) : point :=
  match last (sp_curves sp) with
  | Some c => curve_end c
  | None => sp_start sp
  end.

(** The last subpath changed by [f]; without a subpath there is no current
    point and nothing to extend. *)
Definition on_last_subpath (f : subpath -> subpath) (g : geometry)
  : result geometry :=
  match rev g with
  | [] => Raise IndexError
  | sp :: before => Ok (rev before ++ [f sp])
  end.

Definition add_curve (c : curve) (g : geometry) : result geometry :=
  on_last_subpath
    (fun sp => Subpath (sp_start sp) (sp_curves sp ++ [c]) (sp_closed sp)) g.

(** Modelled from the spec: closing a subpath adds the segment back to its
    start point and records the closure ([VMobject.close_path] is
    missing). *)
Definition close_subpath (g : geometry) : result geometry :=
  on_last_subpath
    (fun sp =>
       Subpath (sp_start sp) (sp_curves sp ++ [LineTo (sp_start sp)]) true) g.

(** Modelled from the spec: [stretch(factor, dim, about_point)] scales the
    coordinate [dim] of every point about [about_point]; with factor -1,
    axis 1 and the origin it is the final Y flip ([Mobject.stretch] is
    missing). *)
Definition stretch_point (factor : number) (dim : nat) (about : point)
    (p : point) : point :=
  set_coord dim
    (coord dim about + factor * (coord dim p - coord dim about))%Qc p.

(** Modelled from the spec: the VMobject methods that draw, on subpaths
    (vectorized_mobject.py is missing). *)
#[export] Instance geometry_vmobject : VMobject geometry := {
  start_new_path p g := Ok (g ++ [Subpath p [] false]);
  add_line_to p g := add_curve (LineTo p) g;
  add_cubic_bezier_curve_to h1 h2 p g := add_curve (CubicTo h1 h2 p) g;
  add_smooth_cubic_curve_to h p g := add_curve (SmoothCubicTo h p) g;
  add_quadratic_bezier_curve_to h p g := add_curve (QuadraticTo h p) g;
  add_smooth_curve_to p g := add_curve (SmoothTo p) g;
  close_path g := close_subpath g;
  get_last_point g :=
    match last g with
    | Some sp => Ok (current_point sp)
    | None => Raise IndexError
    end
}.

Section SpecGeometry.

(** The two optional passes over the finished segment list; the spec says
    of them only that they keep the order of the segments. *)
Variable subdivide_sharp : geometry -> geometry.
Variable without_null_curves : geometry -> geometry.

(** Modelled from the spec: the VMobject methods on the whole array, the
    array being the list of subpaths (vectorized_mobject.py is
    missing). *)
#[export] Instance geometry_points : VMobjectPoints geometry geometry := {
  subdivide_sharp_curves g := Ok (subdivide_sharp g);
  get_points_without_null_curves g := Ok (without_null_curves g);
  stretch factor dim about g :=
    Ok (map (subpath_map (stretch_point factor dim about)) g);
  get_points g := g;
  set_points pts _ := pts
}.

End SpecGeometry.

(** The commands of a path string run on a fresh mobject: the state of the
    loop of [init_points] when it ends. *)
Definition run_path (fuel : nat) (path_string : string)
  : result (path_state geometry) :=
  run_commands fuel (get_commands_and_coord_strings path_string)
    (PathState [] ORIGIN).

(** The current point of a path string once its commands have run. *)
Definition path_endpoint (fuel : nat) (path_string : string) : result point :=
  self ← run_path fuel path_string; get_last_point (mob self).

#[global] Instance curve_eq_dec : EqDecision curve.
Proof. solve_decision. Defined.

#[global] Instance subpath_eq_dec : EqDecision subpath.
Proof. solve_decision. Defined.

#[global] Instance result_eq_dec {A} `{EqDecision A} : EqDecision (result A).
Proof. solve_decision. Defined.

#[global] Instance path_state_eq_dec {M} `{EqDecision M}
  : EqDecision (path_state M).
Proof. solve_decision. Defined.

(* ================================================================= *)
(** ** The document: elements, styles and the definition registry *)

(** A node of the parsed document: an element (minidom [Element]) with its
    tag, attributes and children, or any other node. *)
Inductive node : Type :=
| Element (tagName : string) (attributes : gmap string string)
    (childNodes : list node)
| Text (data : string).

(** A style: SVG property names to their values. *)
Abbreviation style := (gmap string string).

(** [element.getAttribute(name)]: the empty string when the attribute is
    absent. *)
Definition getAttribute (element : node) (name : string) : string :=
  match element with
  | Element _ attrs _ => default "" (attrs !! name)
  | Text _ => ""
  end.

Definition hasAttribute (element : node) (name : string) : bool :=
  match element with
  | Element _ attrs _ => bool_decide (is_Some (attrs !! name))
  | Text _ => false
  end.

(** [s[n:]] *)
Definition str_drop (n : nat) (s : string) : string := str (drop n (chars s)).

(** [attribute_to_float] (lines 249-253). *)
Definition keeps (c : ascii) : bool :=
  is_digit c || ascii_eqb c "." || ascii_eqb c "-".

Definition attribute_to_float (attr : string) : result number :=
  let stripped_attr := str (List.filter keeps (chars attr)) in
  float stripped_attr.

(** The state of an [SVGMobject] that [use_to_mobjects] reads and writes:
    the file name, the registry [def_map] and the warnings issued so far. *)
Record svg_state : Type := SvgState {
  file_name : string;
  def_map : gmap string (style * node);
  warnings : list string
}.

Definition warn (text : string) (self : svg_state) : svg_state :=
  SvgState (file_name self) (def_map self) (warnings self ++ [text]).

Section Use.

(** The mobjects the walker produces, and the walker itself:
    [use_to_mobjects] re-enters it through [self.get_mobjects_from]. *)
Variable VMob : Type.
Variable get_mobjects_from :
  node -> style -> svg_state -> result (list VMob * svg_state).

(** [use_to_mobjects] (lines 210-247).  [style.update(def_style)] on a
    copy of [local_style] is the union that prefers [def_style]. *)
Definition use_to_mobjects (use_element : node) (local_style : style)
    (self : svg_state) : result (list VMob * svg_state) :=
  let ref := str_drop 1 (getAttribute use_element "xlink:href") in
  match def_map self !! ref with
  | None =>
      let warning_text :=
        file_name self +:+ " contains a reference to id #" +:+ ref
        +:+ ", which is not recognized" in
      Ok ([], warn warning_text self)
  | Some (def_style, def_element) =>
      let style := def_style ∪ local_style in
      get_mobjects_from def_element style self
  end.

End Use.

(* ================================================================= *)
(** ** Rectangles *)

(** The values a keyword argument takes here. *)
Inductive py_value : Type :=
| PyInt (z : Z)
| PyFloat (q : number)
| PyStr (s : string).

(** The constructor call [rect_to_mobject] ends in ([Rectangle] and
    [RoundedRectangle] are classes of manimlib.mobject.geometry, whose code
    is not embedded) and the shift applied to the new mobject. *)
Inductive rect_mobject : Type :=
| Rectangle (width height : number) (kwargs : gmap string py_value)
    (shift : point)
| RoundedRectangle (width height corner_radius : number)
    (kwargs : gmap string py_value) (shift : point).

Definition str_in (s : string) (l : list string) : bool :=
  existsb (String.eqb s) l.

Section Rect.

(** [parse_style] of style_utils, whose code is not embedded. *)
Variable parse_style : style -> gmap string py_value.

(** The stroke width of lines 351-355: 0 for an absent, ["none"] or
    ["0"] attribute, the attribute text otherwise. *)
Definition rect_stroke_width (rect_element : node) : py_value :=
  let stroke_width := getAttribute rect_element "stroke-width" in
  if str_in stroke_width [""; "none"; "0"] then PyInt 0
  else PyStr stroke_width.

(** The corner radius of lines 352-360. *)
Definition rect_corner_radius (rect_element : node) : result number :=
  let corner_radius := getAttribute rect_element "rx" in
  if str_in corner_radius [""; "0"; "none"] then Ok 0%Qc
  else float corner_radius.

(** Modelled from the spec: a new rectangle is centred at the origin, and
    [mob.get_center() - mob.get_corner(UP + LEFT)] moves its top-left
    corner there ([Mobject.get_center] and [get_corner] are missing). *)
Definition rect_shift (width height : number) : point :=
  Point (width / 2)%Qc (- (height / 2))%Qc 0%Qc.

(** [rect_to_mobject] (lines 333-380). *)
Definition rect_to_mobject (rect_element : node) (st : style)
  : result rect_mobject :=
  let stroke_width := rect_stroke_width rect_element in
  corner_radius ← rect_corner_radius rect_element;
  let parsed_style := <["stroke_width" := stroke_width]> (parse_style st) in
  width ← attribute_to_float (getAttribute rect_element "width");
  height ← attribute_to_float (getAttribute rect_element "height");
  if bool_decide (corner_radius = 0%Qc) then
    Ok (Rectangle width height parsed_style (rect_shift width height))
  else
    Ok (RoundedRectangle width height corner_radius parsed_style
          (rect_shift width height)).

End Rect.

(* ================================================================= *)
(** ** Transforms *)

(** A mobject as the transform composer sees it: its points and its
    submobjects.  The group that [get_mobjects_from] hands over has no
    points of its own and the mobjects of the element as submobjects. *)
Inductive mobject : Type :=
| Mobject (points : list point) (submobjects : list mobject).

Definition points (m : mobject) : list point :=
  match m with Mobject pts _ => pts end.

Definition submobjects (m : mobject) : list mobject :=
  match m with Mobject _ subs => subs end.

(** Every member of the family (the mobject and, recursively, its
    submobjects) gets its points replaced by [f] of them. *)
Fixpoint map_family (f : list point -> list point) (m : mobject) : mobject :=
  match m with
  | Mobject pts subs => Mobject (f pts) (map (map_family f) subs)
  end.

(** All the points of the family, the mobject's own first. *)
Fixpoint family_points (m : mobject) : list point :=
  match m with
  | Mobject pts subs => pts ++ concat (map family_points subs)
  end.

(** Modelled from the spec: [mobject.shift(vector)] moves every point of
    the family by [vector] ([Mobject.shift] is missing). *)
Definition shift (vector : point) (m : mobject) : mobject :=
  map_family (map (fun p => point_add p vector)) m.

(** Modelled from the spec: [mobject.scale(factors, about_point=ORIGIN)]
    with an array of factors multiplies every point of the family
    coordinate by coordinate ([Mobject.scale] is missing). *)
Definition scale (factors : point) (m : mobject) : mobject :=
  map_family
    (map (fun p => Point (px factors * px p)%Qc (py factors * py p)%Qc
                         (pz factors * pz p)%Qc)) m.

(** A numpy matrix, by rows. *)
Definition matrix : Type := list (list number).

Definition row_of_point (p : point) : list number := [px p; py p; pz p].

Definition point_of_row (r : list number) : point :=
  Point (nth 0 r 0%Qc) (nth 1 r 0%Qc) (nth 2 r 0%Qc).

(** [np.identity(n)] *)
Definition np_identity (n : nat) : matrix :=
  map (fun i => map (fun j => if (i =? j)%nat then 1%Qc else 0%Qc) (seq 0 n))
      (seq 0 n).

(** [m[:r, :c] = block] for a block of [r] rows of [c] entries. *)
Definition assign_block (block : matrix) (m : matrix) : matrix :=
  imap (fun i row =>
          match block !! i with
          | Some brow => brow ++ drop (length brow) row
          | None => row
          end) m.

(** [m[i] *= k] *)
Definition scale_row (i : nat) (k : number) (m : matrix) : matrix :=
  imap (fun i' row => if (i' =? i)%nat then map (Qcmult k) row else row) m.

(** [m[:, j] *= k] *)
Definition scale_col (j : nat) (k : number) (m : matrix) : matrix :=
  map (imap (fun j' v => if (j' =? j)%nat then (k * v)%Qc else v)) m.

(** The sum of a row; numpy's accumulation starts from the first product. *)
Definition sum_numbers (l : list number) : number :=
  match l with
  | [] => 0%Qc
  | a :: l' => fold_left Qcplus l' a
  end.

(** Column [j] of [m]. *)
Definition column (j : nat) (m : matrix) : list number :=
  map (fun row => nth j row 0%Qc) m.

(** [np.dot(v, m)] for a row vector [v]. *)
Definition dot_row (v : list number) (m : matrix) : list number :=
  map (fun j => sum_numbers (zip_with Qcmult v (column j m)))
      (seq 0 (length (hd [] m))).

(** [np.dot(points, m)] *)
Definition np_dot (pts : list point) (m : matrix) : list point :=
  map (fun p => point_of_row (dot_row (row_of_point p) m)) pts.

(** [np.array(op_args).reshape([3, 2])] *)
Definition reshape_3_2 (op_args : list number) : result matrix :=
  match op_args with
  | [a; b; c; d; e; f] => Ok [[a; b]; [c; d]; [e; f]]
  | _ => Raise ValueError
  end.

(** The matrix of lines 426-429: the identity with its upper left block
    taken from the first two rows of the arguments, then row 1 and column 1
    negated. *)
Definition transform_matrix (transform_args : matrix) : matrix :=
  let m := np_identity 3 in
  let m := assign_block (take 2 transform_args) m in
  let m := scale_row 1 (-1)%Qc m in
  scale_col 1 (-1)%Qc m.

(** [mobject.family_members_with_points()]: the members of the family that
    have points, the mobject's own place first. *)
Fixpoint family_members_with_points (m : mobject) : list mobject :=
  match m with
  | Mobject pts subs =>
      (match pts with [] => [] | _ :: _ => [m] end)
      ++ concat (map family_members_with_points subs)
  end.

(** The body of the loop over the transforms (lines 418-455) for one
    operation, given by its name and its numeric arguments.

    In the [matrix] branch the loop of lines 431-432 reads [mob.points]
    for the first member of the family that has points.  The mobjects of
    this repository keep their arrays in [self.data] and reach them through
    [get_points] and [set_points] (lines 501-516 of this file, [init_data]
    of image_mobject.py); they have no attribute [points], so the read is
    an [AttributeError]: the product with the matrix is never formed and
    the shift of line 433 is not reached.  Without a member that has points
    the loop is empty and the shift is made. *)
Definition apply_transform (op_name : string) (op_args : list number)
    (m : mobject) : result mobject :=
  if String.eqb op_name "matrix" then
    transform_args ← reshape_3_2 op_args;
    let x := nth 0 (nth 2 transform_args []) 0%Qc in
    let y := (- nth 1 (nth 2 transform_args []) 0%Qc)%Qc in
    let mat := transform_matrix transform_args in
    match family_members_with_points m with
    | _ :: _ => Raise AttributeError
    | [] => Ok (shift (point_add (point_scale x RIGHT) (point_scale y UP)) m)
    end
  else if String.eqb op_name "scale" then
    match op_args with
    | [scale_x; scale_y] => Ok (scale (Point scale_x scale_y 1%Qc) m)
    | [s] => Ok (scale (Point s s 1%Qc) m)
    | _ => Ok m
    end
  else if String.eqb op_name "translate" then
    match op_args with
    | [x; y] =>
        Ok (shift (point_add (point_scale x RIGHT) (point_scale y DOWN)) m)
    | [x] =>
        (* x is the list itself: [x] * RIGHT broadcasts *)
        Ok (shift (point_add (Point (x * 1) (x * 0) (x * 0))%Qc
                             (point_scale 0%Qc DOWN)) m)
    | [a; b; c] =>
        Ok (shift (point_add (Point (a * 1) (b * 0) (c * 0))%Qc
                             (point_scale 0%Qc DOWN)) m)
    | _ => Raise ValueError
    end
  else Ok m.

(** [handle_transforms] (lines 382-455).  [transforms] are the operations
    that the two regular expressions extract from the [transform]
    attribute, each with its name and its numbers, in the order of the
    text. *)
Definition handle_transforms (element : node)
    (transforms : list (string * list number)) (m : mobject)
  : result mobject :=
  m ← (if hasAttribute element "x" && hasAttribute element "y" then
         x ← attribute_to_float (getAttribute element "x");
         y ← attribute_to_float (getAttribute element "y");
         let y := (- y)%Qc in
         Ok (shift (point_add (point_scale x RIGHT) (point_scale y UP)) m)
       else Ok m);
  foldl (fun acc '(op_name, op_args) =>
           m ← acc; apply_transform op_name op_args m)
        (Ok m) transforms.

(** The default depth of the interpreter's call stack. *)
Definition recursion_limit : nat := 1000.

(** Whole numbers as coordinates. *)
Definition pt (x y : Z) : point := Point (num_of_Z x) (num_of_Z y) 0%Qc.


(* ================================================================= *)
(** ** Relative points made absolute *)

(** The points of a relative command as the code makes them absolute.  The
    offsets are taken in groups of [n], the points one call takes; a call
    adds its current point to every point it is given (line 530) and
    subtracts it again from those it leaves over (line 542), and the next
    call starts from the last point of the group.  [cur] is the current
    point of the call at work, [i] counts the offsets of its group that
    have been passed, and [adjust] is what the calls before it have done to
    an offset that reaches it. *)
Fixpoint absolute_points (n i : nat) (cur : point) (adjust : point -> point)
    (offsets : list point) : list point :=
  match offsets with
  | [] => []
  | d :: rest =>
      let q := point_add (adjust d) cur in
      q :: (if (S i =? n)%nat
            then absolute_points n 0 q
                   (fun d' => point_sub (point_add (adjust d') cur) cur) rest
            else absolute_points n (S i) cur adjust rest)
  end.

(* ================================================================= *)
(** ** Polygons and polylines *)

(** [element.tagName]; only elements have one. *)
Definition tagName (element : node) : string :=
  match element with
  | Element tag _ _ => tag
  | Text _ => ""
  end.

(** [s.lstrip()] *)
Definition lstrip (s : string) : string := str (drop_while is_space (chars s)).

(** [string.digits] *)
Definition digits : list ascii := chars "0123456789".

(** The path string that [polygon_to_mobject] (lines 255-278) hands to
    [path_string_to_mobject]. *)
Definition polygon_path_string (polygon_element : node) : string :=
  let path_string := lstrip (getAttribute polygon_element "points") in
  let path_string :=
    fold_left
      (fun path_string digit =>
         replace (String " " (String digit ""))
                 (String " " (String "L" (String digit ""))) path_string)
      digits path_string in
  let path_string := "M" +:+ path_string in
  if String.eqb (tagName polygon_element) "polygon"
  then path_string +:+ "Z"
  else path_string.


(** A word of the [points] attribute as the path string has it: an [L]
    goes before a word that starts with a digit. *)
Definition line_to_word (w : list ascii) : list ascii :=
  match w with
  | c :: _ => if is_digit c then "L"%char :: w else w
  | [] => []
  end.

(** One round of the loop over the digits, on one word. *)
Definition line_to_digit (w : list ascii) (digit : ascii) : list ascii :=
  match w with
  | c :: _ => if ascii_eqb digit c then "L"%char :: w else w
  | [] => []
  end.

(** A non-empty string of decimal digits, and the number it writes. *)
Definition is_digits (ds : list ascii) : bool :=
  negb (length ds =? 0)%nat && forallb is_digit ds.

Definition digits_number (ds : list ascii) : number := num_of_Z (digits_val ds).

(** The numbers of a text already cut: [string_to_numbers] after its two
    replacements. *)
Definition numbers_of (l : list ascii) : result (list number) :=
  mapM float_of_chars
    (filter (fun s => s <> [])
       (split_on (fun c => ascii_eqb c " " || ascii_eqb c ",") l)).

(** A vertex written with two strings of digits: its word in the [points]
    attribute and the point it names. *)
Definition vertex_word (v : list ascii * list ascii) : list ascii :=
  fst v ++ ","%char :: snd v.

Definition vertex_point (v : list ascii * list ascii) : point :=
  Point (digits_number (fst v)) (digits_number (snd v)) 0%Qc.

Definition is_vertex (v : list ascii * list ascii) : bool :=
  is_digits (fst v) && is_digits (snd v).

(** The [L] commands that the words of the later vertices become: each
    coordinate string runs up to the next command letter, the space before
    it included. *)
Fixpoint line_commands (vs : list (list ascii * list ascii))
  : list (ascii * string) :=
  match vs with
  | [] => []
  | v :: vs' =>
      ("L"%char,
       str (vertex_word v ++ match vs' with [] => [] | _ => [" "%char] end))
      :: line_commands vs'
  end.


(* ================================================================= *)
(** ** Circles and ellipses *)

(** The constructor call [circle_to_mobject] or [ellipse_to_mobject] ends
    in ([Circle] is a class of manimlib.mobject.geometry, whose code is not
    embedded): a circle of a given radius, or a circle of the default
    radius scaled by a vector, and the shift applied to it. *)
Inductive circle_mobject : Type :=
| Circle (radius : number) (kwargs : gmap string py_value) (shift : point)
| ScaledCircle (kwargs : gmap string py_value) (scale_factor : point)
    (shift : point).

(** [attribute_to_float(element.getAttribute(key)) if
    element.hasAttribute(key) else 0.0] *)
Definition attribute_or_zero (element : node) (key : string) : result number :=
  if hasAttribute element key
  then attribute_to_float (getAttribute element key)
  else Ok 0%Qc.

Section Circle.

Variable parse_style : style -> gmap string py_value.

(** [circle_to_mobject] (lines 280-302). *)
Definition circle_to_mobject (circle_element : node) (st : style)
  : result circle_mobject :=
  x ← attribute_or_zero circle_element "cx";
  y ← attribute_or_zero circle_element "cy";
  r ← attribute_or_zero circle_element "r";
  Ok (Circle r (parse_style st)
        (point_add (point_scale x RIGHT) (point_scale y DOWN))).

(** [ellipse_to_mobject] (lines 304-331). *)
Definition ellipse_to_mobject (circle_element : node) (st : style)
  : result circle_mobject :=
  x ← attribute_or_zero circle_element "cx";
  y ← attribute_or_zero circle_element "cy";
  rx ← attribute_or_zero circle_element "rx";
  ry ← attribute_or_zero circle_element "ry";
  Ok (ScaledCircle (parse_style st)
        (point_add (point_scale rx RIGHT) (point_scale ry UP))
        (point_add (point_scale x RIGHT) (point_scale y DOWN))).

End Circle.

(* ================================================================= *)
(** ** The walk over the document *)

(** [self.def_map[key] = value] *)
Definition register (key : string) (value : style * node) (self : svg_state)
  : svg_state :=
  SvgState (file_name self) (<[key := value]> (def_map self)) (warnings self).

(** The comprehension over [element.childNodes]: the children are walked in
    order, each on the state the one before it left. *)
Fixpoint walk_children
    (walk : node -> svg_state -> result (list mobject * svg_state))
    (children : list node) (self : svg_state)
  : result (list (list mobject) * svg_state) :=
  match children with
  | [] => Ok ([], self)
  | child :: rest =>
      '(mobjects, self) ← walk child self;
      '(others, self) ← walk_children walk rest self;
      Ok (mobjects :: others, self)
  end.

Section Walk.

(** [cascade_element_style] of style_utils, whose code is not embedded: the
    style of an element, a dict of its own. *)
Variable cascade_element_style : node -> style -> style.

(** [parse_style] of style_utils, whose code is not embedded.  It returns
    the keyword arguments for the mobject, and it changes the dict it is
    given in place (it fills in the properties that the dict does not
    set): the second component is that dict as the call leaves it. *)
Variable parse_style : style -> gmap string py_value * style.

(** What the two regular expressions and the split at the parenthesis
    (lines 412-420) make of a [transform] attribute: the operations with
    their numbers, or nothing when a match does not split in two, which is
    a [ValueError]. *)
Variable transform_operations : string -> option (list (string * list number)).

(** The mobjects that the classes build: [VMobjectFromSVGPathstring] (a
    path string that does not compile raises), and [Rectangle],
    [RoundedRectangle] and [Circle] of manimlib.mobject.geometry. *)
Variable new_path :
  string -> gmap string py_value -> result mobject.
Variable new_rectangle : rect_mobject -> mobject.
Variable new_circle : circle_mobject -> mobject.

(** [CONFIG["unpack_groups"]] *)
Variable unpack_groups : bool.

(** [path_string_to_mobject] (lines 192-208). *)
Definition path_string_to_mobject (path_string : string) (st : style)
  : result mobject :=
  new_path path_string (fst (parse_style st)).

(** [polygon_to_mobject] (lines 255-278). *)
Definition polygon_to_mobject (polygon_element : node) (st : style)
  : result mobject :=
  path_string_to_mobject (polygon_path_string polygon_element) st.

(** [get_mobjects_from] (lines 114-190).  [fuel] is the number of nested
    calls the interpreter still allows.  The dict [style] built on line 145
    is the one handed to [parse_style] by the branches that draw, and the
    one stored in [def_map] on line 185: every branch gives the style back
    as it leaves it.  No branch appends [None], so the filter of line 176
    keeps everything.  [VGroup] of the result is a mobject without points;
    [handle_transforms] changes the mobjects of the result in place, so
    they are read back from the group. *)
Fixpoint get_mobjects_from (fuel : nat) (element : node)
    (inherited_style : style) (within_defs : bool) (self : svg_state)
  : result (list mobject * svg_state) :=
  match fuel with
  | O => Raise RecursionError
  | S fuel' =>
      match element with
      | Text _ => Ok ([], self)
      | Element tag _ children =>
          let st := cascade_element_style element inherited_style in
          let is_defs := String.eqb tag "defs" in
          '(result, self, st) ←
            (if String.eqb tag "style" then Ok ([], self, st)
             else if str_in tag ["g"; "svg"; "symbol"; "defs"] then
               '(results, self) ←
                 walk_children
                   (fun child =>
                      get_mobjects_from fuel' child st (within_defs || is_defs))
                   children self;
               Ok (concat results, self, st)
             else if String.eqb tag "path" then
               let temp := getAttribute element "d" in
               if String.eqb temp "" then Ok ([], self, st)
               else
                 m ← path_string_to_mobject temp st;
                 Ok ([m], self, snd (parse_style st))
             else if String.eqb tag "use" then
               '(result, self) ←
                 use_to_mobjects mobject
                   (fun def_element st' =>
                      get_mobjects_from fuel' def_element st' false)
                   element st self;
               Ok (result, self, st)
             else if String.eqb tag "rect" then
               r ← rect_to_mobject (fun st' => fst (parse_style st'))
                     element st;
               Ok ([new_rectangle r], self, snd (parse_style st))
             else if String.eqb tag "circle" then
               c ← circle_to_mobject (fun st' => fst (parse_style st'))
                     element st;
               Ok ([new_circle c], self, snd (parse_style st))
             else if String.eqb tag "ellipse" then
               c ← ellipse_to_mobject (fun st' => fst (parse_style st'))
                     element st;
               Ok ([new_circle c], self, snd (parse_style st))
             else if str_in tag ["polygon"; "polyline"] then
               m ← polygon_to_mobject element st;
               Ok ([m], self, snd (parse_style st))
             else Ok ([], self, st));
          operations ←
            match transform_operations (getAttribute element "transform") with
            | Some operations => Ok operations
            | None => Raise ValueError
            end;
          group ← handle_transforms element operations (Mobject [] result);
          let result := submobjects group in
          let result :=
            if (1 <? length result)%nat && negb unpack_groups
            then [Mobject [] result] else result in
          let self :=
            if within_defs && hasAttribute element "id"
            then register (getAttribute element "id") (st, element) self
            else self in
          if is_defs then Ok ([], self) else Ok (result, self)
      end
  end.

(** [doc.getElementsByTagName(name)] on the nodes of a document: the
    elements with the tag, in document order, found at any depth. *)
Fixpoint getElementsByTagName (name : string) (n : node) : list node :=
  match n with
  | Text _ => []
  | Element tag _ children =>
      (if String.eqb tag name then [n] else [])
      ++ concat (map (getElementsByTagName name) children)
  end.

(** The loop of [SVGMobject.init_points] (lines 100-112) over the [svg]
    elements; [submobs] are the submobjects added so far. *)
Fixpoint add_svgs (fuel : nat) (svgs : list node) (submobs : list mobject)
    (self : svg_state) : result (list mobject * svg_state) :=
  match svgs with
  | [] => Ok (submobs, self)
  | svg :: rest =>
      '(mobjects, self) ← get_mobjects_from fuel svg ∅ false self;
      added ←
        (if unpack_groups then Ok mobjects
         else match mobjects with
              | first :: _ => Ok (submobjects first)
              | [] => Raise IndexError
              end);
      add_svgs fuel rest (submobs ++ added) self
  end.

(** [SVGMobject.init_points] on the root node of the parsed file. *)
Definition svg_init_points (fuel : nat) (doc : node) (self : svg_state)
  : result (list mobject * svg_state) :=
  add_svgs fuel (getElementsByTagName "svg" doc) [] self.

End Walk.

(** What a walk may do to the state: it keeps the file name, every id of
    the registry (the value may be bound anew) and the warnings issued,
    to which it may add. *)
Definition state_grows (self self' : svg_state) : Prop :=
  file_name self' = file_name self
  /\ dom (def_map self) ⊆ dom (def_map self')
  /\ exists added, warnings self' = warnings self ++ added.

(** The elements for which [get_mobjects_from] gets to [parse_style]: a
    path with a [d] that is not empty, and the shapes. *)
Definition calls_parse_style (element : node) : bool :=
  (String.eqb (tagName element) "path"
   && negb (String.eqb (getAttribute element "d") ""))
  || str_in (tagName element)
       ["rect"; "circle"; "ellipse"; "polygon"; "polyline"].


(* ================================================================= *)
(** ** The file of an SVGMobject *)

(** How the search for the file ends: with [self.file_path] set, with
    [Exception("Must specify file for SVGMobject")], or with the [IOError]
    that lists the paths tried last. *)
Inductive file_lookup : Type :=
| FilePath (file_path : string)
| MustSpecifyFile
| CouldNotFind (possible_paths : list string).

Section FileLookup.

(** [os.path.exists], [os.getcwd()] and [get_vector_image_dir()]. *)
Variable path_exists_on_disk : string -> bool.
Variable getcwd : string.
Variable get_vector_image_dir : string.

(** The list [possible_paths] of [ensure_valid_file]. *)
Definition possible_paths (file_name : string) : list string :=
  [ path_join get_vector_image_dir file_name;
    path_join get_vector_image_dir (file_name +:+ ".xdv");
    path_join get_vector_image_dir (file_name +:+ ".svg");
    file_name;
    file_name +:+ ".svg";
    file_name +:+ ".xdv" ].

(** [ensure_valid_file] (lines 61-90); the argument is [self.file_name]. *)
Definition ensure_valid_file (file_name : option string) : file_lookup :=
  match file_name with
  | None => MustSpecifyFile
  | Some file_name =>
      if path_exists_on_disk file_name then FilePath file_name
      else
        let relative := path_join getcwd file_name in
        if path_exists_on_disk relative then FilePath relative
        else
          match List.find path_exists_on_disk (possible_paths file_name) with
          | Some path => FilePath path
          | None => CouldNotFind (possible_paths file_name)
          end
  end.

(** [get_full_vector_image_path] of manimlib.utils.images, whose code is
    not embedded; it may fail. *)
Variable get_full_vector_image_path : string -> file_lookup.

(** [a or b] on an optional string: [None] and the empty string are
    false. *)
Definition or_else (a b : option string) : option string :=
  match a with
  | Some "" | None => b
  | Some _ => a
  end.

(** The statements of [SVGMobject.__init__] (lines 49-59) that settle the
    file, up to the assignment of [self.file_path]; [config_file_name] is
    the [file_name] of [CONFIG]. *)
Definition init_file_path (file_name config_file_name : option string)
  : file_lookup :=
  let self_file_name := or_else file_name config_file_name in
  match ensure_valid_file self_file_name with
  | FilePath _ =>
      match file_name with
      | None => MustSpecifyFile
      | Some file_name => get_full_vector_image_path file_name
      end
  | failure => failure
  end.

End FileLookup.

(* ================================================================= *)
(** ** Elements with an id *)

(** A Python list whose items are values or lists of the same kind. *)
Inductive nested (A : Type) : Type :=
| Item (a : A)
| Nested (items : list (nested A)).

Arguments Item {A} a.
Arguments Nested {A} items.

(** [flatten] (lines 457-465): the values of the list, those of its inner
    lists in their place. *)
Fixpoint flatten_item {A} (i : nested A) : list A :=
  match i with
  | Item a => [a]
  | Nested items => concat (map flatten_item items)
  end.

Definition flatten {A} (input_list : list (nested A)) : list A :=
  concat (map flatten_item input_list).

(** [get_all_childNodes_have_id] (lines 467-475); [None] is Python's
    [None], returned for a node that is no element.  The comprehension
    [[e for e in all if e]] drops [None] and the empty lists. *)
Fixpoint get_all_childNodes_have_id (element : node) : option (list node) :=
  match element with
  | Text _ => None
  | Element _ _ children =>
      if hasAttribute element "id" then Some [element]
      else
        let all_childNodes_have_id :=
          map get_all_childNodes_have_id children in
        Some (flatten
                (omap (fun e =>
                         match e with
                         | Some (n :: l) => Some (Nested (map Item (n :: l)))
                         | _ => None
                         end)
                   all_childNodes_have_id))
  end.


(* ================================================================= *)
(** ** Words of a Text (text_mobject.py) *)

(** [text.find(word, start)]: the lowest index from [start] on at which
    [word] begins, if there is one. *)
Fixpoint find_at (word l : list ascii) (i : nat) : option nat :=
  if is_prefix word l then Some i
  else match l with
       | [] => None
       | _ :: l' => find_at word l' (S i)
       end.

Definition str_find (text word : list ascii) (start : nat) : option nat :=
  if (start <=? length text)%nat then find_at word (drop start text) start
  else None.

(** The class [[0-9\-]] of the pattern of [find_indexes]. *)
Definition is_slice_char (c : ascii) : bool := is_digit c || ascii_eqb c "-".

(** [re.match(r"\[([0-9\-]{0,}):([0-9\-]{0,})\]", word)]: the two groups,
    when the word begins with the pattern. *)
Definition match_slice (word : list ascii)
  : option (list ascii * list ascii) :=
  match word with
  | "["%char :: l =>
      let '(g1, l1) := span is_slice_char l in
      match l1 with
      | ":"%char :: l2 =>
          let '(g2, l3) := span is_slice_char l2 in
          match l3 with
          | "]"%char :: _ => Some (g1, g2)
          | _ => None
          end
      | _ => None
      end
  | _ => None
  end.

(** [int(s)] on a string of digits and minus signs: one optional sign and
    at least one digit, anything else is a [ValueError]. *)
Definition int_of (s : list ascii) : result Z :=
  match s with
  | "-"%char :: ds =>
      if is_digits ds then Ok (- digits_val ds)%Z else Raise ValueError
  | _ => if is_digits s then Ok (digits_val s) else Raise ValueError
  end.

(** The [while] loop of [find_indexes]; [fuel] bounds the number of
    rounds, and [None] says that the loop has not ended within them. *)
Fixpoint find_loop (fuel : nat) (text word : list ascii) (index : option nat)
  : option (list (Z * Z)) :=
  match index with
  | None => Some []
  | Some i =>
      match fuel with
      | O => None
      | S fuel' =>
          match find_loop fuel' text word
                  (str_find text word (i + length word)) with
          | Some indexes =>
              Some ((Z.of_nat i, Z.of_nat (i + length word)) :: indexes)
          | None => None
          end
      end
  end.

(** [Text.find_indexes] (text_mobject.py, lines 255-269). *)
Definition find_indexes (fuel : nat) (text word : list ascii)
  : option (result (list (Z * Z))) :=
  match match_slice word with
  | Some (g1, g2) =>
      Some (start ← (match g1 with [] => Ok 0%Z | _ => int_of g1 end);
            end_ ← (match g2 with
                    | [] => Ok (Z.of_nat (length text))
                    | _ => int_of g2
                    end);
            let start :=
              if (start <? 0)%Z then (Z.of_nat (length text) + start)%Z
              else start in
            let end_ :=
              if (end_ <? 0)%Z then (Z.of_nat (length text) + end_)%Z
              else end_ in
            Ok [(start, end_)])
  | None =>
      match find_loop fuel text word (str_find text word 0) with
      | Some indexes => Some (Ok indexes)
      | None => None
      end
  end.

(** [word] stands in [text] at index [i]. *)
Definition occurs_at (text word : list ascii) (i : nat) : Prop :=
  take (length word) (drop i text) = word.

(** The pair that [find_indexes] records for an occurrence at [i]. *)
Definition index_pair (word : list ascii) (i : nat) : Z * Z :=
  (Z.of_nat i, Z.of_nat (i + length word)).
(* ================================================================= *)
(** ** Proof automation *)

(** Closed equations between computed values are decided by evaluation. *)
Ltac by_evaluation :=
  match goal with
  | |- ?G => apply (bool_decide_eq_true_1 G); vm_compute; reflexivity
  end.

(** Tests on a known command letter are replaced by their values. *)
Ltac eval_letter_tests :=
  repeat match goal with
    | |- context [ascii_eqb ?a ?b] =>
        let v := eval vm_compute in (ascii_eqb a b) in
        progress change (ascii_eqb a b) with v
    | |- context [isupper ?a] =>
        let v := eval vm_compute in (isupper a) in
        progress change (isupper a) with v
    | |- context [islower ?a] =>
        let v := eval vm_compute in (islower a) in
        progress change (islower a) with v
    end.

(* ================================================================= *)
(** * Properties *)

(* ----------------------------------------------------------------- *)
(** ** Two paths of the specification, compiled *)

(** A closed triangle: one closed subpath of three segments that ends
    where it starts, its Y coordinates negated. *)
Example compile_closed_triangle subdivide without_null :
  compile_path (VP := geometry_points subdivide without_null)
    recursion_limit CONFIG "M0,0 L10,0 L10,10 Z" []
  = Ok [Subpath (pt 0 0)
          [LineTo (pt 10 0); LineTo (pt 10 (-10)); LineTo (pt 0 0)] true].
Proof. by_evaluation. Qed.

(** Relative commands accumulate from the current point. *)
Example relative_commands_accumulate :
  run_path recursion_limit "m0,0 l10,0 l0,10"
  = run_path recursion_limit "M0,0 L10,0 L10,10".
Proof. by_evaluation. Qed.

(* ----------------------------------------------------------------- *)
(** ** Horizontal and vertical line commands *)

Lemma string_to_points_H (rp : point) (s : string) :
  string_to_points rp "H" s
  = map (fun v => Point v (py rp) 0%Qc) <$> string_to_numbers s.
Proof.
  unfold string_to_points.
  destruct (string_to_numbers s) as [numbers|e]; [|reflexivity].
  eval_letter_tests. cbn. f_equal. rewrite !map_map. apply map_ext.
  reflexivity.
Qed.

Lemma string_to_points_V (rp : point) (s : string) :
  string_to_points rp "V" s
  = map (fun v => Point (px rp) v 0%Qc) <$> string_to_numbers s.
Proof.
  unfold string_to_points.
  destruct (string_to_numbers s) as [numbers|e]; [|reflexivity].
  eval_letter_tests. cbn. f_equal. rewrite !map_map. apply map_ext.
  reflexivity.
Qed.

Lemma string_to_points_h (rp : point) (s : string) :
  string_to_points rp "h" s
  = map (fun v => Point v 0%Qc 0%Qc) <$> string_to_numbers s.
Proof.
  unfold string_to_points.
  destruct (string_to_numbers s) as [numbers|e]; [|reflexivity].
  eval_letter_tests. cbn. f_equal. rewrite !map_map. apply map_ext.
  reflexivity.
Qed.

Lemma string_to_points_v (rp : point) (s : string) :
  string_to_points rp "v" s
  = map (fun v => Point 0%Qc v 0%Qc) <$> string_to_numbers s.
Proof.
  unfold string_to_points.
  destruct (string_to_numbers s) as [numbers|e]; [|reflexivity].
  eval_letter_tests. cbn. f_equal. rewrite !map_map. apply map_ext.
  reflexivity.
Qed.

(** C1 (as the code has it).  [H] and [V] give one axis.  In the absolute
    form the other axis of every point is copied from the current point;
    in the relative form it is zero in the offset that [string_to_points]
    returns, and [handle_command] then adds the current point to the whole
    offset.  So the commands of "M5,5 H20" end at (20, 5) and those of
    "m5,5 h20" end at (25, 5), in the coordinates of the path string (the
    Y flip that ends a compile turns them into (20, -5) and (25, -5)). *)
Theorem C1_hv_omitted_axis :
  (forall rp s,
      string_to_points rp "H" s
      = map (fun v => Point v (py rp) 0%Qc) <$> string_to_numbers s
      /\ string_to_points rp "V" s
         = map (fun v => Point (px rp) v 0%Qc) <$> string_to_numbers s
      /\ string_to_points rp "h" s
         = map (fun v => Point v 0%Qc 0%Qc) <$> string_to_numbers s
      /\ string_to_points rp "v" s
         = map (fun v => Point 0%Qc v 0%Qc) <$> string_to_numbers s)
  /\ (forall k, path_endpoint (S k) "M5,5 H20" = Ok (pt 20 5))
  /\ (forall k, path_endpoint (S k) "m5,5 h20" = Ok (pt 25 5))
  /\ stretch_point (-1)%Qc 1 ORIGIN (pt 20 5) = pt 20 (-5)
  /\ stretch_point (-1)%Qc 1 ORIGIN (pt 25 5) = pt 25 (-5).
Proof.
  split; [|split; [|split; [|split]]].
  - intros rp s.
    auto using string_to_points_H, string_to_points_V, string_to_points_h,
      string_to_points_v.
  - intros k. by_evaluation.
  - intros k. by_evaluation.
  - by_evaluation.
  - by_evaluation.
Qed.

(** C1, the claim as stated fails: the commands of "m5,5 h20" end at
    (25, 5), not at (25, 0), before the Y flip and at (25, -5) after it. *)
Lemma C1_relative_h_counterexample :
  path_endpoint recursion_limit "m5,5 h20" = Ok (pt 25 5)
  /\ path_endpoint recursion_limit "m5,5 h20" <> Ok (pt 25 0)
  /\ stretch_point (-1)%Qc 1 ORIGIN (pt 25 5) <> pt 25 0.
Proof. split; [|split]; by_evaluation. Qed.

(* ----------------------------------------------------------------- *)
(** ** Implicit repetition of a command *)



Section Repetition.

Context {M : Type} {VM : VMobject M}.

Variables (fuel : nat) (c : ascii) (f : method) (n : nat).
Variables (args rest : list point) (self : path_state M).
Hypothesis Hcmd : command_to_function c = Ok (f, n).
Hypothesis Hargs : length args = n.
Hypothesis Hrest : rest <> [].




End Repetition.




(* ----------------------------------------------------------------- *)
(** ** The elliptical arc command *)

Lemma upper_A_is_command (c : ascii) :
  upper c = "A"%char -> is_command c = true.
Proof.
  destruct c as [[|] [|] [|] [|] [|] [|] [|] [|]]; vm_compute;
    first [reflexivity | discriminate].
Qed.

(** A path string in which [A] or [a] occurs has an arc among its commands;
    [pre] are the commands before the first one. *)
Lemma commands_of_arc_string (l : list ascii) :
  "A"%char ∈ l \/ "a"%char ∈ l ->
  exists pre c cs post,
    snd (scan_commands l) = pre ++ (c, cs) :: post
    /\ upper c = "A"%char
    /\ Forall (fun cc => upper (fst cc) <> "A"%char) pre.
Proof.
  induction l as [|x l IH]; intros Hin.
  - destruct Hin as [Hin|Hin]; inversion Hin.
  - cbn [scan_commands]. destruct (scan_commands l) as [head rest] eqn:Hscan.
    cbn [snd] in IH.
    destruct (decide (upper x = "A"%char)) as [Hx|Hx].
    + rewrite (upper_A_is_command x Hx).
      exists [], x, (str head), rest. cbn. auto.
    + assert ("A"%char ∈ l \/ "a"%char ∈ l) as Hl.
      { destruct Hin as [Hin|Hin]; apply elem_of_cons in Hin as [Hin|Hin];
          auto; exfalso; apply Hx; rewrite <- Hin; reflexivity. }
      destruct (IH Hl) as (pre & c & cs & post & Heq & Hc & Hpre).
      destruct (is_command x).
      * exists ((x, str head) :: pre), c, cs, post. cbn [snd].
        rewrite Heq. repeat split; auto.
      * exists pre, c, cs, post. cbn [snd]. auto.
Qed.

Lemma string_to_points_arc (rp : point) (c : ascii) (cs : string) :
  upper c = "A"%char ->
  string_to_points rp c cs = (_ ← string_to_numbers cs; Raise NotImplemented).
Proof.
  intros Hc. unfold string_to_points. rewrite Hc. eval_letter_tests.
  destruct (string_to_numbers cs); reflexivity.
Qed.

Section RunCommands.

Context {M : Type} {VM : VMobject M}.

Lemma run_commands_app (fuel : nat) (pre post : list (ascii * string))
    (self : path_state M) :
  run_commands fuel (pre ++ post) self
  = self1 ← run_commands fuel pre self; run_commands fuel post self1.
Proof.
  revert self. induction pre as [|[c cs] pre IH]; intros self; [reflexivity|].
  cbn [run_commands app].
  destruct (string_to_points (relative_point self) c cs) as [pts|e];
    [cbn|reflexivity].
  destruct (handle_command fuel c pts self) as [self'|e]; [cbn|reflexivity].
  apply IH.
Qed.

(** The loop stops at an arc: with whatever the commands before it raise,
    else with the [ValueError] of its own numbers, else with "Not
    implemented". *)
Lemma run_commands_arc (fuel : nat) (pre post : list (ascii * string))
    (c : ascii) (cs : string) (self : path_state M) :
  upper c = "A"%char ->
  run_commands fuel (pre ++ (c, cs) :: post) self
  = self1 ← run_commands fuel pre self;
    _ ← string_to_numbers cs; Raise NotImplemented.
Proof.
  intros Hc. rewrite run_commands_app.
  destruct (run_commands fuel pre self) as [self1|e]; [|reflexivity].
  cbn [mbind result_bind run_commands].
  rewrite string_to_points_arc by exact Hc.
  destruct (string_to_numbers cs); reflexivity.
Qed.

End RunCommands.

Lemma raise_bind_absorb {A B C D} (r1 : result A) (r2 : A -> result B)
    (e : exn) (k : C -> result D) :
  (y ← (x ← r1; _ ← r2 x; Raise e); k y) = (x ← r1; _ ← r2 x; Raise e).
Proof. destruct r1 as [a|]; cbn; [destruct (r2 a)|]; reflexivity. Qed.

Lemma bind_raise_not_ok {A B C} (r1 : result A) (r2 : A -> result B)
    (e : exn) :
  is_ok (x ← r1; _ ← r2 x; @Raise C e) = false.
Proof. destruct r1 as [a|]; cbn; [destruct (r2 a)|]; reflexivity. Qed.

(** C3 (as the code has it).  A path string in which [A] or [a] occurs is
    never compiled when the cache misses: [init_points] raises, and returns
    no geometry.  What it raises is the exception of the first command
    that fails: the one a command before the first arc raises, else the
    [ValueError] of the arc's own numbers, else "Not implemented". *)
Theorem C3_arc_never_compiles {M P : Type} {VM : VMobject M}
    {VP : VMobjectPoints M P}
    (sha256_hexdigest : string -> string) (get_mobject_data_dir : string)
    (fuel : nat) (cfg : config) (path_string : string) (m : M)
    (fs : filesys P) :
  "A"%char ∈ chars path_string \/ "a"%char ∈ chars path_string ->
  cache_hit sha256_hexdigest get_mobject_data_dir fs path_string = false ->
  exists pre c cs post,
    get_commands_and_coord_strings path_string = pre ++ (c, cs) :: post
    /\ upper c = "A"%char
    /\ Forall (fun cc => upper (fst cc) <> "A"%char) pre
    /\ init_points sha256_hexdigest get_mobject_data_dir fuel cfg
         path_string m fs
       = (self1 ← run_commands fuel pre (PathState m ORIGIN);
          _ ← string_to_numbers cs; Raise NotImplemented)
    /\ is_ok (init_points sha256_hexdigest get_mobject_data_dir fuel cfg
                path_string m fs) = false.
Proof.
  intros Hin Hmiss.
  destruct (commands_of_arc_string _ Hin) as (pre & c & cs & post & Heq & Hc & Hpre).
  exists pre, c, cs, post.
  assert (init_points sha256_hexdigest get_mobject_data_dir fuel cfg
            path_string m fs
          = (self1 ← run_commands fuel pre (PathState m ORIGIN);
             _ ← string_to_numbers cs; Raise NotImplemented)) as Hinit.
  { unfold init_points. rewrite Hmiss. unfold compile_path.
    unfold get_commands_and_coord_strings. rewrite Heq.
    rewrite run_commands_arc by exact Hc.
    rewrite !raise_bind_absorb. reflexivity. }
  repeat split; auto.
  rewrite Hinit. apply bind_raise_not_ok.
Qed.

(** The theorem at work: an arc after a move, on subpaths, with an empty
    data directory. *)
Lemma C3_arc_never_compiles_witness :
  is_ok (init_points (VP := geometry_points (fun g => g) (fun g => g))
           (fun s => s) "data" recursion_limit CONFIG
           "M0,0 A5,5 0 0 1 10,10" [] (FileSys ∅ true)) = false.
Proof.
  destruct (C3_arc_never_compiles
              (VP := geometry_points (fun g => g) (fun g => g))
              (fun s => s) "data" recursion_limit CONFIG
              "M0,0 A5,5 0 0 1 10,10" [] (FileSys ∅ true))
    as (pre & c & cs & post & _ & _ & _ & _ & Hfails).
  - left. apply (bool_decide_eq_true_1 _). vm_compute. reflexivity.
  - reflexivity.
  - exact Hfails.
Defined.

(** C3, the claim as stated fails: a path string with an arc can fail
    with another exception than "Not implemented".  Here the move before
    the arc has a single number, which cannot be reshaped into pairs, and
    in the second string a [Z] is followed by numbers. *)
Lemma C3_arc_other_exception_counterexample :
  run_path recursion_limit "M1 A5,5 0 0 1 10,10" = Raise ValueError
  /\ run_path recursion_limit "M0,0 Z1,1 A5,5 0 0 1 10,10"
     = Raise RecursionError
  /\ run_path recursion_limit "M0,0 A5,5 0 0 1 10,10" = Raise NotImplemented.
Proof. split; [|split]; by_evaluation. Qed.

(* ----------------------------------------------------------------- *)
(** ** Termination of the leftover recursion *)

(** Every command but [Z] takes at least one point per call. *)
Lemma arity_positive (c : ascii) (f : method) (n : nat) :
  command_to_function c = Ok (f, n) ->
  ascii_eqb (upper c) "Z" = false -> 1 <= n.
Proof.
  destruct c as [[|] [|] [|] [|] [|] [|] [|] [|]]; vm_compute;
    intros Hc HZ; first [discriminate | injection Hc as _ <-; lia].
Qed.

Lemma restart_letter_not_Z (c : ascii) :
  ascii_eqb (upper c) "Z" = false ->
  ascii_eqb (upper (if ascii_eqb (upper c) "M" then "l"%char else c)) "Z"
  = false.
Proof. intros HZ. destruct (ascii_eqb (upper c) "M"); [reflexivity|exact HZ]. Qed.

Lemma reshape_pairs_length (l : list number) (xy : list (number * number)) :
  reshape_pairs l = Ok xy -> length xy <= length l.
Proof.
  revert xy. induction l as [l IH] using (induction_ltof1 _ (@length _)).
  unfold ltof in IH. intros xy.
  destruct l as [|a [|b rest]]; cbn.
  - intros [= <-]. cbn. lia.
  - discriminate.
  - destruct (reshape_pairs rest) as [xy'|e] eqn:Hrest; cbn; [|discriminate].
    intros [= <-]. cbn. specialize (IH rest ltac:(cbn; lia) xy' Hrest). lia.
Qed.

(** [string_to_points] returns at most one point per number. *)
Lemma string_to_points_length (rp : point) (c : ascii) (cs : string)
    (numbers : list number) (pts : list point) :
  string_to_numbers cs = Ok numbers ->
  string_to_points rp c cs = Ok pts ->
  length pts <= length numbers.
Proof.
  intros Hn. unfold string_to_points. rewrite Hn.
  cbn [mbind result_bind].
  destruct (ascii_eqb (upper c) "H" || ascii_eqb (upper c) "V").
  - cbn [mbind result_bind]. intros [= <-].
    destruct (isupper c); rewrite !length_map; lia.
  - destruct (ascii_eqb (upper c) "A"); [discriminate|].
    destruct (reshape_pairs numbers) as [xy|e] eqn:Hxy; [|discriminate].
    cbn [mbind result_bind]. intros [= <-]. rewrite length_map.
    eapply reshape_pairs_length; eauto.
Qed.

(** A [Z] or [z] without numbers has no points. *)
Lemma string_to_points_close (rp : point) (c : ascii) (cs : string) :
  ascii_eqb (upper c) "Z" = true ->
  string_to_numbers cs = Ok [] ->
  string_to_points rp c cs = Ok [].
Proof.
  intros HZ Hn. apply Ascii.eqb_eq in HZ.
  unfold string_to_points. rewrite Hn, HZ. reflexivity.
Qed.

Section Termination.

Context {M : Type} {VM : VMobject M}.

(** Above the number of points the result no longer depends on the
    depth the stack allows. *)
Lemma handle_command_fuel_stable (fuel1 fuel2 : nat) (c : ascii)
    (pts : list point) (self : path_state M) :
  ascii_eqb (upper c) "Z" = false ->
  length pts < fuel1 -> length pts < fuel2 ->
  handle_command fuel1 c pts self = handle_command fuel2 c pts self.
Proof.
  revert fuel2 c pts self.
  induction fuel1 as [|fuel1 IH]; intros fuel2 c pts self HZ H1 H2; [lia|].
  destruct fuel2 as [|fuel2]; [lia|].
  cbn [handle_command].
  set (np := if islower c then _ else pts).
  assert (length np = length pts) as Hnp.
  { subst np. destruct (islower c); [apply length_map|reflexivity]. }
  destruct (command_to_function c) as [[f n]|e] eqn:Hc; [|reflexivity].
  cbn [mbind result_bind].
  pose proof (arity_positive c f n Hc HZ) as Hn.
  destruct (call f (take n np) (mob self)) as [m|e]; [|reflexivity].
  cbn [mbind result_bind].
  destruct (0 <? length (drop n np))%nat eqn:Hleft; [|reflexivity].
  apply Nat.ltb_lt in Hleft. rewrite length_drop in Hleft.
  pose proof (restart_letter_not_Z c HZ) as HZ'.
  destruct (islower (if ascii_eqb (upper c) "M" then "l"%char else c)).
  - destruct (get_last_point m) as [last|e]; [|reflexivity].
    cbn [mbind result_bind].
    apply IH; [exact HZ'| |]; rewrite length_map, length_drop; lia.
  - apply IH; [exact HZ'| |]; rewrite length_drop; lia.
Qed.

Hypothesis call_total :
  forall f args (m : M), call f args m <> Raise RecursionError.
Hypothesis get_last_point_total :
  forall m : M, get_last_point m <> Raise RecursionError.

(** And it is not the exhaustion of the stack. *)
Lemma handle_command_no_overflow (fuel : nat) (c : ascii)
    (pts : list point) (self : path_state M) :
  ascii_eqb (upper c) "Z" = false ->
  length pts < fuel ->
  handle_command fuel c pts self <> Raise RecursionError.
Proof.
  revert c pts self.
  induction fuel as [|fuel IH]; intros c pts self HZ Hlen; [lia|].
  cbn [handle_command].
  set (np := if islower c then _ else pts).
  assert (length np = length pts) as Hnp.
  { subst np. destruct (islower c); [apply length_map|reflexivity]. }
  destruct (command_to_function c) as [[f n]|e] eqn:Hc.
  2:{ revert Hc. unfold command_to_function.
      generalize (upper c). intros u.
      destruct u as [[|] [|] [|] [|] [|] [|] [|] [|]]; vm_compute;
        intros [= <-]; discriminate. }
  cbn [mbind result_bind].
  pose proof (arity_positive c f n Hc HZ) as Hn.
  destruct (call f (take n np) (mob self)) as [m|e] eqn:Hcall.
  2:{ cbn [mbind result_bind]. intros [= ->]. eapply call_total; eauto. }
  cbn [mbind result_bind].
  pose proof (get_last_point_total m) as Hlast.
  destruct (0 <? length (drop n np))%nat eqn:Hleft.
  - apply Nat.ltb_lt in Hleft. rewrite length_drop in Hleft.
    pose proof (restart_letter_not_Z c HZ) as HZ'.
    destruct (islower (if ascii_eqb (upper c) "M" then "l"%char else c)).
    + destruct (get_last_point m) as [last|e].
      * cbn [mbind result_bind].
        apply IH; [exact HZ'|]. rewrite length_map, length_drop. lia.
      * cbn [mbind result_bind]. congruence.
    + apply IH; [exact HZ'|]. rewrite length_drop. lia.
  - destruct (get_last_point m) as [last|e]; cbn [mbind result_bind];
      congruence.
Qed.

(** A [Z] without points is one call. *)
Lemma handle_command_close (fuel : nat) (c : ascii) (self : path_state M) :
  ascii_eqb (upper c) "Z" = true ->
  handle_command (S fuel) c [] self
  = m ← close_path (mob self); last ← get_last_point m;
    Ok (PathState m last).
Proof.
  intros HZ. apply Ascii.eqb_eq in HZ.
  cbn [handle_command]. unfold command_to_function. rewrite HZ.
  destruct (islower c); reflexivity.
Qed.

(** The commands of a path in which no point follows a [Z]: from some
    depth on, the loop gives the same result whatever the depth, and the
    result is not the exhaustion of the stack. *)
Lemma run_commands_terminates (cmds : list (ascii * string)) :
  Forall (fun cc => ascii_eqb (upper (fst cc)) "Z" = true ->
                    forall rp pts,
                      string_to_points rp (fst cc) (snd cc) = Ok pts ->
                      pts = []) cmds ->
  exists N, forall fuel (self : path_state M), N <= fuel ->
    run_commands fuel cmds self = run_commands N cmds self
    /\ run_commands fuel cmds self <> Raise RecursionError.
Proof.
  induction 1 as [|[c cs] cmds Hc _ [N IH]].
  - exists 0. intros fuel self _. cbn. split; [reflexivity|discriminate].
  - cbn [fst snd] in Hc.
    set (k := match string_to_numbers cs with
              | Ok numbers => length numbers
              | Raise _ => 0
              end).
    exists (N `max` S k). intros fuel self Hfuel.
    cbn [run_commands].
    destruct (string_to_points (relative_point self) c cs) as [pts|e] eqn:Hpts.
    2:{ cbn [mbind result_bind]. split; [reflexivity|].
        intros [= ->]. revert Hpts. unfold string_to_points.
        destruct (string_to_numbers cs) as [numbers|e] eqn:Hn.
        - cbn [mbind result_bind].
          destruct (ascii_eqb (upper c) "H" || ascii_eqb (upper c) "V");
            [discriminate|].
          destruct (ascii_eqb (upper c) "A"); [discriminate|].
          destruct (reshape_pairs numbers) as [xy|e] eqn:Hxy; [discriminate|].
          cbn [mbind result_bind]. intros [= ->].
          clear -Hxy. revert Hxy.
          induction numbers as [l IHl] using (induction_ltof1 _ (@length _)).
          destruct l as [|a [|b rest]]; cbn; try discriminate.
          destruct (reshape_pairs rest) eqn:Hr; cbn; [discriminate|].
          intros [= ->]. eapply (IHl rest); [unfold ltof; cbn; lia|eauto].
        - cbn [mbind result_bind]. intros [= ->].
          revert Hn. unfold string_to_numbers.
          generalize (filter (λ s : list ascii, s ≠ [])
            (split_on (λ c0 : ascii, ascii_eqb c0 " " || ascii_eqb c0 ",")
               (chars (replace "e,-" "e-" (replace "-" ",-" cs))))).
          intros toks. induction toks as [|t toks IHt]; cbn; [discriminate|].
          destruct (float_of_chars t) as [q|e] eqn:Hq; cbn.
          + destruct (mapM float_of_chars toks); cbn; [discriminate|].
            intros [= ->]. auto.
          + intros [= ->]. revert Hq. unfold float_of_chars.
            destruct (parse_sign (strip t)) as [neg l1].
            destruct (span is_digit l1) as [ip l2].
            destruct (match l2 with
                      | "."%char :: l' => span is_digit l'
                      | _ => ([], l2)
                      end) as [fp l3].
            destruct (ip ++ fp); [discriminate|].
            destruct (parse_exponent l3) as [ex l4].
            destruct l4; discriminate. }
    cbn [mbind result_bind].
    assert (handle_command fuel c pts self
            = handle_command (N `max` S k) c pts self
            /\ handle_command fuel c pts self <> Raise RecursionError)
      as [Heq Hne].
    { destruct (ascii_eqb (upper c) "Z") eqn:HZ.
      - specialize (Hc eq_refl _ _ Hpts). subst pts.
        destruct fuel as [|fuel]; [lia|].
        destruct (N `max` S k) as [|N'] eqn:HN; [lia|].
        rewrite !handle_command_close by exact HZ.
        split; [reflexivity|].
        destruct (close_path (mob self)) as [m|e] eqn:Hclose.
        + cbn [mbind result_bind].
          pose proof (get_last_point_total m).
          destruct (get_last_point m); cbn [mbind result_bind]; congruence.
        + cbn [mbind result_bind]. intros [= ->].
          apply (call_total Close_path [] (mob self)). exact Hclose.
      - assert (length pts <= k) as Hk.
        { subst k. destruct (string_to_numbers cs) as [numbers|e] eqn:Hn.
          - eapply string_to_points_length; eauto.
          - unfold string_to_points in Hpts. rewrite Hn in Hpts.
            discriminate. }
        split.
        + apply handle_command_fuel_stable; [exact HZ|lia|lia].
        + apply handle_command_no_overflow; [exact HZ|lia]. }
    rewrite Heq.
    destruct (handle_command (N `max` S k) c pts self) as [self'|e] eqn:Hh.
    + cbn [mbind result_bind].
      destruct (IH fuel self' ltac:(lia)) as [E1 E2].
      destruct (IH (N `max` S k) self' ltac:(lia)) as [E3 _].
      rewrite E1, E3. split; [reflexivity|]. rewrite <- E1. exact E2.
    + cbn [mbind result_bind]. split; [reflexivity|]. congruence.
Qed.

(** With points after it, a [Z] or [z] never returns: every call leaves
    the points it was given to the next one. *)
Lemma handle_command_close_diverges (fuel : nat) (c : ascii) (p : point)
    (pts : list point) (self : path_state M) :
  ascii_eqb (upper c) "Z" = true ->
  is_ok (handle_command fuel c (p :: pts) self) = false.
Proof.
  intros HZ. revert p pts self.
  induction fuel as [|fuel IH]; intros p pts self; [reflexivity|].
  pose proof HZ as HZ'. apply Ascii.eqb_eq in HZ'.
  cbn [handle_command]. unfold command_to_function. rewrite HZ'.
  change (dict_get get_command_to_function_map "Z")
    with (@Ok (method * nat) (Close_path, 0)).
  change (ascii_eqb "Z" "M") with false. cbn iota.
  destruct (islower c) eqn:Hlow; cbn [mbind result_bind take drop call map].
  - destruct (close_path (mob self)) as [m|e]; [|reflexivity].
    cbn [mbind result_bind length Nat.ltb Nat.leb].
    destruct (get_last_point m) as [last|e]; [|reflexivity].
    cbn [mbind result_bind]. apply IH.
  - destruct (close_path (mob self)) as [m|e]; [|reflexivity].
    cbn [mbind result_bind length Nat.ltb Nat.leb]. apply IH.
Qed.

End Termination.

Lemma geometry_call_total (f : method) (args : list point) (g : geometry) :
  call f args g <> Raise RecursionError.
Proof.
  assert (forall h, on_last_subpath h g <> Raise RecursionError) as Hlast.
  { intros h. unfold on_last_subpath. destruct (rev g); discriminate. }
  destruct f, args as [|p1 [|p2 [|p3 [|p4 args]]]]; cbn;
    first [discriminate | apply Hlast].
Qed.

Lemma geometry_get_last_point_total (g : geometry) :
  get_last_point g <> Raise RecursionError.
Proof. cbn. destruct (last g); discriminate. Qed.

(** On subpaths, once a path has been started, [Z] with points after it
    exhausts any stack. *)
Lemma geometry_close_overflows (fuel : nat) (c : ascii) (p : point)
    (pts : list point) (g : geometry) (sp : subpath) (rp : point) :
  ascii_eqb (upper c) "Z" = true ->
  handle_command fuel c (p :: pts) (PathState (g ++ [sp]) rp)
  = Raise RecursionError.
Proof.
  intros HZ. revert p pts sp rp.
  induction fuel as [|fuel IH]; intros p pts sp rp; [reflexivity|].
  pose proof HZ as HZ'. apply Ascii.eqb_eq in HZ'.
  cbn [handle_command]. unfold command_to_function. rewrite HZ'.
  change (dict_get get_command_to_function_map "Z")
    with (@Ok (method * nat) (Close_path, 0)).
  change (ascii_eqb "Z" "M") with false. cbn iota.
  assert (forall h, on_last_subpath h (g ++ [sp]) = Ok (g ++ [h sp])) as Hlast.
  { intros h. unfold on_last_subpath. rewrite rev_app_distr. cbn.
    rewrite rev_involutive. reflexivity. }
  destruct (islower c) eqn:Hlow;
    cbn [mbind result_bind take drop call map mob relative_point close_path
         geometry_vmobject]; unfold close_subpath; rewrite Hlast;
    cbn [mbind result_bind length Nat.ltb Nat.leb].
  - cbn [get_last_point geometry_vmobject]. rewrite last_snoc.
    cbn [mbind result_bind]. apply IH.
  - apply IH.
Qed.

(** C10 (as the code has it).  Every command but [Z] takes at least one
    point per call, and [Z] takes none.  So for a path string in which no
    point follows a [Z] or [z] (what stands after it is empty, is no list
    of numbers, or is an odd count of numbers, which makes no points) the
    recursion of [handle_command] on the leftover points ends: from some
    depth of the stack on, the result of the command loop is the same
    whatever the depth and is not the exhaustion of the stack (the methods
    of VMobject being assumed not to exhaust it themselves).  With points
    after it a [Z] or [z] never returns, since every call hands as many
    points as it was given to the next; on "M0,0 Z 5,5" the loop exhausts
    every stack.  A single number after the [Z] is no point: it cannot be
    reshaped into pairs, and the loop ends with that error. *)
Theorem C10_leftover_recursion :
  (forall c f n,
      command_to_function c = Ok (f, n) ->
      ascii_eqb (upper c) "Z" = false -> 1 <= n)
  /\ command_to_function "Z" = Ok (Close_path, 0)
  /\ (forall (M : Type) (VM : VMobject M) (path_string : string),
         (forall f args (m : M), call f args m <> Raise RecursionError) ->
         (forall m : M, get_last_point m <> Raise RecursionError) ->
         Forall (fun cc => ascii_eqb (upper (fst cc)) "Z" = true ->
                           forall rp pts,
                             string_to_points rp (fst cc) (snd cc) = Ok pts ->
                             pts = [])
           (get_commands_and_coord_strings path_string) ->
         exists N, forall fuel (self : path_state M), N <= fuel ->
           run_commands fuel (get_commands_and_coord_strings path_string) self
           = run_commands N (get_commands_and_coord_strings path_string) self
           /\ run_commands fuel (get_commands_and_coord_strings path_string)
                self <> Raise RecursionError)
  /\ (forall (M : Type) (VM : VMobject M) fuel c p pts (self : path_state M),
         ascii_eqb (upper c) "Z" = true ->
         is_ok (handle_command fuel c (p :: pts) self) = false)
  /\ (forall fuel, run_path fuel "M0,0 Z 5,5" = Raise RecursionError)
  /\ (forall fuel, run_path (S fuel) "M0,0 Z 5" = Raise ValueError).
Proof.
  split; [|split; [|split; [|split; [|split]]]]; [| | | | |intros fuel; by_evaluation].
  - exact arity_positive.
  - reflexivity.
  - intros M VM path_string Hcall Hlast Hz.
    now apply run_commands_terminates.
  - intros M VM fuel c p pts self HZ.
    now apply handle_command_close_diverges.
  - intros [|fuel]; [reflexivity|].
    unfold run_path.
    change (get_commands_and_coord_strings "M0,0 Z 5,5")
      with [("M"%char, "0,0 "); ("Z"%char, " 5,5")].
    cbn [run_commands relative_point].
    assert (string_to_points ORIGIN "M" "0,0 " = Ok [pt 0 0]) as ->
      by by_evaluation.
    cbn [mbind result_bind].
    assert (handle_command (S fuel) "M" [pt 0 0] (PathState [] ORIGIN)
            = Ok (PathState ([] ++ [Subpath (pt 0 0) [] false]) (pt 0 0)))
      as -> by by_evaluation.
    cbn [mbind result_bind relative_point].
    assert (string_to_points (pt 0 0) "Z" " 5,5" = Ok [pt 5 5]) as ->
      by by_evaluation.
    cbn [mbind result_bind].
    now rewrite geometry_close_overflows.
Qed.

(** The theorem at work on subpaths: the [M] of "M0,0 10,10 20,20 Z" is
    given three points and takes one per call, so [handle_command] calls
    itself twice on what is left over.  With a stack of two calls the loop
    is exhausted, from three calls on its result is the same whatever the
    stack allows. *)
Lemma C10_leftover_recursion_witness :
  (exists N, forall fuel (self : path_state geometry), N <= fuel ->
     run_commands fuel (get_commands_and_coord_strings "M0,0 10,10 20,20 Z")
       self
     = run_commands N (get_commands_and_coord_strings "M0,0 10,10 20,20 Z")
         self
     /\ run_commands fuel
          (get_commands_and_coord_strings "M0,0 10,10 20,20 Z") self
        <> Raise RecursionError)
  /\ run_path 2 "M0,0 10,10 20,20 Z" = Raise RecursionError
  /\ mob <$> run_path 3 "M0,0 10,10 20,20 Z"
     = Ok [Subpath (pt 0 0)
             [LineTo (pt 10 10); LineTo (pt 30 30); LineTo (pt 0 0)] true]
  /\ run_path recursion_limit "M0,0 10,10 20,20 Z"
     = run_path 3 "M0,0 10,10 20,20 Z".
Proof.
  split; [|split; [|split]]; [|by_evaluation..].
  apply (proj1 (proj2 (proj2 C10_leftover_recursion)) geometry _
           "M0,0 10,10 20,20 Z").
  - exact geometry_call_total.
  - exact geometry_get_last_point_total.
  - change (get_commands_and_coord_strings "M0,0 10,10 20,20 Z")
      with [("M"%char, "0,0 10,10 20,20 "); ("Z"%char, "")].
    constructor; [discriminate|]. constructor; [|constructor].
    intros _ rp pts. vm_compute. now intros [= <-].
Defined.

(** C10, the claim as stated fails: numbers that follow a [Z] do not by
    themselves make [handle_command] recurse for ever.  In "M0,0 Z 5" a
    number follows the [Z], and the loop ends with [ValueError] at every
    depth of the stack from one call on; only whole pairs after a [Z] are
    points that it hands on without end. *)
Lemma C10_lone_number_counterexample :
  string_to_numbers " 5" = Ok [num_of_Z 5]
  /\ run_path 1 "M0,0 Z 5" = Raise ValueError
  /\ run_path recursion_limit "M0,0 Z 5" = Raise ValueError
  /\ run_path recursion_limit "M0,0 Z 5,5" = Raise RecursionError.
Proof. split; [|split; [|split]]; by_evaluation. Qed.

(* ----------------------------------------------------------------- *)
(** ** The geometry cache *)

Lemma append_inj_l (p a b : string) : p +:+ a = p +:+ b -> a = b.
Proof. induction p as [|c p IH]; cbn; [auto|]. intros [= Heq]. auto. Qed.

(** Two file names that differ after a common stem stay apart in the same
    directory. *)
Lemma path_join_inj (a h x y : string) :
  path_join a (h +:+ String "_" x) = path_join a (h +:+ String "_" y) ->
  x = y.
Proof.
  unfold path_join.
  assert (forall z,
             match chars (h +:+ String "_" z) with
             | "/"%char :: _ => true
             | _ => false
             end
             = match chars h with "/"%char :: _ => true | _ => false end)
    as Hhead.
  { intros z. destruct h as [|d h]; reflexivity. }
  pose proof (Hhead x) as Hx. pose proof (Hhead y) as Hy.
  assert (forall z : string,
             h +:+ String "_" x = h +:+ String "_" y -> x = y) as Hinj.
  { intros _ Heq. apply append_inj_l in Heq. now injection Heq. }
  destruct (chars (h +:+ String "_" x)) as [|cx lx] eqn:Ex;
    destruct (chars (h +:+ String "_" y)) as [|cy ly] eqn:Ey.
  - destruct h; discriminate.
  - destruct h; discriminate.
  - destruct h; discriminate.
  - destruct (match chars h with "/"%char :: _ => true | _ => false end).
    + assert (cx = "/"%char) as ->.
      { destruct cx as [[|] [|] [|] [|] [|] [|] [|] [|]];
          first [reflexivity | discriminate]. }
      assert (cy = "/"%char) as ->.
      { destruct cy as [[|] [|] [|] [|] [|] [|] [|] [|]];
          first [reflexivity | discriminate]. }
      apply (Hinj "").
    + assert (forall r1 r2 : string,
                 match cx with "/"%char => r1 | _ => r2 end = r2) as Hcx.
      { intros r1 r2.
        destruct cx as [[|] [|] [|] [|] [|] [|] [|] [|]];
          first [reflexivity | discriminate]. }
      assert (forall r1 r2 : string,
                 match cy with "/"%char => r1 | _ => r2 end = r2) as Hcy.
      { intros r1 r2.
        destruct cy as [[|] [|] [|] [|] [|] [|] [|] [|]];
          first [reflexivity | discriminate]. }
      rewrite Hcx, Hcy.
      destruct (rev (chars a)) as [|ca la]; [apply (Hinj "")|].
      destruct (ascii_dec ca "/") as [->|Hca].
      * intros Heq. apply append_inj_l in Heq. now apply (Hinj "").
      * assert (forall r1 r2 : string,
                   match ca with "/"%char => r1 | _ => r2 end = r2) as Hca'.
        { intros r1 r2.
          destruct ca as [[|] [|] [|] [|] [|] [|] [|] [|]];
            first [reflexivity | congruence]. }
        rewrite !Hca'. intros Heq. apply append_inj_l in Heq.
        injection Heq as Heq. now apply (Hinj "").
Qed.

Section CacheProperties.

Context {M P : Type} {VM : VMobject M} {VP : VMobjectPoints M P}.
Variable sha256_hexdigest : string -> string.
Variable get_mobject_data_dir : string.

Abbreviation points_file := (points_filepath sha256_hexdigest get_mobject_data_dir).
Abbreviation tris_file := (tris_filepath sha256_hexdigest get_mobject_data_dir).
Abbreviation hit := (cache_hit sha256_hexdigest get_mobject_data_dir).
Abbreviation init := (init_points sha256_hexdigest get_mobject_data_dir).

Lemma points_file_not_tris_file (s : string) : points_file s <> tris_file s.
Proof.
  unfold points_filepath, tris_filepath. intros Heq.
  apply path_join_inj in Heq. discriminate.
Qed.

Lemma cache_hit_iff (fs : filesys P) (s : string) :
  hit fs s = true
  <-> is_Some (files fs !! points_file s) /\ is_Some (files fs !! tris_file s).
Proof.
  unfold cache_hit, path_exists. rewrite andb_true_iff.
  now rewrite !bool_decide_eq_true.
Qed.

Lemma cache_miss_iff (fs : filesys P) (s : string) :
  hit fs s = false
  <-> files fs !! points_file s = None \/ files fs !! tris_file s = None.
Proof.
  unfold cache_hit, path_exists. rewrite andb_false_iff.
  rewrite !bool_decide_eq_false, <- !eq_None_not_Some. reflexivity.
Qed.


Lemma init_points_miss (fuel : nat) (cfg : config) (s : string) (m : M)
    (fs : filesys P) :
  hit fs s = false ->
  init fuel cfg s m fs
  = m' ← compile_path fuel cfg s m;
    fs' ← np_save fs (points_file s) (get_points m');
    Ok (m', fs').
Proof. intros Hmiss. unfold init_points. now rewrite Hmiss. Qed.

Lemma init_points_corrupt (fuel : nat) (cfg : config) (s : string) (m : M)
    (fs : filesys P) :
  is_Some (files fs !! tris_file s) ->
  files fs !! points_file s = Some Garbage ->
  init fuel cfg s m fs = Raise ValueError.
Proof.
  intros Htris Hfile.
  assert (hit fs s = true) as Hhit.
  { apply cache_hit_iff. rewrite Hfile. eauto. }
  unfold init_points, np_load. now rewrite Hhit, Hfile.
Qed.

Lemma init_points_write_fails (fuel : nat) (cfg : config) (s : string)
    (m m' : M) (fs : filesys P) :
  hit fs s = false ->
  writable fs = false ->
  compile_path fuel cfg s m = Ok m' ->
  init fuel cfg s m fs = Raise IOError.
Proof.
  intros Hmiss Hw Hc. rewrite init_points_miss by exact Hmiss.
  rewrite Hc. unfold np_save. now rewrite Hw.
Qed.



End CacheProperties.



(** C5 (as the code has it).  A missing cache file never prevents the
    recomputation: when either file is absent the path is compiled afresh
    and, when the array can be written, it is returned and stored.  The
    other failures are fatal: an unreadable points file beside an existing
    tris file ends [init_points] with the exception of the load, and a
    failed write ends it with the exception of the write, although the
    geometry had been computed. *)
Theorem C5_cache_failures {M P : Type} {VM : VMobject M}
    {VP : VMobjectPoints M P}
    (sha256_hexdigest : string -> string) (get_mobject_data_dir : string)
    (fuel : nat) (cfg : config) (s : string) (m : M) (fs : filesys P) :
  (files fs !! points_filepath sha256_hexdigest get_mobject_data_dir s = None
   \/ files fs !! tris_filepath sha256_hexdigest get_mobject_data_dir s = None
   -> init_points sha256_hexdigest get_mobject_data_dir fuel cfg s m fs
      = m' ← compile_path fuel cfg s m;
        fs' ← np_save fs
                (points_filepath sha256_hexdigest get_mobject_data_dir s)
                (get_points m');
        Ok (m', fs'))
  /\ (forall m',
         files fs !! points_filepath sha256_hexdigest get_mobject_data_dir s
         = None
         \/ files fs !! tris_filepath sha256_hexdigest get_mobject_data_dir s
            = None ->
         writable fs = true ->
         compile_path fuel cfg s m = Ok m' ->
         init_points sha256_hexdigest get_mobject_data_dir fuel cfg s m fs
         = Ok (m',
               FileSys
                 (<[points_filepath sha256_hexdigest get_mobject_data_dir s
                    := Npy (get_points m')]> (files fs)) true))
  /\ (is_Some (files fs
                 !! tris_filepath sha256_hexdigest get_mobject_data_dir s) ->
      files fs !! points_filepath sha256_hexdigest get_mobject_data_dir s
      = Some Garbage ->
      init_points sha256_hexdigest get_mobject_data_dir fuel cfg s m fs
      = Raise ValueError)
  /\ (forall m',
         files fs !! points_filepath sha256_hexdigest get_mobject_data_dir s
         = None
         \/ files fs !! tris_filepath sha256_hexdigest get_mobject_data_dir s
            = None ->
         writable fs = false ->
         compile_path fuel cfg s m = Ok m' ->
         init_points sha256_hexdigest get_mobject_data_dir fuel cfg s m fs
         = Raise IOError).
Proof.
  split; [|split; [|split]].
  - intros Hmiss. apply init_points_miss. now apply cache_miss_iff.
  - intros m' Hmiss Hw Hc. rewrite init_points_miss by now apply cache_miss_iff.
    rewrite Hc. cbn [mbind result_bind]. unfold np_save. rewrite Hw.
    reflexivity.
  - apply init_points_corrupt.
  - intros m' Hmiss Hw Hc. apply init_points_write_fails with (m' := m'); auto.
    now apply cache_miss_iff.
Qed.

(** The theorem at work on subpaths: a compile into a data directory that
    cannot be written, the path string standing in for its digest. *)
Lemma C5_cache_failures_witness :
  init_points (VP := geometry_points (fun g => g) (fun g => g))
    (fun s => s) "data" recursion_limit CONFIG "M0,0 L10,10" []
    (FileSys ∅ false)
  = Raise IOError.
Proof.
  apply (proj2 (proj2 (proj2
           (C5_cache_failures
              (VP := geometry_points (fun g => g) (fun g => g))
              (fun s => s) "data" recursion_limit CONFIG "M0,0 L10,10" []
              (FileSys ∅ false))))
           [Subpath (pt 0 0) [LineTo (pt 10 (-10))] false]).
  - left. reflexivity.
  - reflexivity.
  - by_evaluation.
Defined.

(** C5, the claim as stated fails.  With a data directory that cannot be
    written, the compile of "M0,0 L10,10" ends with the exception of the
    write although its geometry was computed; with both cache files present
    and the points file unreadable, it ends with the exception of the load
    and nothing is recomputed. *)
Lemma C5_cache_failure_counterexample :
  (forall sha256_hexdigest get_mobject_data_dir subdivide without_null,
      init_points (VP := geometry_points subdivide without_null)
        sha256_hexdigest get_mobject_data_dir recursion_limit CONFIG
        "M0,0 L10,10" [] (FileSys ∅ false)
      = Raise IOError)
  /\ (forall sha256_hexdigest get_mobject_data_dir subdivide without_null,
         init_points (VP := geometry_points subdivide without_null)
           sha256_hexdigest get_mobject_data_dir recursion_limit CONFIG
           "M0,0 L10,10" []
           (FileSys
              {[ points_filepath sha256_hexdigest get_mobject_data_dir
                   "M0,0 L10,10" := Garbage;
                 tris_filepath sha256_hexdigest get_mobject_data_dir
                   "M0,0 L10,10" := Garbage ]} true)
         = Raise ValueError)
  /\ (forall subdivide without_null,
         compile_path (VP := geometry_points subdivide without_null)
           recursion_limit CONFIG "M0,0 L10,10" []
         = Ok [Subpath (pt 0 0) [LineTo (pt 10 (-10))] false]).
Proof.
  assert (forall subdivide without_null,
             compile_path (VP := geometry_points subdivide without_null)
               recursion_limit CONFIG "M0,0 L10,10" []
             = Ok [Subpath (pt 0 0) [LineTo (pt 10 (-10))] false]) as Hc.
  { intros subdivide without_null. by_evaluation. }
  split; [|split].
  - intros sha dir subdivide without_null.
    eapply init_points_write_fails; [|reflexivity|apply Hc].
    apply cache_miss_iff. left. apply lookup_empty.
  - intros sha dir subdivide without_null.
    apply init_points_corrupt.
    + cbn [files]. rewrite lookup_insert_ne by apply points_file_not_tris_file.
      rewrite lookup_singleton_eq. eauto.
    + cbn [files]. apply lookup_insert_eq.
  - exact Hc.
Qed.

(* ----------------------------------------------------------------- *)
(** ** The matrix transform *)

Lemma mobject_family_ind (Q : mobject -> Prop) :
  (forall pts subs, Forall Q subs -> Q (Mobject pts subs)) ->
  forall m, Q m.
Proof.
  intros Hstep. fix IH 1. intros [pts subs]. apply Hstep.
  induction subs as [|sub subs IHsubs]; constructor; [apply IH|exact IHsubs].
Qed.

Lemma map_family_ext (f g : list point -> list point) (m : mobject) :
  (forall pts, f pts = g pts) -> map_family f m = map_family g m.
Proof.
  intros Hfg. induction m as [pts subs IH] using mobject_family_ind.
  cbn. rewrite Hfg. f_equal.
  induction IH as [|sub subs Hsub _ IHsubs]; cbn; [reflexivity|].
  now rewrite Hsub, IHsubs.
Qed.

Lemma map_family_compose (f g : list point -> list point) (m : mobject) :
  map_family g (map_family f m) = map_family (fun pts => g (f pts)) m.
Proof.
  induction m as [pts subs IH] using mobject_family_ind.
  cbn. f_equal. rewrite map_map.
  induction IH as [|sub subs Hsub _ IHsubs]; cbn; [reflexivity|].
  now rewrite Hsub, IHsubs.
Qed.

Lemma family_points_map (f : point -> point) (m : mobject) :
  family_points (map_family (map f) m) = map f (family_points m).
Proof.
  induction m as [pts subs IH] using mobject_family_ind.
  cbn. rewrite map_app. f_equal. rewrite map_map, concat_map, map_map.
  f_equal.
  induction IH as [|sub subs Hsub _ IHsubs]; cbn; [reflexivity|].
  now rewrite Hsub, IHsubs.
Qed.

(** The matrix of [matrix(a b c d e f)]. *)
Lemma transform_matrix_entries (a b c d e f : number) :
  transform_matrix [[a; b]; [c; d]; [e; f]]
  = [[a; (- b)%Qc; 0%Qc]; [(- c)%Qc; d; 0%Qc]; [0%Qc; 0%Qc; 1%Qc]].
Proof.
  unfold transform_matrix, np_identity, assign_block, scale_row, scale_col.
  cbn. repeat (f_equal; try ring).
Qed.

(** A point times that matrix. *)
Lemma np_dot_transform_matrix (a b c d e f : number) (p : point) :
  np_dot [p] (transform_matrix [[a; b]; [c; d]; [e; f]])
  = [Point (a * px p - c * py p)%Qc (- b * px p + d * py p)%Qc (pz p)].
Proof.
  rewrite transform_matrix_entries. destruct p as [x y z].
  unfold np_dot, dot_row, point_of_row, row_of_point, column, sum_numbers.
  cbn. do 2 f_equal; ring.
Qed.

Lemma np_dot_map (pts : list point) (mat : matrix) :
  np_dot pts mat = concat (map (fun p => np_dot [p] mat) pts).
Proof.
  unfold np_dot. induction pts as [|p pts IH]; cbn; [reflexivity|].
  now rewrite IH.
Qed.

Lemma concat_map_nil {A B} (f : A -> list B) (l : list A) :
  concat (map f l) = [] <-> Forall (fun x => f x = []) l.
Proof.
  induction l as [|x l IH]; cbn.
  - split; [constructor|reflexivity].
  - split.
    + intros [Hx Hl]%app_eq_nil. constructor; [exact Hx|now apply IH].
    + intros Hall. inversion Hall as [|? ? Hx Hl]; subst.
      rewrite Hx. now apply IH.
Qed.

(** No member of the family has points exactly when the family has no
    point. *)
Lemma family_members_with_points_nil (m : mobject) :
  family_members_with_points m = [] <-> family_points m = [].
Proof.
  induction m as [pts subs IH] using mobject_family_ind.
  cbn [family_members_with_points family_points].
  rewrite (app_nil pts), concat_map_nil.
  split.
  - intros [Hpts Hsubs]%app_eq_nil. destruct pts; [|discriminate].
    split; [reflexivity|]. apply concat_map_nil in Hsubs.
    rewrite List.Forall_forall in IH, Hsubs |- *.
    intros sub Hin. now apply IH, Hsubs.
  - intros [-> Hsubs]. cbn [app]. apply concat_map_nil.
    rewrite List.Forall_forall in IH, Hsubs |- *.
    intros sub Hin. now apply IH, Hsubs.
Qed.

(** Without points there is nothing for a map over the points to change. *)
Lemma map_family_no_points (f : point -> point) (m : mobject) :
  family_points m = [] -> map_family (map f) m = m.
Proof.
  induction m as [pts subs IH] using mobject_family_ind.
  cbn [family_points map_family].
  intros [-> Hsubs]%app_eq_nil. cbn [map]. f_equal.
  apply concat_map_nil in Hsubs.
  induction IH as [|sub subs Hsub _ IHsubs]; [reflexivity|].
  inversion Hsubs as [|? ? Hhead Htail]; subst.
  cbn [map]. now rewrite Hsub, IHsubs.
Qed.

Lemma apply_transform_matrix_raises (a b c d e f : number) (m : mobject) :
  family_points m <> [] ->
  apply_transform "matrix" [a; b; c; d; e; f] m = Raise AttributeError.
Proof.
  intros Hpoints. unfold apply_transform.
  change (String.eqb "matrix" "matrix") with true. cbn iota.
  cbn [reshape_3_2 mbind result_bind].
  destruct (family_members_with_points m) eqn:Hmembers; [|reflexivity].
  now apply family_members_with_points_nil in Hmembers.
Qed.

Lemma apply_transform_matrix_no_points (a b c d e f : number) (m : mobject) :
  family_points m = [] ->
  apply_transform "matrix" [a; b; c; d; e; f] m = Ok m.
Proof.
  intros Hpoints. unfold apply_transform.
  change (String.eqb "matrix" "matrix") with true. cbn iota.
  cbn [reshape_3_2 mbind result_bind].
  rewrite (proj2 (family_members_with_points_nil m) Hpoints).
  unfold shift. now rewrite map_family_no_points.
Qed.

(** C6 (the code fails the claim).  For [matrix(a b c d e f)] the composer
    builds the matrix the claim describes, with upper left block
    [a, -b; -c, d], and a point (x, y) times that matrix is
    (a*x - c*y, -b*x + d*y).  But the product is never formed: on a
    mobject with a point anywhere in its family the operation raises
    [AttributeError] when it reads [mob.points], and no point is moved; so
    does [handle_transforms], and so does the operation [matrix(1 0 0 1 5 5)]
    on a group that holds one mobject with the point (0,0).  The operation
    returns only on a family without points, which it leaves as it is. *)
Theorem C6_matrix_transform :
  (forall a b c d e f : number,
      transform_matrix [[a; b]; [c; d]; [e; f]]
      = [[a; (- b)%Qc; 0%Qc]; [(- c)%Qc; d; 0%Qc]; [0%Qc; 0%Qc; 1%Qc]])
  /\ (forall (a b c d e f : number) p,
         np_dot [p] (transform_matrix [[a; b]; [c; d]; [e; f]])
         = [Point (a * px p - c * py p)%Qc (- b * px p + d * py p)%Qc (pz p)])
  /\ (forall (a b c d e f : number) m,
         family_points m <> [] ->
         apply_transform "matrix" [a; b; c; d; e; f] m = Raise AttributeError)
  /\ (forall (a b c d e f : number) m element,
         family_points m <> [] ->
         hasAttribute element "x" && hasAttribute element "y" = false ->
         handle_transforms element [("matrix", [a; b; c; d; e; f])] m
         = Raise AttributeError)
  /\ apply_transform "matrix"
       [1%Qc; 0%Qc; 0%Qc; 1%Qc; num_of_Z 5; num_of_Z 5]
       (Mobject [] [Mobject [pt 0 0] []])
     = Raise AttributeError
  /\ (forall (a b c d e f : number) m,
         family_points m = [] ->
         apply_transform "matrix" [a; b; c; d; e; f] m = Ok m).
Proof.
  split; [exact transform_matrix_entries|].
  split; [intros a b c d e f p; apply np_dot_transform_matrix|].
  split; [exact apply_transform_matrix_raises|].
  split; [|split; [|exact apply_transform_matrix_no_points]].
  - intros a b c d e f m element Hpoints Hxy.
    unfold handle_transforms. rewrite Hxy.
    cbn [mbind result_bind foldl].
    now apply apply_transform_matrix_raises.
  - apply apply_transform_matrix_raises. discriminate.
Qed.

(* ----------------------------------------------------------------- *)
(** ** References to definitions *)

(** C7.  When the reference of a [<use>] element is registered, the walker
    is re-entered on the registered element with the style of the
    definition merged over the style of the use site: on every key the
    definition has, the merged style has the value of the definition, and
    on the others the value of the use site.  A definition with fill red,
    used where fill is blue, is walked with fill red. *)
Theorem C7_use_style_precedence (VMob : Type)
    (get_mobjects_from :
       node -> style -> svg_state -> result (list VMob * svg_state))
    (use_element : node) (local_style : style) (self : svg_state)
    (def_style : style) (def_element : node) :
  def_map self !! str_drop 1 (getAttribute use_element "xlink:href")
  = Some (def_style, def_element) ->
  exists merged : style,
    use_to_mobjects VMob get_mobjects_from use_element local_style self
    = get_mobjects_from def_element merged self
    /\ (forall k v, def_style !! k = Some v -> merged !! k = Some v)
    /\ (forall k, def_style !! k = None -> merged !! k = local_style !! k)
    /\ (def_style !! "fill" = Some "red" ->
        local_style !! "fill" = Some "blue" ->
        merged !! "fill" = Some "red").
Proof.
  intros Hdef. exists (def_style ∪ local_style).
  split; [|split; [|split]].
  - unfold use_to_mobjects. now rewrite Hdef.
  - intros k v Hk. now apply lookup_union_Some_l.
  - intros k Hk. now apply lookup_union_r.
  - intros Hred _. now apply lookup_union_Some_l.
Qed.

(** The theorem at work: a path defined with fill red and used with fill
    blue; the walker stands for one that returns the style it is given. *)
Lemma C7_use_style_precedence_witness :
  exists merged : style,
    use_to_mobjects style (fun _ st self => Ok ([st], self))
      (Element "use" {[ "xlink:href" := "#p"; "fill" := "blue" ]} [])
      {[ "fill" := "blue" ]}
      (SvgState "pic.svg"
         {[ "p" := ({[ "fill" := "red" ]},
                    Element "path" {[ "id" := "p"; "d" := "M0,0 L1,1";
                                      "fill" := "red" ]} []) ]}
         [])
    = Ok ([merged],
          SvgState "pic.svg"
            {[ "p" := ({[ "fill" := "red" ]},
                       Element "path" {[ "id" := "p"; "d" := "M0,0 L1,1";
                                         "fill" := "red" ]} []) ]}
            [])
    /\ merged !! "fill" = Some "red".
Proof.
  destruct (C7_use_style_precedence style (fun _ st self => Ok ([st], self))
              (Element "use" {[ "xlink:href" := "#p"; "fill" := "blue" ]} [])
              {[ "fill" := "blue" ]}
              (SvgState "pic.svg"
                 {[ "p" := ({[ "fill" := "red" ]},
                            Element "path"
                              {[ "id" := "p"; "d" := "M0,0 L1,1";
                                 "fill" := "red" ]} []) ]}
                 [])
              {[ "fill" := "red" ]}
              (Element "path" {[ "id" := "p"; "d" := "M0,0 L1,1";
                                 "fill" := "red" ]} []))
    as (merged & Huse & _ & _ & Hfill).
  - vm_compute. reflexivity.
  - exists merged. split; [exact Huse|].
    apply Hfill; vm_compute; reflexivity.
Defined.

(** C8.  A [<use>] element whose reference is not registered is not an
    error: one warning is issued, no mobject is returned, the registry is
    left as it was, and the walker is not entered. *)
Theorem C8_use_unknown_reference (VMob : Type)
    (get_mobjects_from :
       node -> style -> svg_state -> result (list VMob * svg_state))
    (use_element : node) (local_style : style) (self : svg_state) :
  def_map self !! str_drop 1 (getAttribute use_element "xlink:href") = None ->
  use_to_mobjects VMob get_mobjects_from use_element local_style self
  = Ok ([],
        SvgState (file_name self) (def_map self)
          (warnings self
           ++ [file_name self +:+ " contains a reference to id #"
               +:+ str_drop 1 (getAttribute use_element "xlink:href")
               +:+ ", which is not recognized"])).
Proof. intros Hdef. unfold use_to_mobjects. now rewrite Hdef. Qed.

(** The theorem at work: a reference to [#missing] in a document without
    definitions; the walker stands for one that always fails. *)
Lemma C8_use_unknown_reference_witness :
  use_to_mobjects mobject (fun _ _ _ => Raise KeyError)
    (Element "use" {[ "xlink:href" := "#missing" ]} []) ∅
    (SvgState "pic.svg" ∅ [])
  = Ok ([],
        SvgState "pic.svg" ∅
          ["pic.svg contains a reference to id #missing, which is not recognized"]).
Proof.
  etransitivity.
  - apply (C8_use_unknown_reference mobject (fun _ _ _ => Raise KeyError)
             (Element "use" {[ "xlink:href" := "#missing" ]} []) ∅
             (SvgState "pic.svg" ∅ [])).
    vm_compute. reflexivity.
  - vm_compute. reflexivity.
Defined.

(* ----------------------------------------------------------------- *)
(** ** Numeric attributes *)

Lemma chars_append (s1 s2 : string) : chars (s1 +:+ s2) = chars s1 ++ chars s2.
Proof.
  unfold chars. induction s1 as [|c s1 IH]; [reflexivity|].
  change (String c s1 +:+ s2) with (String c (s1 +:+ s2)).
  cbn. f_equal. exact IH.
Qed.

Lemma chars_str (l : list ascii) : chars (str l) = l.
Proof. apply list_ascii_of_string_of_list_ascii. Qed.

Lemma drop_while_head {A} (p : A -> bool) (l : list A) :
  match l with [] => True | x :: _ => p x = false end -> drop_while p l = l.
Proof. destruct l as [|x l]; cbn; [reflexivity|]. now intros ->. Qed.

Lemma strip_no_space (l : list ascii) :
  Forall (fun c => is_space c = false) l -> strip l = l.
Proof.
  intros Hl. unfold strip.
  rewrite (drop_while_head is_space l) by (destruct Hl; auto).
  rewrite drop_while_head; [apply rev_involutive|].
  assert (Forall (fun c => is_space c = false) (rev l)) as Hrev.
  { apply List.Forall_rev. exact Hl. }
  destruct Hrev; auto.
Qed.

Lemma span_head {A} (p : A -> bool) (l : list A) :
  match l with [] => True | x :: _ => p x = false end -> span p l = ([], l).
Proof. destruct l as [|x l]; cbn; [reflexivity|]. now intros ->. Qed.








(* ================================================================= *)
(** * Further properties *)

(* ----------------------------------------------------------------- *)
(** ** The tokens of a path string *)

Lemma scan_commands_cover (l : list ascii) :
  Forall (fun x => is_command x = false) (fst (scan_commands l))
  /\ l = fst (scan_commands l)
         ++ concat (map (fun cc => fst cc :: chars (snd cc))
                        (snd (scan_commands l)))
  /\ Forall (fun cc => is_command (fst cc) = true
                       /\ Forall (fun x => is_command x = false)
                            (chars (snd cc)))
       (snd (scan_commands l)).
Proof.
  induction l as [|c l (Hhead & Hcover & Hcmds)]; cbn [scan_commands].
  - cbn. auto.
  - destruct (scan_commands l) as [head rest]. cbn [fst snd] in *.
    destruct (is_command c) eqn:Hc; cbn [fst snd map concat app].
    + split; [constructor|]. split.
      * rewrite chars_str. now rewrite <- Hcover.
      * constructor; [|exact Hcmds]. cbn [fst snd]. rewrite chars_str. auto.
    + split; [constructor; auto|]. split; [|exact Hcmds].
      now rewrite <- Hcover.
Qed.

(** X1.  [get_commands_and_coord_strings] loses nothing of a path string
    but what stands before its first command letter: that text, then every
    command letter followed by its coordinate string, spell the path
    string; the commands are command letters and no coordinate string
    holds one. *)
Theorem commands_and_coord_strings_cover (path_string : string) :
  exists head,
    Forall (fun x => is_command x = false) head
    /\ chars path_string
       = head ++ concat (map (fun cc => fst cc :: chars (snd cc))
                             (get_commands_and_coord_strings path_string))
    /\ Forall (fun cc => is_command (fst cc) = true
                         /\ Forall (fun x => is_command x = false)
                              (chars (snd cc)))
         (get_commands_and_coord_strings path_string).
Proof.
  exists (fst (scan_commands (chars path_string))).
  apply scan_commands_cover.
Qed.

(* ----------------------------------------------------------------- *)
(** ** Transform operations *)

Lemma map_family_id (m : mobject) : map_family (fun pts => pts) m = m.
Proof.
  induction m as [pts subs IH] using mobject_family_ind.
  cbn. f_equal.
  induction IH as [|sub subs Hsub _ IHsubs]; cbn; [reflexivity|].
  now rewrite Hsub, IHsubs.
Qed.

Lemma map_family_map_ext (f g : point -> point) (m : mobject) :
  (forall p, f p = g p) -> map_family (map f) m = map_family (map g) m.
Proof. intros Hfg. apply map_family_ext. intros pts. now apply map_ext. Qed.

Lemma map_family_map_id (f : point -> point) (m : mobject) :
  (forall p, f p = p) -> map_family (map f) m = m.
Proof.
  intros Hf. rewrite <- (map_family_id m) at 2. apply map_family_ext.
  intros pts. rewrite <- (map_id pts) at 2. now apply map_ext.
Qed.

Lemma map_family_map_compose (f g : point -> point) (m : mobject) :
  map_family (map g) (map_family (map f) m)
  = map_family (map (fun p => g (f p))) m.
Proof.
  rewrite map_family_compose. apply map_family_ext. intros pts.
  apply map_map.
Qed.

(** What [translate(tx ty)] does to every point. *)
Lemma apply_transform_translate (tx ty : number) (m : mobject) :
  apply_transform "translate" [tx; ty] m
  = Ok (map_family
          (map (fun p => Point (px p + tx)%Qc (py p - ty)%Qc (pz p))) m).
Proof.
  unfold apply_transform.
  change (String.eqb "translate" "matrix") with false.
  change (String.eqb "translate" "scale") with false.
  change (String.eqb "translate" "translate") with true. cbn iota.
  f_equal. unfold shift. apply map_family_map_ext. intros [x y z].
  unfold point_add, point_scale, RIGHT, DOWN. cbn. f_equal; ring.
Qed.

(** X2.  [translate(tx ty)] moves every point of the family by (tx, -ty),
    and with one argument the vertical part is zero. *)
Theorem translate_moves_by_tx_minus_ty (tx ty : number) (m : mobject) :
  apply_transform "translate" [tx; ty] m
  = Ok (map_family
          (map (fun p => Point (px p + tx)%Qc (py p - ty)%Qc (pz p))) m)
  /\ apply_transform "translate" [tx] m
     = apply_transform "translate" [tx; 0%Qc] m.
Proof.
  split; [apply apply_transform_translate|].
  rewrite apply_transform_translate. unfold apply_transform.
  change (String.eqb "translate" "matrix") with false.
  change (String.eqb "translate" "scale") with false.
  change (String.eqb "translate" "translate") with true. cbn iota.
  f_equal. unfold shift. apply map_family_map_ext. intros [x y z].
  unfold point_add, point_scale, DOWN. cbn. f_equal; ring.
Qed.


Lemma handle_transforms_no_position (transforms : list (string * list number))
    (m : mobject) :
  handle_transforms (Text "") transforms m
  = foldl (fun acc '(op_name, op_args) =>
             m ← acc; apply_transform op_name op_args m)
          (Ok m) transforms.
Proof. reflexivity. Qed.


(* ----------------------------------------------------------------- *)
(** ** Relative commands *)

Lemma upper_of_lower (c : ascii) :
  islower c = true -> islower (upper c) = false /\ upper (upper c) = upper c.
Proof.
  destruct c as [[|] [|] [|] [|] [|] [|] [|] [|]]; vm_compute;
    first [discriminate | auto].
Qed.

Lemma absolute_points_length (n i : nat) (cur : point)
    (adjust : point -> point) (offsets : list point) :
  length (absolute_points n i cur adjust offsets) = length offsets.
Proof.
  revert i cur adjust.
  induction offsets as [|d rest IH]; intros i cur adjust; [reflexivity|].
  cbn [absolute_points]. destruct (S i =? n)%nat; cbn [length];
    now rewrite IH.
Qed.

(** The first group of the absolute points, and the rest. *)
Lemma absolute_points_group (n i : nat) (cur : point)
    (adjust : point -> point) (offsets : list point) :
  i < n ->
  absolute_points n i cur adjust offsets
  = map (fun p => point_add (adjust p) cur) (take (n - i) offsets)
    ++ (if (n - i <=? length offsets)%nat
        then absolute_points n 0
               (default cur
                  (last (map (fun p => point_add (adjust p) cur)
                             (take (n - i) offsets))))
               (fun d' => point_sub (point_add (adjust d') cur) cur)
               (drop (n - i) offsets)
        else []).
Proof.
  revert i. induction offsets as [|d rest IH]; intros i Hi.
  - cbn. rewrite take_nil. cbn.
    destruct (n - i <=? 0)%nat eqn:Hle; [|reflexivity].
    apply Nat.leb_le in Hle. lia.
  - cbn [absolute_points]. destruct (S i =? n)%nat eqn:Hn.
    + apply Nat.eqb_eq in Hn. replace (n - i) with 1 by lia.
      reflexivity.
    + apply Nat.eqb_neq in Hn. rewrite IH by lia.
      replace (n - i) with (S (n - S i)) by lia.
      cbn [take map app drop length].
      change (S (n - S i) <=? S (length rest))%nat
        with (n - S i <=? length rest)%nat.
      f_equal. f_equal.
      destruct (n - S i <=? length rest)%nat eqn:Hle; [|reflexivity].
      apply Nat.leb_le in Hle.
      destruct (take (n - S i) rest) as [|t ts] eqn:Htake.
      * apply (f_equal (@length _)) in Htake.
        rewrite length_take in Htake. cbn in Htake. lia.
      * reflexivity.
Qed.

Section RelativeCommands.

Context {M : Type} {VM : VMobject M}.

(** An absolute command other than [M] does not read the relative point. *)
Lemma handle_command_upper_relative_point (fuel : nat) (c : ascii)
    (pts : list point) (m : M) (rp1 rp2 : point) :
  islower c = false -> ascii_eqb (upper c) "M" = false ->
  handle_command fuel c pts (PathState m rp1)
  = handle_command fuel c pts (PathState m rp2).
Proof.
  intros Hlow HM. revert pts m.
  induction fuel as [|fuel IH]; intros pts m; [reflexivity|].
  cbn [handle_command]. rewrite Hlow. cbn [mob relative_point].
  destruct (command_to_function c) as [[f n]|e]; [|reflexivity].
  cbn [mbind result_bind].
  destruct (call f (take n pts) m) as [m'|e]; [|reflexivity].
  cbn [mbind result_bind]. rewrite HM, Hlow.
  destruct (0 <? length (drop n pts))%nat; [apply IH|reflexivity].
Qed.

(** The methods that draw leave the last of their points as the last
    point of the mobject. *)
Hypothesis last_point_drawn :
  forall f args (m m' : M) p,
    call f args m = Ok m' -> last args = Some p -> get_last_point m' = Ok p.

Lemma handle_command_relative (fuel : nat) (c : ascii) (f : method) (n : nat)
    (adjust : point -> point) (offsets : list point) (self : path_state M) :
  islower c = true -> ascii_eqb (upper c) "M" = false ->
  command_to_function c = Ok (f, n) -> 1 <= n ->
  handle_command fuel c (map adjust offsets) self
  = handle_command fuel (upper c)
      (absolute_points n 0 (relative_point self) adjust offsets) self.
Proof.
  intros Hlow HM Hc Hn.
  destruct (upper_of_lower c Hlow) as [Hup Hupup].
  assert (command_to_function (upper c) = Ok (f, n)) as Hc'.
  { unfold command_to_function in *. now rewrite Hupup. }
  revert adjust offsets self.
  induction fuel as [|fuel IH]; intros adjust offsets [m rp]; [reflexivity|].
  cbn [handle_command relative_point mob].
  rewrite Hlow, Hup, Hc, Hc'. cbn [mbind result_bind].
  rewrite Hupup, HM, Hlow, Hup.
  rewrite (absolute_points_group n 0 rp adjust offsets) by lia.
  rewrite Nat.sub_0_r. rewrite (map_map adjust).
  set (add := fun p => point_add (adjust p) rp).
  destruct (n <=? length offsets)%nat eqn:Hlen.
  - apply Nat.leb_le in Hlen.
    rewrite take_app_length', drop_app_length'
      by (rewrite length_map, length_take; lia).
    rewrite firstn_map, skipn_map.
    destruct (call f (map add (take n offsets)) m) as [m'|e] eqn:Hcall;
      [|reflexivity].
    cbn [mbind result_bind].
    rewrite absolute_points_length, length_map.
    destruct (0 <? length (drop n offsets))%nat eqn:Hleft.
    + destruct (last (map add (take n offsets))) as [p|] eqn:Hlast.
      2:{ apply last_None in Hlast. apply (f_equal (@length _)) in Hlast.
          rewrite length_map, length_take in Hlast. cbn in Hlast. lia. }
      rewrite (last_point_drawn _ _ _ _ p Hcall Hlast).
      cbn [mbind result_bind default]. subst add. rewrite map_map.
      rewrite (IH (fun d' => point_sub (point_add (adjust d') rp) rp)).
      cbn [relative_point].
      apply handle_command_upper_relative_point; [exact Hup|].
      now rewrite Hupup.
    + reflexivity.
  - apply Nat.leb_gt in Hlen. rewrite app_nil_r.
    rewrite !take_ge, !drop_ge by (rewrite ?length_map, ?length_take; lia).
    reflexivity.
Qed.

End RelativeCommands.

Lemma geometry_last_point_drawn (f : method) (args : list point)
    (g g' : geometry) (p : point) :
  call f args g = Ok g' -> last args = Some p -> get_last_point g' = Ok p.
Proof.
  assert (forall c, add_curve c g = Ok g' -> curve_end c = p ->
                    get_last_point g' = Ok p) as Hcurve.
  { intros c. unfold add_curve, on_last_subpath.
    destruct (rev g) as [|sp before]; [discriminate|].
    intros [= <-] Hend. cbn. rewrite last_snoc. unfold current_point. cbn.
    now rewrite last_snoc, Hend. }
  destruct f, args as [|p1 [|p2 [|p3 [|p4 args]]]]; cbn; try discriminate;
    try (intros Hcall [= <-]; eapply Hcurve; [exact Hcall|reflexivity]).
  intros [= <-] [= <-]. now rewrite last_snoc.
Qed.

(** X5.  A relative command other than [m] draws what the absolute command
    of the same letter draws on the points that the code computes from the
    offsets: every group of offsets is moved by the last point of the
    group before it, the first by the relative point, after each earlier
    current point has been added to it and subtracted from it again as
    lines 530 and 542 do.  This holds for every VMobject whose drawing
    methods leave the last point they are given as the last point of the
    mobject, at every depth of the stack. *)
Theorem relative_command_as_absolute {M : Type} {VM : VMobject M}
    (fuel : nat) (c : ascii) (f : method) (n : nat)
    (offsets : list point) (self : path_state M) :
  (forall f args (m m' : M) p,
      call f args m = Ok m' -> last args = Some p ->
      get_last_point m' = Ok p) ->
  islower c = true -> ascii_eqb (upper c) "M" = false ->
  command_to_function c = Ok (f, n) -> 1 <= n ->
  handle_command fuel c offsets self
  = handle_command fuel (upper c)
      (absolute_points n 0 (relative_point self) (fun d => d) offsets) self.
Proof.
  intros Hlaw Hlow HM Hc Hn.
  rewrite <- (map_id offsets) at 1.
  now apply handle_command_relative with (f := f).
Qed.

(** The theorem at work on subpaths: two relative cubic curves. *)
Lemma relative_command_as_absolute_witness :
  handle_command 5 "c"
    [pt 1 0; pt 2 0; pt 3 1; pt 1 1; pt 2 2; pt 3 3]
    (PathState [Subpath (pt 5 5) [] false] (pt 5 5))
  = handle_command 5 "C"
      [pt 6 5; pt 7 5; pt 8 6; pt 9 7; pt 10 8; pt 11 9]
      (PathState [Subpath (pt 5 5) [] false] (pt 5 5)).
Proof.
  etransitivity.
  - apply (relative_command_as_absolute 5 "c" Add_cubic_bezier_curve_to 3
             [pt 1 0; pt 2 0; pt 3 1; pt 1 1; pt 2 2; pt 3 3]
             (PathState [Subpath (pt 5 5) [] false] (pt 5 5))
             geometry_last_point_drawn);
      [reflexivity | reflexivity | reflexivity | lia].
  - by_evaluation.
Defined.

(* ----------------------------------------------------------------- *)
(** ** Transforms without effect, and the position attributes *)

(** X6.  An operation that is not [matrix], [scale] or [translate] (so
    [rotate], [skewX] and [skewY]) changes nothing and raises nothing,
    whatever its arguments: on an element without both [x] and [y], a
    [transform] attribute made of such operations leaves the mobject as it
    is. *)
Theorem unsupported_transforms_have_no_effect (element : node)
    (transforms : list (string * list number)) (m : mobject) :
  hasAttribute element "x" && hasAttribute element "y" = false ->
  Forall (fun op => str_in (fst op) ["matrix"; "scale"; "translate"] = false)
    transforms ->
  handle_transforms element transforms m = Ok m.
Proof.
  intros Hxy Hops. unfold handle_transforms. rewrite Hxy.
  cbn [mbind result_bind].
  induction Hops as [|[name args] transforms Hname _ IH]; [reflexivity|].
  cbn [foldl mbind result_bind]. cbn [fst] in Hname.
  assert (apply_transform name args m = Ok m) as ->; [|exact IH].
  unfold apply_transform. cbn [str_in existsb] in Hname.
  apply orb_false_elim in Hname as [-> Hname].
  apply orb_false_elim in Hname as [-> Hname].
  apply orb_false_elim in Hname as [-> _].
  reflexivity.
Qed.

(** The theorem at work: a rotation and a skew. *)
Lemma unsupported_transforms_have_no_effect_witness :
  handle_transforms (Element "g" {[ "transform" := "rotate(45) skewX(10)" ]} [])
    [("rotate", [num_of_Z 45]); ("skewX", [num_of_Z 10])]
    (Mobject [pt 1 2] [])
  = Ok (Mobject [pt 1 2] []).
Proof.
  apply unsupported_transforms_have_no_effect.
  - reflexivity.
  - repeat constructor.
Defined.

(** X7.  The number of arguments of an operation: [matrix] raises a
    [ValueError] unless it has exactly six, and with six it raises an
    [AttributeError] when the family has a point, so that it returns only
    with six numbers on a family without points; [scale] with none or with
    more than two changes nothing and raises nothing; [translate] with none
    or with more than three raises a [ValueError], and with three it moves
    by the first alone. *)
Theorem transform_argument_counts (m : mobject) :
  (forall args,
      is_ok (apply_transform "matrix" args m)
      = (length args =? 6)%nat
        && match family_points m with [] => true | _ :: _ => false end)
  /\ (forall args,
         (length args =? 6)%nat = false ->
         apply_transform "matrix" args m = Raise ValueError)
  /\ (forall args,
         (length args =? 6)%nat = true -> family_points m <> [] ->
         apply_transform "matrix" args m = Raise AttributeError)
  /\ apply_transform "scale" [] m = Ok m
  /\ (forall a b c args, apply_transform "scale" (a :: b :: c :: args) m = Ok m)
  /\ apply_transform "translate" [] m = Raise ValueError
  /\ (forall a b c d args,
         apply_transform "translate" (a :: b :: c :: d :: args) m
         = Raise ValueError)
  /\ (forall a b c,
         apply_transform "translate" [a; b; c] m
         = apply_transform "translate" [a; 0%Qc] m).
Proof.
  assert (forall args,
             (length args =? 6)%nat = false ->
             apply_transform "matrix" args m = Raise ValueError) as Hbad.
  { intros args Hlen. unfold apply_transform.
    change (String.eqb "matrix" "matrix") with true. cbn iota.
    destruct args as [|a [|b [|c [|d [|e [|f [|g args]]]]]]];
      try reflexivity. discriminate. }
  assert (forall args,
             (length args =? 6)%nat = true -> family_points m <> [] ->
             apply_transform "matrix" args m = Raise AttributeError) as Hpoints.
  { intros args Hlen Hm.
    destruct args as [|a [|b [|c [|d [|e [|f [|g args]]]]]]];
      try discriminate.
    now apply apply_transform_matrix_raises. }
  split; [|split; [exact Hbad|split; [exact Hpoints|]]].
  - intros args. destruct (length args =? 6)%nat eqn:Hlen.
    + destruct (family_points m) as [|p pts] eqn:Hm.
      * destruct args as [|a [|b [|c [|d [|e [|f [|g args]]]]]]];
          try discriminate.
        now rewrite apply_transform_matrix_no_points.
      * now rewrite (Hpoints args Hlen ltac:(discriminate)).
    + now rewrite Hbad.
  - repeat split; try reflexivity.
    intros a b c. rewrite apply_transform_translate.
    unfold apply_transform.
    change (String.eqb "translate" "matrix") with false.
    change (String.eqb "translate" "scale") with false.
    change (String.eqb "translate" "translate") with true. cbn iota.
    f_equal. unfold shift. apply map_family_map_ext. intros [x y z].
    unfold point_add, point_scale, DOWN. cbn. f_equal; ring.
Qed.

(** X8.  The attributes [x] and [y] move the mobject only together: when
    either is absent nothing is moved and the other is not even parsed;
    when both are present they are parsed, [x] first, and every point is
    moved by (x, -y). *)
Theorem position_needs_x_and_y (tag : string) (attrs : gmap string string)
    (children : list node) (m : mobject) :
  (attrs !! "x" = None \/ attrs !! "y" = None ->
   handle_transforms (Element tag attrs children) [] m = Ok m)
  /\ (forall sx sy,
         attrs !! "x" = Some sx -> attrs !! "y" = Some sy ->
         handle_transforms (Element tag attrs children) [] m
         = x ← attribute_to_float sx;
           y ← attribute_to_float sy;
           Ok (map_family
                 (map (fun p => Point (px p + x)%Qc (py p - y)%Qc (pz p)))
                 m)).
Proof.
  split.
  - intros Habsent. unfold handle_transforms, hasAttribute.
    assert (bool_decide (is_Some (attrs !! "x"))
            && bool_decide (is_Some (attrs !! "y")) = false) as ->;
      [|reflexivity].
    apply andb_false_iff.
    destruct Habsent as [-> | ->]; [left|right];
      apply bool_decide_eq_false; intros [v Hv]; discriminate.
  - intros sx sy Hx Hy. unfold handle_transforms, hasAttribute, getAttribute.
    rewrite Hx, Hy. cbv [default from_option id].
    assert (forall v : string, bool_decide (is_Some (Some v)) = true) as Hsome.
    { intros v. apply bool_decide_eq_true. eauto. }
    rewrite !Hsome. cbn [andb].
    destruct (attribute_to_float sx) as [x|e]; [|reflexivity].
    cbn [mbind result_bind].
    destruct (attribute_to_float sy) as [y|e]; [|reflexivity].
    cbn [mbind result_bind foldl]. f_equal. unfold shift.
    apply map_family_map_ext. intros [px0 py0 pz0].
    unfold point_add, point_scale, RIGHT, UP. cbn. f_equal; ring.
Qed.


(* ================================================================= *)
(** ** Replacement and splitting *)

Lemma replace_from_skip (old new : list ascii) (skipped rest : list ascii) :
  replace_from old new (length skipped) (skipped ++ rest)
  = replace_from old new 0 rest.
Proof.
  induction skipped as [|c skipped IH]; [reflexivity|exact IH].
Qed.

Lemma is_prefix_app (old rest : list ascii) : is_prefix old (old ++ rest) = true.
Proof.
  induction old as [|c old IH]; [reflexivity|].
  cbn. unfold ascii_eqb. now rewrite Ascii.eqb_refl.
Qed.

(** An occurrence at the front is replaced, and the search goes on behind
    it. *)
Lemma replace_from_match (o : ascii) (os new rest : list ascii) :
  replace_from (o :: os) new 0 ((o :: os) ++ rest)
  = new ++ replace_from (o :: os) new 0 rest.
Proof.
  change ((o :: os) ++ rest) with (o :: (os ++ rest)).
  cbn [replace_from].
  change (o :: (os ++ rest)) with ((o :: os) ++ rest).
  rewrite is_prefix_app. f_equal.
  replace (length (o :: os) - 1) with (length os) by (cbn; lia).
  apply replace_from_skip.
Qed.

(** Text without the first character of [old] is passed through. *)
Lemma replace_from_pass (o : ascii) (os new pre rest : list ascii) :
  Forall (fun c => c <> o) pre ->
  replace_from (o :: os) new 0 (pre ++ rest)
  = pre ++ replace_from (o :: os) new 0 rest.
Proof.
  induction 1 as [|c pre Hc Hpre IH]; [reflexivity|].
  change ((c :: pre) ++ rest) with (c :: (pre ++ rest)).
  cbn [replace_from is_prefix].
  assert (ascii_eqb o c = false) as ->.
  { apply Ascii.eqb_neq. congruence. }
  cbn. now rewrite IH.
Qed.

Lemma replace_from_absent (o : ascii) (os new l : list ascii) :
  Forall (fun c => c <> o) l -> replace_from (o :: os) new 0 l = l.
Proof.
  intros Hl. rewrite <- (app_nil_r l) at 1.
  rewrite replace_from_pass by exact Hl. cbn. apply app_nil_r.
Qed.

Lemma split_on_not_nil (sep : ascii -> bool) (l : list ascii) :
  split_on sep l <> [].
Proof.
  destruct l as [|c l]; cbn; [discriminate|].
  destruct (split_on sep l); [discriminate|].
  destruct (sep c); discriminate.
Qed.

(** The pieces put together again with their separators give the text. *)
Lemma split_on_join (s : ascii) (l : list ascii) :
  exists w ws,
    split_on (ascii_eqb s) l = w :: ws
    /\ l = w ++ concat (map (cons s) ws)
    /\ Forall (Forall (fun c => c <> s)) (w :: ws).
Proof.
  induction l as [|c l (w & ws & Hsplit & Hl & Hfree)].
  - exists [], []. cbn. repeat constructor.
  - cbn [split_on]. rewrite Hsplit.
    destruct (ascii_eqb s c) eqn:Hc.
    + apply Ascii.eqb_eq in Hc as <-.
      exists [], (w :: ws). split; [reflexivity|]. split.
      * cbn. now rewrite Hl at 1.
      * constructor; [constructor|exact Hfree].
    + apply Ascii.eqb_neq in Hc.
      exists (c :: w), ws. split; [reflexivity|]. split.
      * cbn. now rewrite Hl at 1.
      * inversion Hfree as [|? ? Hw Hws]; subst.
        constructor; [|exact Hws]. constructor; [congruence|exact Hw].
Qed.

Lemma split_on_app_sep (sep : ascii -> bool) (a b : list ascii) (s : ascii) :
  sep s = true ->
  split_on sep (a ++ s :: b) = split_on sep a ++ split_on sep b.
Proof.
  intros Hs. induction a as [|c a IH].
  - cbn. rewrite Hs. destruct (split_on sep b) eqn:Hb; [|reflexivity].
    now apply split_on_not_nil in Hb.
  - change ((c :: a) ++ s :: b) with (c :: (a ++ s :: b)).
    cbn [split_on]. rewrite IH.
    destruct (split_on sep a) as [|w ws] eqn:Ha.
    { now apply split_on_not_nil in Ha. }
    cbn. now destruct (sep c).
Qed.

Lemma split_on_whole (sep : ascii -> bool) (l : list ascii) :
  Forall (fun c => sep c = false) l -> split_on sep l = [l].
Proof.
  induction 1 as [|c l Hc Hl IH]; [reflexivity|].
  cbn. now rewrite IH, Hc.
Qed.

(* ================================================================= *)
(** ** Polygons and polylines *)

Lemma str_chars (s : string) : str (chars s) = s.
Proof. apply string_of_list_ascii_of_string. Qed.

Lemma line_to_digit_free (w : list ascii) (d : ascii) :
  Forall (fun c => c <> " "%char) w ->
  Forall (fun c => c <> " "%char) (line_to_digit w d).
Proof.
  intros Hw. destruct w as [|c w]; [constructor|].
  cbn. destruct (ascii_eqb d c); [|exact Hw].
  constructor; [discriminate|exact Hw].
Qed.

(** One replacement puts the [L] before the words that start with the
    digit. *)
Lemma replace_digit_words (d : ascii) (ws : list (list ascii)) :
  d <> " "%char ->
  Forall (Forall (fun c => c <> " "%char)) ws ->
  replace_from [" "%char; d] [" "%char; "L"%char; d] 0
    (concat (map (cons " "%char) ws))
  = concat (map (fun w => " "%char :: line_to_digit w d) ws).
Proof.
  intros Hd. induction 1 as [|w ws Hw Hws IH]; [reflexivity|].
  cbn [map concat].
  destruct w as [|c w].
  - cbn [line_to_digit app replace_from is_prefix].
    assert (ascii_eqb " " " " = true) as -> by reflexivity.
    assert (match concat (map (cons " "%char) ws) with
            | [] => false
            | b :: l' => ascii_eqb d b && true
            end = false) as ->.
    { destruct ws as [|w' ws']; [reflexivity|]. cbn.
      apply andb_false_iff. left. now apply Ascii.eqb_neq. }
    cbn. now rewrite IH.
  - inversion Hw as [|? ? Hc Hw']; subst.
    cbn [line_to_digit]. destruct (ascii_eqb d c) eqn:Hdc.
    + apply Ascii.eqb_eq in Hdc as <-.
      change ((" "%char :: d :: w) ++ concat (map (cons " "%char) ws))
        with ((" "%char :: [d]) ++ (w ++ concat (map (cons " "%char) ws))).
      rewrite replace_from_match, replace_from_pass by exact Hw'.
      rewrite IH. reflexivity.
    + change ((" "%char :: c :: w) ++ concat (map (cons " "%char) ws))
        with (" "%char :: ((c :: w) ++ concat (map (cons " "%char) ws))).
      cbn [replace_from].
      assert (is_prefix [" "%char; d]
                (" "%char :: (c :: w) ++ concat (map (cons " "%char) ws))
              = false) as ->.
      { cbn. now rewrite Hdc. }
      rewrite replace_from_pass by exact Hw. now rewrite IH.
Qed.

Lemma replace_digits_words (ds : list ascii) (w0 : list ascii)
    (ws : list (list ascii)) :
  Forall (fun d => d <> " "%char) ds ->
  Forall (fun c => c <> " "%char) w0 ->
  Forall (Forall (fun c => c <> " "%char)) ws ->
  chars
    (fold_left
       (fun path_string digit =>
          replace (String " " (String digit ""))
                  (String " " (String "L" (String digit ""))) path_string)
       ds (str (w0 ++ concat (map (cons " "%char) ws))))
  = w0 ++ concat (map (fun w => " "%char :: fold_left line_to_digit ds w) ws).
Proof.
  intros Hds Hw0. revert ws.
  induction Hds as [|d ds Hd Hds IH]; intros ws Hws.
  - cbn [fold_left]. now rewrite chars_str.
  - cbn [fold_left].
    assert (replace (String " " (String d ""))
              (String " " (String "L" (String d "")))
              (str (w0 ++ concat (map (cons " "%char) ws)))
            = str (w0 ++ concat (map (cons " "%char)
                                   (map (fun w => line_to_digit w d) ws))))
      as ->.
    { unfold replace. cbn [chars list_ascii_of_string].
      rewrite chars_str, replace_from_pass by exact Hw0.
      rewrite replace_digit_words by assumption.
      now rewrite map_map. }
    rewrite IH.
    + now rewrite map_map.
    + apply List.Forall_map. eapply List.Forall_impl; [|exact Hws].
      intros w Hw. now apply line_to_digit_free.
Qed.

Lemma line_to_digits (w : list ascii) :
  fold_left line_to_digit digits w = line_to_word w.
Proof.
  destruct w as [|c w]; [reflexivity|].
  destruct c as [[|] [|] [|] [|] [|] [|] [|] [|]]; reflexivity.
Qed.

Lemma polygon_path_chars (tag : string) (attrs : gmap string string)
    (children : list node) (w : list ascii) (ws : list (list ascii)) :
  Forall (fun c => c <> " "%char) w ->
  Forall (Forall (fun c => c <> " "%char)) ws ->
  drop_while is_space
    (chars (getAttribute (Element tag attrs children) "points"))
  = w ++ concat (map (cons " "%char) ws) ->
  chars (polygon_path_string (Element tag attrs children))
  = "M"%char :: w ++ concat (map (fun v => " "%char :: line_to_word v) ws)
    ++ (if String.eqb tag "polygon" then ["Z"%char] else []).
Proof.
  intros Hw Hws Hjoin.
  unfold polygon_path_string, lstrip. rewrite Hjoin.
  assert (Forall (fun d => d <> " "%char) digits) as Hdigits.
  { unfold digits. cbn. repeat constructor; discriminate. }
  pose proof (replace_digits_words digits w ws Hdigits Hw Hws) as Hloop.
  rewrite (map_ext (fun v => " "%char :: fold_left line_to_digit digits v)
             (fun v => " "%char :: line_to_word v)) in Hloop
    by (intros v; f_equal; apply line_to_digits).
  cbn [tagName].
  destruct (String.eqb tag "polygon").
  - rewrite !chars_append, Hloop. cbn [chars list_ascii_of_string app].
    now rewrite <- app_assoc.
  - rewrite !chars_append, Hloop. cbn [chars list_ascii_of_string app].
    now rewrite app_nil_r.
Qed.

(** X9.  The path string of a polygon or polyline: the [points] attribute
    without its leading whitespace, cut at the spaces; an [M] goes before
    the first word and an [L] before every later word that starts with a
    digit, and before no other; a polygon gets a final [Z]. *)
Theorem polygon_path_string_words (tag : string) (attrs : gmap string string)
    (children : list node) :
  let polygon_element := Element tag attrs children in
  exists w ws,
    split_on (ascii_eqb " ")
      (drop_while is_space (chars (getAttribute polygon_element "points")))
    = w :: ws
    /\ chars (polygon_path_string polygon_element)
       = "M"%char :: w ++ concat (map (fun v => " "%char :: line_to_word v) ws)
         ++ (if String.eqb tag "polygon" then ["Z"%char] else []).
Proof.
  intros polygon_element.
  destruct (split_on_join " "
              (drop_while is_space
                 (chars (getAttribute polygon_element "points"))))
    as (w & ws & Hsplit & Hjoin & Hfree).
  exists w, ws. split; [exact Hsplit|].
  inversion Hfree as [|? ? Hw Hws]; subst.
  now apply polygon_path_chars.
Qed.

Lemma is_digits_Forall (ds : list ascii) :
  is_digits ds = true -> ds <> [] /\ Forall (fun c => is_digit c = true) ds.
Proof.
  unfold is_digits. intros [Hlen Hall]%andb_prop. split.
  - intros ->. discriminate.
  - apply List.Forall_forall. now apply forallb_forall.
Qed.

Lemma digit_facts (c : ascii) :
  is_digit c = true ->
  is_space c = false /\ is_command c = false
  /\ c <> " "%char /\ c <> ","%char /\ c <> "-"%char /\ c <> "e"%char
  /\ c <> "+"%char /\ c <> "."%char.
Proof.
  destruct c as [[|] [|] [|] [|] [|] [|] [|] [|]]; vm_compute;
    intros H; try discriminate H; repeat split; discriminate.
Qed.

Lemma span_all {A} (p : A -> bool) (l rest : list A) :
  Forall (fun x => p x = true) l ->
  match rest with [] => True | x :: _ => p x = false end ->
  span p (l ++ rest) = (l, rest).
Proof.
  intros Hl Hrest. induction Hl as [|x l Hx Hl IH].
  - now apply span_head.
  - cbn. now rewrite Hx, IH.
Qed.

Lemma pow10_0 : pow10 0 = 1%Qc.
Proof. apply Qc_is_canon. reflexivity. Qed.

(** [float] on a string of digits. *)
Lemma float_of_digits (ds : list ascii) :
  is_digits ds = true -> float_of_chars ds = Ok (digits_number ds).
Proof.
  intros [Hne Hds]%is_digits_Forall. unfold float_of_chars.
  rewrite strip_no_space
    by (eapply List.Forall_impl; [|exact Hds]; intros c Hc;
        now apply digit_facts).
  assert (parse_sign ds = (false, ds)) as ->.
  { destruct Hds as [|c ds Hc Hds]; [reflexivity|].
    destruct c as [[|] [|] [|] [|] [|] [|] [|] [|]];
      try discriminate Hc; reflexivity. }
  rewrite <- (app_nil_r ds) at 1.
  rewrite span_all by (exact Hds || exact I).
  rewrite app_nil_r. destruct ds as [|c ds]; [congruence|].
  cbn [parse_exponent length Z.of_nat app].
  change (0 - Z.of_nat 0)%Z with 0%Z. rewrite pow10_0.
  unfold digits_number. f_equal. ring.
Qed.

(* ================================================================= *)
(** ** Numbers in a string *)

Lemma is_prefix_length (old l : list ascii) :
  is_prefix old l = true -> length old <= length l.
Proof.
  revert l. induction old as [|o old IH]; intros l H; [cbn; lia|].
  destruct l as [|c l]; [discriminate|].
  cbn in H. apply andb_prop in H as [_ H]. apply IH in H. cbn. lia.
Qed.

(** Replacement works on the two parts of a text apart when no occurrence
    begins in the first and ends in the second. *)
Lemma replace_from_app (old new a b : list ascii) (skip : nat) :
  (forall n, n < length a ->
             is_prefix old (drop n a ++ b) = is_prefix old (drop n a)) ->
  skip <= length a ->
  replace_from old new skip (a ++ b)
  = replace_from old new skip a ++ replace_from old new 0 b.
Proof.
  revert skip. induction a as [|c a IH]; intros skip Hstable Hskip.
  - cbn in Hskip. now replace skip with 0 by lia.
  - assert (forall n, n < length a ->
              is_prefix old (drop n a ++ b) = is_prefix old (drop n a))
      as Hstable'.
    { intros n Hn. apply (Hstable (S n)). cbn. lia. }
    change ((c :: a) ++ b) with (c :: (a ++ b)).
    destruct skip as [|k]; cbn [replace_from].
    + pose proof (Hstable 0 ltac:(cbn; lia)) as H0. cbn [drop] in H0.
      change ((c :: a) ++ b) with (c :: (a ++ b)) in H0. rewrite H0.
      destruct (is_prefix old (c :: a)) eqn:Hp.
      * apply is_prefix_length in Hp. cbn in Hp.
        rewrite IH by (assumption || lia). now rewrite app_assoc.
      * rewrite IH by (assumption || lia). reflexivity.
    + apply IH; [assumption|cbn in Hskip; lia].
Qed.

(** A separator that is not in [old] is in no occurrence. *)
Lemma is_prefix_sep (old x b : list ascii) (s : ascii) :
  Forall (fun c => c <> s) old ->
  is_prefix old (x ++ s :: b) = is_prefix old x.
Proof.
  intros Hold. revert x. induction Hold as [|o old Ho Hold IH]; intros x;
    [reflexivity|].
  destruct x as [|c x]; cbn.
  - apply andb_false_iff. left. now apply Ascii.eqb_neq.
  - now rewrite IH.
Qed.

Lemma replace_from_sep (old new a b : list ascii) (s : ascii) :
  Forall (fun c => c <> s) old -> old <> [] ->
  replace_from old new 0 (a ++ s :: b)
  = replace_from old new 0 a ++ s :: replace_from old new 0 b.
Proof.
  intros Hold Hne.
  rewrite replace_from_app; [|intros; now apply is_prefix_sep|lia].
  f_equal. destruct old as [|o old]; [congruence|].
  apply (replace_from_pass o old new [s] b).
  inversion Hold; subst. constructor; [congruence|constructor].
Qed.

(** The first replacement of [string_to_numbers], character by
    character. *)
Lemma replace_minus_app (a b : list ascii) :
  replace_from ["-"%char] [","%char; "-"%char] 0 (a ++ b)
  = replace_from ["-"%char] [","%char; "-"%char] 0 a
    ++ replace_from ["-"%char] [","%char; "-"%char] 0 b.
Proof.
  apply replace_from_app; [|lia].
  intros n Hn. destruct (drop n a) as [|c x] eqn:Hx.
  - apply (f_equal length) in Hx. rewrite length_drop in Hx. cbn in Hx. lia.
  - reflexivity.
Qed.

Lemma replace_minus_head (l : list ascii) :
  match replace_from ["-"%char] [","%char; "-"%char] 0 l with
  | [] => True
  | c :: _ => c <> "-"%char
  end.
Proof.
  destruct l as [|c l]; [exact I|]. cbn [replace_from is_prefix].
  destruct (ascii_eqb "-" c) eqn:Hc; cbn.
  - intros H. discriminate H.
  - apply Ascii.eqb_neq in Hc. congruence.
Qed.

Lemma replace_minus_last (l : list ascii) :
  last (replace_from ["-"%char] [","%char; "-"%char] 0 l) = last l.
Proof.
  induction l as [|c l _] using rev_ind; [reflexivity|].
  rewrite replace_minus_app, last_snoc.
  assert (replace_from ["-"%char] [","%char; "-"%char] 0 [c]
          = if ascii_eqb "-" c then [","%char] ++ ["-"%char] else [c]) as ->.
  { cbn [replace_from is_prefix]. now destruct (ascii_eqb "-" c). }
  destruct (ascii_eqb "-" c) eqn:Hc.
  - apply Ascii.eqb_eq in Hc. subst c. now rewrite app_assoc, last_snoc.
  - now rewrite last_snoc.
Qed.

(** The second replacement never joins the text before a separating comma
    to the text behind it, the first replacement having been made. *)
Lemma replace_exponent_comma (a b : list ascii) :
  match b with [] => True | c :: _ => c <> "-"%char end ->
  replace_from (chars "e,-") (chars "e-") 0 (a ++ ","%char :: b)
  = replace_from (chars "e,-") (chars "e-") 0 a
    ++ ","%char :: replace_from (chars "e,-") (chars "e-") 0 b.
Proof.
  intros Hb. rewrite replace_from_app; [reflexivity| |lia].
  intros n _. cbn [chars list_ascii_of_string].
  destruct (drop n a) as [|x1 [|x2 [|x3 x]]]; cbn [is_prefix app].
  - reflexivity.
  - destruct (ascii_eqb "e" x1); [|reflexivity].
    change (ascii_eqb "," ",") with true. cbn [andb].
    destruct b as [|c b]; [reflexivity|].
    cbn [is_prefix]. apply andb_false_iff. left.
    apply Ascii.eqb_neq. congruence.
  - change (ascii_eqb "-" ",") with false. now rewrite !andb_false_r.
  - reflexivity.
Qed.

(** Nor does it join the text before a minus sign to the sign, unless that
    text ends with an [e]. *)
Lemma replace_exponent_minus (a b : list ascii) :
  last a <> Some "e"%char ->
  replace_from (chars "e,-") (chars "e-") 0 (a ++ ","%char :: "-"%char :: b)
  = replace_from (chars "e,-") (chars "e-") 0 a
    ++ ","%char :: replace_from (chars "e,-") (chars "e-") 0 ("-"%char :: b).
Proof.
  intros Ha. rewrite replace_from_app; [reflexivity| |lia].
  intros n _. cbn [chars list_ascii_of_string].
  destruct (drop n a) as [|x1 [|x2 [|x3 x]]] eqn:Hx; cbn [is_prefix app].
  - reflexivity.
  - assert (last a = Some x1) as Hlast.
    { rewrite <- (take_drop n a), Hx. apply last_snoc. }
    assert (ascii_eqb "e" x1 = false) as ->; [|reflexivity].
    apply Ascii.eqb_neq. intros <-. congruence.
  - change (ascii_eqb "-" ",") with false. now rewrite !andb_false_r.
  - reflexivity.
Qed.

Lemma mapM_app {A B} (f : A -> result B) (l1 l2 : list A) :
  mapM f (l1 ++ l2) = (a ← mapM f l1; b ← mapM f l2; Ok (a ++ b)).
Proof.
  induction l1 as [|x l1 IH]; cbn.
  - now destruct (mapM f l2).
  - destruct (f x) as [y|e]; [|reflexivity]. cbn. rewrite IH.
    destruct (mapM f l1) as [a|e]; [|reflexivity]. cbn.
    now destruct (mapM f l2).
Qed.


Lemma numbers_of_sep (a b : list ascii) (s : ascii) :
  s = " "%char \/ s = ","%char ->
  numbers_of (a ++ s :: b)
  = (l1 ← numbers_of a; l2 ← numbers_of b; Ok (l1 ++ l2)).
Proof.
  intros Hs. unfold numbers_of.
  rewrite (split_on_app_sep _ a b s) by (destruct Hs as [-> | ->]; reflexivity).
  now rewrite filter_app, mapM_app.
Qed.

Lemma string_to_numbers_chars (l : list ascii) :
  string_to_numbers (str l)
  = numbers_of
      (replace_from (chars "e,-") (chars "e-") 0
         (replace_from ["-"%char] [","%char; "-"%char] 0 l)).
Proof.
  unfold string_to_numbers, numbers_of, replace.
  cbn [chars list_ascii_of_string]. now rewrite !chars_str.
Qed.

Lemma string_to_numbers_sep (a b : list ascii) (s : ascii) :
  s = " "%char \/ s = ","%char ->
  string_to_numbers (str (a ++ s :: b))
  = (l1 ← string_to_numbers (str a);
     l2 ← string_to_numbers (str b);
     Ok (l1 ++ l2)).
Proof.
  intros Hs. rewrite !string_to_numbers_chars, replace_minus_app.
  assert (replace_from ["-"%char] [","%char; "-"%char] 0 (s :: b)
          = s :: replace_from ["-"%char] [","%char; "-"%char] 0 b) as ->.
  { apply (replace_from_pass "-" [] _ [s] b).
    destruct Hs as [-> | ->]; repeat constructor; discriminate. }
  destruct Hs as [-> | ->].
  - rewrite replace_from_sep;
      [|repeat constructor; discriminate|discriminate].
    apply numbers_of_sep. now left.
  - rewrite replace_exponent_comma by apply replace_minus_head.
    apply numbers_of_sep. now right.
Qed.

Lemma str_app (a b : list ascii) : str (a ++ b) = str a +:+ str b.
Proof.
  rewrite <- (str_chars (str a +:+ str b)), chars_append.
  now rewrite !chars_str.
Qed.

Lemma numbers_of_comma (l : list ascii) :
  numbers_of (","%char :: l) = numbers_of l.
Proof.
  change (","%char :: l) with ([] ++ ","%char :: l).
  rewrite (numbers_of_sep [] l ","%char) by now right.
  change (numbers_of []) with (Ok (@nil number)). cbn [mbind result_bind].
  now destruct (numbers_of l).
Qed.

(** X10.  A space or a comma between two strings keeps their numbers
    apart: the numbers of the whole are those of the first string followed
    by those of the second, and the first bad literal is the one that is
    reported. *)
Theorem separators_split_numbers (s1 s2 : string) :
  string_to_numbers (s1 +:+ String " " s2)
  = (l1 ← string_to_numbers s1; l2 ← string_to_numbers s2; Ok (l1 ++ l2))
  /\ string_to_numbers (s1 +:+ String "," s2)
     = (l1 ← string_to_numbers s1; l2 ← string_to_numbers s2; Ok (l1 ++ l2)).
Proof.
  rewrite <- (str_chars s1), <- (str_chars s2).
  change (String " " (str (chars s2))) with (str (" "%char :: chars s2)).
  change (String "," (str (chars s2))) with (str (","%char :: chars s2)).
  rewrite <- !str_app.
  split; apply string_to_numbers_sep; auto.
Qed.

(** X11.  A minus sign begins a new number wherever it stands, except
    directly after an [e]: the text before it and the text from it on are
    read apart. *)
Theorem minus_sign_starts_a_number (s1 s2 : string) :
  last (chars s1) <> Some "e"%char ->
  string_to_numbers (s1 +:+ String "-" s2)
  = (l1 ← string_to_numbers s1;
     l2 ← string_to_numbers (String "-" s2);
     Ok (l1 ++ l2)).
Proof.
  intros He.
  rewrite <- (str_chars s1), <- (str_chars s2).
  change (String "-" (str (chars s2))) with (str ("-"%char :: chars s2)).
  rewrite <- str_app, !string_to_numbers_chars.
  rewrite replace_minus_app.
  assert (forall b,
             replace_from ["-"%char] [","%char; "-"%char] 0 ("-"%char :: b)
             = ","%char :: "-"%char
               :: replace_from ["-"%char] [","%char; "-"%char] 0 b) as Hminus
      by reflexivity.
  rewrite Hminus.
  rewrite replace_exponent_minus by now rewrite replace_minus_last.
  rewrite (numbers_of_sep _ _ ","%char) by now right.
  destruct (numbers_of
              (replace_from (chars "e,-") (chars "e-") 0
                 (replace_from ["-"%char] [","%char; "-"%char] 0 (chars s1))))
    as [l1|e]; [|reflexivity].
  cbn [mbind result_bind].
  assert (forall b,
             replace_from (chars "e,-") (chars "e-") 0 (","%char :: b)
             = ","%char :: replace_from (chars "e,-") (chars "e-") 0 b) as ->
      by reflexivity.
  now rewrite numbers_of_comma.
Qed.

Lemma minus_sign_starts_a_number_witness :
  string_to_numbers "10-5" = Ok [num_of_Z 10; num_of_Z (-5)]
  /\ string_to_numbers "1e-1" = Ok [(/ num_of_Z 10)%Qc].
Proof.
  split; [|by_evaluation].
  etransitivity; [apply (minus_sign_starts_a_number "10" "5")|by_evaluation].
  cbn. discriminate.
Defined.

Lemma string_to_numbers_digits (ds : list ascii) :
  is_digits ds = true -> string_to_numbers (str ds) = Ok [digits_number ds].
Proof.
  intros Hds. pose proof (is_digits_Forall ds Hds) as [Hne Hall].
  rewrite string_to_numbers_chars.
  rewrite (replace_from_absent "-" [])
    by (eapply List.Forall_impl; [|exact Hall]; intros c Hc;
        now apply digit_facts).
  cbn [chars list_ascii_of_string].
  rewrite replace_from_absent
    by (eapply List.Forall_impl; [|exact Hall]; intros c Hc;
        now apply digit_facts).
  unfold numbers_of. rewrite split_on_whole.
  - destruct ds as [|c ds]; [congruence|].
    rewrite filter_cons, decide_True, filter_nil by discriminate.
    cbn [mapM]. rewrite float_of_digits by exact Hds. reflexivity.
  - eapply List.Forall_impl; [|exact Hall]. intros c Hc.
    destruct (digit_facts c Hc) as (_ & _ & Hsp & Hco & _).
    apply orb_false_iff. split; now apply Ascii.eqb_neq.
Qed.

Lemma string_to_numbers_vertex (v : list ascii * list ascii)
    (h : list ascii) :
  is_vertex v = true -> h = [] \/ h = [" "%char] ->
  string_to_numbers (str (vertex_word v ++ h))
  = Ok [digits_number (fst v); digits_number (snd v)].
Proof.
  intros [Hx Hy]%andb_prop Hh. unfold vertex_word.
  rewrite <- app_assoc. cbn [app].
  rewrite string_to_numbers_sep by now right.
  rewrite (string_to_numbers_digits (fst v)) by exact Hx.
  cbn [mbind result_bind].
  destruct Hh as [-> | ->].
  - rewrite app_nil_r, (string_to_numbers_digits (snd v)) by exact Hy.
    reflexivity.
  - rewrite string_to_numbers_sep by now left.
    rewrite (string_to_numbers_digits (snd v)) by exact Hy. reflexivity.
Qed.

Lemma vertex_word_facts (v : list ascii * list ascii) :
  is_vertex v = true ->
  Forall (fun c => c <> " "%char) (vertex_word v)
  /\ Forall (fun c => is_command c = false) (vertex_word v)
  /\ line_to_word (vertex_word v) = "L"%char :: vertex_word v
  /\ (forall rest,
         drop_while is_space (vertex_word v ++ rest) = vertex_word v ++ rest).
Proof.
  intros [Hx Hy]%andb_prop.
  apply is_digits_Forall in Hx as [Hxne Hx].
  apply is_digits_Forall in Hy as [Hyne Hy].
  unfold vertex_word. repeat split.
  - apply Forall_app. split; [|constructor; [discriminate|]];
      (eapply List.Forall_impl; [|eassumption]); intros c Hc;
      now apply digit_facts.
  - apply Forall_app. split; [|constructor; [reflexivity|]];
      (eapply List.Forall_impl; [|eassumption]); intros c Hc;
      now apply digit_facts.
  - destruct Hx as [|c x Hc Hx]; [congruence|]. cbn. now rewrite Hc.
  - intros rest. destruct Hx as [|c x Hc Hx]; [congruence|]. cbn.
    destruct (digit_facts c Hc) as (-> & _). reflexivity.
Qed.

Lemma scan_commands_plain (pre rest : list ascii) :
  Forall (fun c => is_command c = false) pre ->
  scan_commands (pre ++ rest)
  = (pre ++ fst (scan_commands rest), snd (scan_commands rest)).
Proof.
  induction 1 as [|c pre Hc Hpre IH]; cbn [app scan_commands].
  - now destruct (scan_commands rest).
  - rewrite IH, Hc. reflexivity.
Qed.

(** The commands of the path string of the later vertices. *)
Lemma scan_line_commands (vs : list (list ascii * list ascii))
    (closing : list ascii) :
  Forall (fun v => is_vertex v = true) vs ->
  closing = [] \/ closing = ["Z"%char] ->
  scan_commands
    (concat (map (fun v => " "%char :: "L"%char :: vertex_word v) vs)
     ++ closing)
  = (match vs with [] => [] | _ => [" "%char] end,
     line_commands vs
     ++ match closing with [] => [] | _ => [("Z"%char, "")] end).
Proof.
  intros Hvs Hclosing. induction Hvs as [|v vs Hv Hvs IH].
  - destruct Hclosing as [-> | ->]; reflexivity.
  - cbn [map concat line_commands].
    change ((" "%char :: "L"%char :: vertex_word v)
            ++ concat (map (fun v => " "%char :: "L"%char :: vertex_word v) vs))
      with (" "%char :: "L"%char
            :: (vertex_word v
                ++ concat (map (fun v => " "%char :: "L"%char :: vertex_word v)
                             vs))).
    cbn [app scan_commands]. rewrite <- app_assoc.
    rewrite scan_commands_plain by now apply vertex_word_facts.
    rewrite IH. cbn [fst snd].
    change (is_command "L") with true. change (is_command " ") with false.
    cbv iota. reflexivity.
Qed.

(** Running them adds one line per vertex to the subpath that is open. *)
Lemma run_line_commands (fuel : nat) (vs : list (list ascii * list ascii))
    (start : point) (curves : list curve) (rp : point) :
  Forall (fun v => is_vertex v = true) vs ->
  run_commands (S fuel) (line_commands vs)
    (PathState [Subpath start curves false] rp)
  = Ok (PathState
          [Subpath start
             (curves ++ map (fun v => LineTo (vertex_point v)) vs) false]
          (default rp (last (map vertex_point vs)))).
Proof.
  intros Hvs. revert curves rp.
  induction Hvs as [|v vs Hv Hvs IH]; intros curves rp.
  - cbn. now rewrite app_nil_r.
  - cbn [line_commands run_commands relative_point].
    unfold string_to_points.
    rewrite string_to_numbers_vertex
      by (exact Hv || (destruct vs; auto)).
    change (ascii_eqb (upper "L") "H") with false.
    change (ascii_eqb (upper "L") "V") with false.
    change (ascii_eqb (upper "L") "A") with false.
    cbn [orb mbind result_bind reshape_pairs map].
    fold (vertex_point v).
    cbn [handle_command]. change (islower "L") with false. cbv iota.
    change (command_to_function "L") with (Ok (Add_line_to, 1)).
    cbn [mbind result_bind take drop length Nat.ltb Nat.leb call
         add_line_to geometry_vmobject add_curve on_last_subpath rev app
         sp_start sp_curves sp_closed get_last_point mob].
    cbn [last mbind result_bind].
    rewrite IH. f_equal. f_equal.
    + now rewrite <- app_assoc.
    + unfold current_point. cbn [sp_curves]. rewrite last_snoc.
      destruct vs as [|u vs']; [reflexivity|].
      cbn [map]. rewrite last_cons_cons.
      destruct (last (vertex_point u :: map vertex_point vs')) eqn:Hlast;
        [reflexivity|].
      now apply last_None in Hlast.
Qed.

(** The commands of the path string of such a polygon, run on a fresh
    mobject: the state of the loop before the Y flip. *)
Lemma polygon_run_path (fuel : nat) (tag : string)
    (attrs : gmap string string) (children : list node)
    (v : list ascii * list ascii) (vs : list (list ascii * list ascii)) :
  Forall (fun u => is_vertex u = true) (v :: vs) ->
  attrs !! "points"
  = Some (str (vertex_word v
               ++ concat (map (fun u => " "%char :: vertex_word u) vs))) ->
  mob <$> run_path (S fuel)
            (polygon_path_string (Element tag attrs children))
  = Ok [if String.eqb tag "polygon"
        then Subpath (vertex_point v)
               (map (fun u => LineTo (vertex_point u)) vs
                ++ [LineTo (vertex_point v)]) true
        else Subpath (vertex_point v)
               (map (fun u => LineTo (vertex_point u)) vs) false].
Proof.
  intros Hall Hpoints. inversion Hall as [|? ? Hv Hvs]; subst.
  destruct (vertex_word_facts v Hv) as (Hfree & Hplain & _ & Hlstrip).
  assert (chars (polygon_path_string (Element tag attrs children))
          = "M"%char :: vertex_word v
            ++ concat (map (fun u => " "%char :: "L"%char :: vertex_word u) vs)
            ++ (if String.eqb tag "polygon" then ["Z"%char] else []))
    as Hpath.
  { rewrite (polygon_path_chars tag attrs children (vertex_word v)
               (map vertex_word vs)).
    - rewrite map_map. f_equal. f_equal. f_equal. f_equal.
      apply map_ext_in. intros u Hu. f_equal.
      apply vertex_word_facts.
      exact (proj1 (List.Forall_forall _ _) Hvs u Hu).
    - exact Hfree.
    - apply List.Forall_map. eapply List.Forall_impl; [|exact Hvs].
      intros u Hu. now apply vertex_word_facts.
    - unfold getAttribute. rewrite Hpoints. cbv [default from_option id].
      now rewrite chars_str, map_map, Hlstrip. }
  unfold run_path, get_commands_and_coord_strings. rewrite Hpath.
  cbn [scan_commands]. rewrite scan_commands_plain by exact Hplain.
  rewrite scan_line_commands
    by (exact Hvs || (destruct (String.eqb tag "polygon"); auto)).
  change (is_command "M") with true. cbn [fst snd run_commands relative_point].
  unfold string_to_points.
  rewrite string_to_numbers_vertex by (exact Hv || (destruct vs; auto)).
  change (ascii_eqb (upper "M") "H") with false.
  change (ascii_eqb (upper "M") "V") with false.
  change (ascii_eqb (upper "M") "A") with false.
  cbn [orb mbind result_bind reshape_pairs map].
  fold (vertex_point v).
  cbn [handle_command]. change (islower "M") with false. cbv iota.
  change (command_to_function "M") with (Ok (Start_new_path, 1)).
  cbn [mbind result_bind take drop length Nat.ltb Nat.leb call
       start_new_path geometry_vmobject app get_last_point mob last
       current_point sp_curves sp_start].
  rewrite run_commands_app, run_line_commands by exact Hvs.
  cbn [mbind result_bind app].
  destruct (String.eqb tag "polygon"); [|reflexivity].
  cbn [run_commands relative_point].
  change (string_to_points ?rp "Z" "") with (Ok (@nil point)).
  cbn [mbind result_bind handle_command].
  change (islower "Z") with false. cbv iota.
  change (command_to_function "Z") with (Ok (Close_path, 0)).
  cbn [mbind result_bind take drop length Nat.ltb Nat.leb call map
       close_path geometry_vmobject close_subpath on_last_subpath rev app
       sp_start sp_curves sp_closed get_last_point mob fmap result_fmap].
  cbn [last mbind result_bind fmap result_fmap mob]. reflexivity.
Qed.

(** The Y flip that ends a compile, on a vertex. *)
Lemma flip_vertex_point (v : list ascii * list ascii) :
  stretch_point (-1)%Qc 1 ORIGIN (vertex_point v)
  = Point (digits_number (fst v)) (- digits_number (snd v))%Qc 0%Qc.
Proof.
  unfold stretch_point, vertex_point, ORIGIN. cbn [set_coord coord px py pz].
  f_equal. ring.
Qed.

(** A compile with both optional passes off is the run of the commands
    followed by the Y flip. *)
Lemma compile_path_of_run_path (subdivide without_null : geometry -> geometry)
    (fuel : nat) (path_string : string) (g : geometry) :
  mob <$> run_path fuel path_string = Ok g ->
  compile_path (VP := geometry_points subdivide without_null) fuel CONFIG
    path_string []
  = Ok (map (subpath_map (stretch_point (-1)%Qc 1 ORIGIN)) g).
Proof.
  unfold run_path, compile_path.
  destruct (run_commands _ _ _) as [self|e]; [|discriminate].
  intros [= <-]. reflexivity.
Qed.

(** X12.  A polygon whose vertices are written with digits only, one space
    between them, is drawn as one subpath.  Its commands draw, on a fresh
    mobject, a subpath that starts at the first vertex, has a line to
    every later vertex in turn and is closed by a line back to the first;
    a polyline is the same subpath left open.  The compile of the default
    configuration returns this subpath with the Y flip of line 514 on
    every point: the vertex [x,y] is compiled to the point (x, -y, 0). *)
Theorem polygon_of_digit_vertices (fuel : nat) (tag : string)
    (attrs : gmap string string) (children : list node)
    (v : list ascii * list ascii) (vs : list (list ascii * list ascii)) :
  Forall (fun u => is_vertex u = true) (v :: vs) ->
  attrs !! "points"
  = Some (str (vertex_word v
               ++ concat (map (fun u => " "%char :: vertex_word u) vs))) ->
  mob <$> run_path (S fuel)
            (polygon_path_string (Element tag attrs children))
  = Ok [if String.eqb tag "polygon"
        then Subpath (vertex_point v)
               (map (fun u => LineTo (vertex_point u)) vs
                ++ [LineTo (vertex_point v)]) true
        else Subpath (vertex_point v)
               (map (fun u => LineTo (vertex_point u)) vs) false]
  /\ (forall subdivide without_null,
         let flipped u :=
           Point (digits_number (fst u)) (- digits_number (snd u))%Qc 0%Qc in
         compile_path (VP := geometry_points subdivide without_null)
           (S fuel) CONFIG
           (polygon_path_string (Element tag attrs children)) []
         = Ok [if String.eqb tag "polygon"
               then Subpath (flipped v)
                      (map (fun u => LineTo (flipped u)) vs
                       ++ [LineTo (flipped v)]) true
               else Subpath (flipped v)
                      (map (fun u => LineTo (flipped u)) vs) false]).
Proof.
  intros Hall Hpoints.
  pose proof (polygon_run_path fuel tag attrs children v vs Hall Hpoints)
    as Hrun.
  split; [exact Hrun|]. intros subdivide without_null flipped.
  rewrite (compile_path_of_run_path subdivide without_null _ _ _ Hrun).
  assert (map (fun u => LineTo (stretch_point (-1)%Qc 1 ORIGIN
                                   (vertex_point u))) vs
          = map (fun u => LineTo (flipped u)) vs) as Hlines.
  { apply map_ext. intros u. now rewrite flip_vertex_point. }
  f_equal. cbn [map]. f_equal.
  destruct (String.eqb tag "polygon");
    unfold subpath_map; cbn [sp_start sp_curves sp_closed];
    rewrite ?map_app, !map_map; cbn [map curve_map];
    rewrite !flip_vertex_point, Hlines; reflexivity.
Qed.

Lemma polygon_of_digit_vertices_witness :
  mob <$> run_path 1
            (polygon_path_string
               (Element "polygon" {[ "points" := "0,0 10,0 10,10" ]} []))
  = Ok [Subpath (pt 0 0) [LineTo (pt 10 0); LineTo (pt 10 10); LineTo (pt 0 0)]
          true]
  /\ compile_path (VP := geometry_points (fun g => g) (fun g => g)) 1 CONFIG
       (polygon_path_string
          (Element "polygon" {[ "points" := "0,0 10,0 10,10" ]} []))
       []
     = Ok [Subpath (pt 0 0)
             [LineTo (pt 10 0); LineTo (pt 10 (-10)); LineTo (pt 0 0)] true].
Proof.
  destruct (polygon_of_digit_vertices 0 "polygon"
              {[ "points" := "0,0 10,0 10,10" ]} []
              (chars "0", chars "0")
              [(chars "10", chars "0"); (chars "10", chars "10")])
    as [Hrun Hcompile].
  - repeat constructor.
  - reflexivity.
  - split.
    + etransitivity; [exact Hrun|by_evaluation].
    + etransitivity; [exact (Hcompile (fun g => g) (fun g => g))|by_evaluation].
Defined.

(* ================================================================= *)
(** ** The walk over the document *)

Lemma state_grows_refl (self : svg_state) : state_grows self self.
Proof.
  split; [reflexivity|]. split; [reflexivity|].
  exists []. now rewrite app_nil_r.
Qed.

Lemma state_grows_trans (s1 s2 s3 : svg_state) :
  state_grows s1 s2 -> state_grows s2 s3 -> state_grows s1 s3.
Proof.
  intros (Hf1 & Hd1 & w1 & Hw1) (Hf2 & Hd2 & w2 & Hw2).
  split; [congruence|]. split; [set_solver|].
  exists (w1 ++ w2). now rewrite Hw2, Hw1, app_assoc.
Qed.

Lemma state_grows_warn (text : string) (self : svg_state) :
  state_grows self (warn text self).
Proof.
  split; [reflexivity|]. split; [reflexivity|]. now exists [text].
Qed.

Lemma state_grows_register (key : string) (value : style * node)
    (self : svg_state) :
  state_grows self (register key value self).
Proof.
  split; [reflexivity|]. split.
  - cbn. rewrite dom_insert. set_solver.
  - exists []. cbn. now rewrite app_nil_r.
Qed.

Lemma walk_children_grows
    (walk : node -> svg_state -> result (list mobject * svg_state))
    (children : list node) :
  (forall child self ms self',
      walk child self = Ok (ms, self') -> state_grows self self') ->
  forall self mss self',
    walk_children walk children self = Ok (mss, self') ->
    state_grows self self'.
Proof.
  intros Hwalk. induction children as [|child rest IH]; intros self mss self'.
  - cbn. intros [= <- <-]. apply state_grows_refl.
  - cbn [walk_children].
    destruct (walk child self) as [[ms s1]|e] eqn:Hchild; [|discriminate].
    cbn [mbind result_bind].
    destruct (walk_children walk rest s1) as [[others s2]|e] eqn:Hrest;
      [|discriminate].
    cbn [mbind result_bind]. intros [= <- <-].
    eapply state_grows_trans; eauto.
Qed.

Section WalkProperties.

Variable cascade_element_style : node -> style -> style.
Variable parse_style : style -> gmap string py_value * style.
Variable transform_operations : string -> option (list (string * list number)).
Variable new_path : string -> gmap string py_value -> result mobject.
Variable new_rectangle : rect_mobject -> mobject.
Variable new_circle : circle_mobject -> mobject.
Variable unpack_groups : bool.

Local Abbreviation walk :=
  (get_mobjects_from cascade_element_style parse_style transform_operations
     new_path new_rectangle new_circle unpack_groups).

Lemma str_in_true (tag : string) (l : list string) :
  str_in tag l = true -> In tag l.
Proof.
  unfold str_in. intros (x & Hin & Heq)%existsb_exists.
  apply String.eqb_eq in Heq. now subst.
Qed.

(** One call of the walk on an element, taken apart: the state [s1] that
    the branch for its tag leaves, the group that the transforms return,
    the style that is stored when the element is registered, and the
    mobjects that are returned. *)
Lemma get_mobjects_from_element (fuel : nat) (tag : string)
    (attrs : gmap string string) (children : list node) (st : style)
    (within_defs : bool) (self self' : svg_state) (ms : list mobject) :
  let element := Element tag attrs children in
  let st0 := cascade_element_style element st in
  (forall child st1 wd s ms0 s0,
      walk fuel child st1 wd s = Ok (ms0, s0) -> state_grows s s0) ->
  walk (S fuel) element st within_defs self = Ok (ms, self') ->
  exists s1 group,
    state_grows self s1
    /\ self'
       = (if within_defs && hasAttribute element "id"
          then register (getAttribute element "id")
                 (if calls_parse_style element
                  then snd (parse_style st0) else st0, element) s1
          else s1)
    /\ ms
       = (if String.eqb tag "defs" then []
          else if (1 <? length (submobjects group))%nat && negb unpack_groups
               then [Mobject [] (submobjects group)]
               else submobjects group).
Proof.
  intros element st0 IH. subst element st0.
  cbn [get_mobjects_from].
  set (element := Element tag attrs children).
  set (st0 := cascade_element_style element st).
  match goal with
  | |- (?body ≫= _) = _ -> _ =>
      assert (forall result s1 st1,
                 body = Ok (result, s1, st1) ->
                 state_grows self s1
                 /\ st1 = (if calls_parse_style element
                           then snd (parse_style st0) else st0))
        as Hbody; [|destruct body as [[[result s1] st1]|e]; [|discriminate]]
  end.
  { intros result s1 st1. unfold calls_parse_style. cbn [tagName element].
    destruct (String.eqb tag "style") eqn:Hstyle.
    { apply String.eqb_eq in Hstyle. subst tag.
      intros [= <- <- <-]. split; [apply state_grows_refl|reflexivity]. }
    destruct (str_in tag ["g"; "svg"; "symbol"; "defs"]) eqn:Hgroup.
    { destruct (walk_children _ children self) as [[results s2]|e] eqn:Hkids;
        [|discriminate].
      cbn [mbind result_bind]. intros [= <- <- <-]. split.
      - eapply walk_children_grows; [|exact Hkids].
        intros child s ms0 s0. apply IH.
      - apply str_in_true in Hgroup.
        destruct Hgroup as [<-|[<-|[<-|[<-|[]]]]]; reflexivity. }
    destruct (String.eqb tag "path") eqn:Hpath.
    { apply String.eqb_eq in Hpath. subst tag.
      change (String.eqb "path" "path") with true.
      change (str_in "path" ["rect"; "circle"; "ellipse"; "polygon";
                             "polyline"]) with false.
      cbn [andb orb].
      destruct (String.eqb (getAttribute element "d") "").
      - intros [= <- <- <-]. split; [apply state_grows_refl|reflexivity].
      - destruct (path_string_to_mobject parse_style new_path _ st0);
          [|discriminate].
        cbn [mbind result_bind]. intros [= <- <- <-].
        split; [apply state_grows_refl|reflexivity]. }
    cbn [andb orb].
    destruct (String.eqb tag "use") eqn:Huse.
    { apply String.eqb_eq in Huse. subst tag.
      change (str_in "use" ["rect"; "circle"; "ellipse"; "polygon";
                            "polyline"]) with false.
      unfold use_to_mobjects.
      destruct (def_map self !! _) as [[def_style def_element]|].
      - destruct (get_mobjects_from _ _ _ _ _ _ _ fuel def_element _ false self)
          as [[r s2]|e] eqn:Hdef; [|discriminate].
        cbn [mbind result_bind]. intros [= <- <- <-].
        split; [eapply IH; exact Hdef|reflexivity].
      - cbn [mbind result_bind]. intros [= <- <- <-].
        split; [apply state_grows_warn|reflexivity]. }
    destruct (String.eqb tag "rect") eqn:Hrect.
    { apply String.eqb_eq in Hrect. subst tag.
      change (str_in "rect" ["rect"; "circle"; "ellipse"; "polygon";
                             "polyline"]) with true.
      destruct (rect_to_mobject _ element st0); [|discriminate].
      cbn [mbind result_bind]. intros [= <- <- <-].
      split; [apply state_grows_refl|reflexivity]. }
    destruct (String.eqb tag "circle") eqn:Hcircle.
    { apply String.eqb_eq in Hcircle. subst tag.
      change (str_in "circle" ["rect"; "circle"; "ellipse"; "polygon";
                               "polyline"]) with true.
      destruct (circle_to_mobject _ element st0); [|discriminate].
      cbn [mbind result_bind]. intros [= <- <- <-].
      split; [apply state_grows_refl|reflexivity]. }
    destruct (String.eqb tag "ellipse") eqn:Hellipse.
    { apply String.eqb_eq in Hellipse. subst tag.
      change (str_in "ellipse" ["rect"; "circle"; "ellipse"; "polygon";
                                "polyline"]) with true.
      destruct (ellipse_to_mobject _ element st0); [|discriminate].
      cbn [mbind result_bind]. intros [= <- <- <-].
      split; [apply state_grows_refl|reflexivity]. }
    destruct (str_in tag ["polygon"; "polyline"]) eqn:Hpolygon.
    { assert (str_in tag ["rect"; "circle"; "ellipse"; "polygon"; "polyline"]
              = true) as ->.
      { apply str_in_true in Hpolygon.
        destruct Hpolygon as [<-|[<-|[]]]; reflexivity. }
      destruct (polygon_to_mobject parse_style new_path element st0);
        [|discriminate].
      cbn [mbind result_bind]. intros [= <- <- <-].
      split; [apply state_grows_refl|reflexivity]. }
    assert (str_in tag ["rect"; "circle"; "ellipse"; "polygon"; "polyline"]
            = false) as ->.
    { unfold str_in in *. cbn [existsb] in *.
      now rewrite Hrect, Hcircle, Hellipse, Hpolygon. }
    intros [= <- <- <-]. split; [apply state_grows_refl|reflexivity]. }
  destruct (Hbody result s1 st1 eq_refl) as [Hgrows ->].
  cbn [mbind result_bind].
  destruct (transform_operations _) as [operations|]; [|discriminate].
  cbn [mbind result_bind].
  destruct (handle_transforms element operations _) as [group|e];
    [|discriminate].
  cbn [mbind result_bind]. intros Hend.
  exists s1, group. split; [exact Hgrows|].
  destruct (String.eqb tag "defs"); injection Hend as <- <-; auto.
Qed.

Lemma get_mobjects_from_grows (fuel : nat) :
  forall element st within_defs self ms self',
    walk fuel element st within_defs self = Ok (ms, self') ->
    state_grows self self'.
Proof.
  induction fuel as [|fuel IH]; intros element st within_defs self ms self';
    [discriminate|].
  destruct element as [tag attrs children|data];
    [|cbn; intros [= <- <-]; apply state_grows_refl].
  intros Hwalk.
  destruct (get_mobjects_from_element _ _ _ _ _ _ _ _ _ IH Hwalk)
    as (s1 & group & Hgrows & -> & _).
  destruct (within_defs && hasAttribute _ "id"); [|exact Hgrows].
  eapply state_grows_trans; [exact Hgrows|apply state_grows_register].
Qed.

(** X13.  A walk that returns only adds to the state: the file name is
    kept, every id of the registry stays registered and the warnings
    issued stay, in their order.  An element with an [id] that is walked
    within [defs] is then registered under it with the element itself and
    the dict of its style as the walk leaves it: the cascaded style, after
    [parse_style] has changed it when the element is one that is drawn (a
    path with a [d], a rect, circle, ellipse, polygon or polyline). *)
Theorem walk_only_adds_to_the_state (fuel : nat) (element : node)
    (st : style) (within_defs : bool) (self self' : svg_state)
    (ms : list mobject) :
  walk fuel element st within_defs self = Ok (ms, self') ->
  state_grows self self'
  /\ (within_defs = true -> hasAttribute element "id" = true ->
      def_map self' !! getAttribute element "id"
      = Some (if calls_parse_style element
              then snd (parse_style (cascade_element_style element st))
              else cascade_element_style element st,
              element)).
Proof.
  intros Hwalk. split; [eapply get_mobjects_from_grows; exact Hwalk|].
  intros -> Hid. destruct fuel as [|fuel]; [discriminate|].
  destruct element as [tag attrs children|data]; [|discriminate].
  destruct (get_mobjects_from_element _ _ _ _ _ _ _ _ _
              (get_mobjects_from_grows fuel) Hwalk)
    as (s1 & group & _ & -> & _).
  rewrite Hid. cbn [andb register def_map]. apply lookup_insert_eq.
Qed.

Lemma get_mobjects_from_grouped (fuel : nat) (element : node) (st : style)
    (within_defs : bool) (self self' : svg_state) (ms : list mobject) :
  unpack_groups = false ->
  walk fuel element st within_defs self = Ok (ms, self') ->
  ms = [] \/ exists m, ms = [m].
Proof.
  intros Hunpack Hwalk. destruct fuel as [|fuel]; [discriminate|].
  destruct element as [tag attrs children|data];
    [|injection Hwalk as <- <-; now left].
  destruct (get_mobjects_from_element _ _ _ _ _ _ _ _ _
              (get_mobjects_from_grows fuel) Hwalk)
    as (s1 & group & _ & _ & ->).
  rewrite Hunpack. destruct (String.eqb tag "defs"); [now left|].
  destruct (submobjects group) as [|m1 [|m2 rest]]; cbn; eauto.
Qed.

(** X14.  With [unpack_groups] off no walk returns more than one mobject,
    and [init_points] adds the submobjects of the first: an [svg] element
    that yields nothing raises [IndexError], and one that yields a single
    mobject contributes the submobjects of that mobject, not the mobject
    itself. *)
Theorem init_points_without_unpacking (fuel : nat) (svg : node)
    (self self' : svg_state) (ms submobs : list mobject) :
  unpack_groups = false ->
  walk fuel svg ∅ false self = Ok (ms, self') ->
  (ms = []
   /\ add_svgs cascade_element_style parse_style transform_operations
        new_path new_rectangle new_circle unpack_groups
        fuel [svg] submobs self = Raise IndexError)
  \/ (exists m,
        ms = [m]
        /\ add_svgs cascade_element_style parse_style transform_operations
             new_path new_rectangle new_circle unpack_groups
             fuel [svg] submobs self
           = Ok (submobs ++ submobjects m, self')).
Proof.
  intros Hunpack Hwalk.
  destruct (get_mobjects_from_grouped _ _ _ _ _ _ _ Hunpack Hwalk)
    as [-> | [m ->]]; [left|right; exists m]; (split; [reflexivity|]);
    cbn [add_svgs]; rewrite Hwalk, Hunpack; reflexivity.
Qed.

(** X15.  An element that uses itself is never walked to the end: when the
    reference of a [use] element is registered for that element, or for a
    group that has it as its first child, walking it exhausts every stack
    depth. *)
Theorem use_of_itself_overflows (fuel : nat) (attrs : gmap string string)
    (children : list node) (def_style : style) (def_element : node)
    (st : style) (within_defs : bool) (self : svg_state) :
  let use_element := Element "use" attrs children in
  def_map self !! str_drop 1 (getAttribute use_element "xlink:href")
  = Some (def_style, def_element) ->
  def_element = use_element
  \/ (exists tag attrs' rest,
        str_in tag ["g"; "svg"; "symbol"; "defs"] = true
        /\ def_element = Element tag attrs' (use_element :: rest)) ->
  walk fuel use_element st within_defs self = Raise RecursionError.
Proof.
  intros use_element Href Hdef. revert st within_defs.
  induction fuel as [fuel IH] using lt_wf_ind. intros st within_defs.
  destruct fuel as [|fuel]; [reflexivity|].
  cbn [get_mobjects_from use_element]. fold use_element.
  change (String.eqb "use" "style") with false.
  change (str_in "use" ["g"; "svg"; "symbol"; "defs"]) with false.
  change (String.eqb "use" "path") with false.
  change (String.eqb "use" "use") with true. cbv iota.
  unfold use_to_mobjects. rewrite Href.
  destruct Hdef as [-> | (tag & attrs' & rest & Htag & ->)].
  - rewrite IH by lia. reflexivity.
  - destruct fuel as [|fuel]; [reflexivity|].
    cbn [get_mobjects_from]. rewrite Htag.
    assert (String.eqb tag "style" = false) as ->.
    { destruct (String.eqb_spec tag "style") as [-> |]; [|reflexivity].
      discriminate Htag. }
    cbn [walk_children]. rewrite IH by lia. reflexivity.
Qed.

End WalkProperties.

(** The theorem at work: [parse_style] writes the default fill into a
    style that has none, and the path is registered with the style so
    changed. *)
Lemma walk_only_adds_to_the_state_witness :
  state_grows
    (SvgState "f.svg" ∅ [])
    (SvgState "f.svg"
       {[ "p" := ({[ "fill" := "black" ]},
                  Element "path" {[ "id" := "p"; "d" := "M0,0" ]} []) ]} [])
  /\ def_map
       (SvgState "f.svg"
          {[ "p" := ({[ "fill" := "black" ]},
                     Element "path" {[ "id" := "p"; "d" := "M0,0" ]} []) ]}
          [])
     !! "p"
     = Some ({[ "fill" := "black" ]},
             Element "path" {[ "id" := "p"; "d" := "M0,0" ]} []).
Proof.
  pose proof (walk_only_adds_to_the_state
                (fun _ st => st)
                (fun st => (∅, <["fill" := default "black" (st !! "fill")]> st))
                (fun _ => Some [])
                (fun _ _ => Ok (Mobject [ORIGIN] []))
                (fun _ => Mobject [] []) (fun _ => Mobject [] []) true
                1 (Element "path" {[ "id" := "p"; "d" := "M0,0" ]} []) ∅ true
                (SvgState "f.svg" ∅ [])
                (SvgState "f.svg"
                   {[ "p" := ({[ "fill" := "black" ]},
                              Element "path"
                                {[ "id" := "p"; "d" := "M0,0" ]} []) ]} [])
                [Mobject [ORIGIN] []]) as Hwalk.
  destruct Hwalk as [Hgrows Hregistered]; [vm_compute; reflexivity|].
  split; [exact Hgrows|].
  specialize (Hregistered eq_refl eq_refl).
  vm_compute in Hregistered |- *. exact Hregistered.
Defined.

Lemma init_points_without_unpacking_witness :
  add_svgs (fun _ st => st) (fun st => (∅, st)) (fun _ => Some [])
    (fun _ _ => Ok (Mobject [ORIGIN] []))
    (fun _ => Mobject [] []) (fun _ => Mobject [] []) false
    2 [Element "svg" ∅ [Element "path" {[ "d" := "M0,0" ]} []]] []
    (SvgState "f.svg" ∅ [])
  = Ok ([], SvgState "f.svg" ∅ []).
Proof.
  destruct (init_points_without_unpacking
              (fun _ st => st) (fun st => (∅, st)) (fun _ => Some [])
              (fun _ _ => Ok (Mobject [ORIGIN] []))
              (fun _ => Mobject [] []) (fun _ => Mobject [] []) false
              2 (Element "svg" ∅ [Element "path" {[ "d" := "M0,0" ]} []])
              (SvgState "f.svg" ∅ []) (SvgState "f.svg" ∅ [])
              [Mobject [ORIGIN] []] [])
    as [[Hnone _]|[m [Hone Hadd]]].
  - reflexivity.
  - vm_compute. reflexivity.
  - discriminate Hnone.
  - injection Hone as <-. exact Hadd.
Defined.

Lemma use_of_itself_overflows_witness :
  get_mobjects_from (fun _ st => st) (fun st => (∅, st)) (fun _ => Some [])
    (fun _ _ => Ok (Mobject [ORIGIN] []))
    (fun _ => Mobject [] []) (fun _ => Mobject [] []) true
    recursion_limit (Element "use" {[ "xlink:href" := "#a" ]} []) ∅ false
    (SvgState "f.svg"
       {[ "a" := (∅, Element "g" {[ "id" := "a" ]}
                       [Element "use" {[ "xlink:href" := "#a" ]} []]) ]} [])
  = Raise RecursionError.
Proof.
  apply (use_of_itself_overflows
           (fun _ st => st) (fun st => (∅, st)) (fun _ => Some [])
           (fun _ _ => Ok (Mobject [ORIGIN] []))
           (fun _ => Mobject [] []) (fun _ => Mobject [] []) true
           recursion_limit {[ "xlink:href" := "#a" ]} [] ∅
           (Element "g" {[ "id" := "a" ]}
              [Element "use" {[ "xlink:href" := "#a" ]} []])).
  - vm_compute. reflexivity.
  - right. exists "g", {[ "id" := "a" ]}, []. split; reflexivity.
Defined.

(* ================================================================= *)
(** ** The file of an SVGMobject *)

(** [List.find] returns the first element that passes the test. *)
Lemma find_first {A} (f : A -> bool) (l : list A) (x : A) :
  List.find f l = Some x ->
  exists before after,
    l = before ++ x :: after
    /\ Forall (fun y => f y = false) before
    /\ f x = true.
Proof.
  induction l as [|a l IH]; [discriminate|]. cbn [List.find].
  destruct (f a) eqn:Ha.
  - intros [= <-]. exists [], l. repeat split; [constructor|exact Ha].
  - intros Hfind. destruct (IH Hfind) as (before & after & -> & Hbefore & Hx).
    exists (a :: before), after. repeat split; [|exact Hx].
    constructor; [exact Ha|exact Hbefore].
Qed.

Section FileLookupProperties.

Variable path_exists_on_disk : string -> bool.
Variable getcwd : string.
Variable get_vector_image_dir : string.
Variable get_full_vector_image_path : string -> file_lookup.

(** X16.  [ensure_valid_file] settles on the first path that exists, in
    the order of the code: the file name itself, then the file name under
    the working directory, then the six [possible_paths] from first to
    last; every path tried before the one it settles on does not exist.
    It raises the [IOError] exactly when the file name is given and none
    of these exists, and it asks for a file name exactly when there is
    none. *)
Theorem ensure_valid_file_finds_an_existing_path (file_name : option string) :
  match ensure_valid_file path_exists_on_disk getcwd get_vector_image_dir
          file_name with
  | FilePath file_path =>
      path_exists_on_disk file_path = true
      /\ exists name before after,
           file_name = Some name
           /\ name :: path_join getcwd name
                :: possible_paths get_vector_image_dir name
              = before ++ file_path :: after
           /\ Forall (fun path => path_exists_on_disk path = false) before
  | MustSpecifyFile => file_name = None
  | CouldNotFind paths =>
      exists name,
        file_name = Some name
        /\ paths = possible_paths get_vector_image_dir name
        /\ Forall (fun path => path_exists_on_disk path = false)
             (name :: path_join getcwd name :: paths)
  end.
Proof.
  destruct file_name as [name|]; [|reflexivity].
  cbn [ensure_valid_file].
  destruct (path_exists_on_disk name) eqn:Hname.
  { split; [exact Hname|]. exists name, [], (path_join getcwd name
      :: possible_paths get_vector_image_dir name).
    split; [reflexivity|]. split; [reflexivity|constructor]. }
  destruct (path_exists_on_disk (path_join getcwd name)) eqn:Hrelative.
  { split; [exact Hrelative|].
    exists name, [name], (possible_paths get_vector_image_dir name).
    split; [reflexivity|]. split; [reflexivity|].
    constructor; [exact Hname|constructor]. }
  destruct (List.find path_exists_on_disk
              (possible_paths get_vector_image_dir name)) as [path|] eqn:Hfind.
  - apply find_first in Hfind as (before & after & Hsplit & Hbefore & Hexists).
    split; [exact Hexists|].
    exists name, (name :: path_join getcwd name :: before), after.
    split; [reflexivity|]. split; [now rewrite Hsplit|].
    constructor; [exact Hname|]. constructor; [exact Hrelative|exact Hbefore].
  - exists name. split; [reflexivity|]. split; [reflexivity|].
    constructor; [exact Hname|]. constructor; [exact Hrelative|].
    apply List.Forall_forall. intros path Hin.
    exact (List.find_none _ _ Hfind path Hin).
Qed.

(** X17.  The file of an SVGMobject cannot come from [CONFIG]: without the
    [file_name] argument the constructor raises "Must specify file", or
    the [IOError] of the search when the name in [CONFIG] is not found,
    and never gets to a file path.  With a non-empty argument that is
    found, the path of the search is dropped for the one that
    [get_full_vector_image_path] gives. *)
Theorem init_needs_the_file_name_argument (config_file_name : option string) :
  (forall file_path,
      init_file_path path_exists_on_disk getcwd get_vector_image_dir
        get_full_vector_image_path None config_file_name
      <> FilePath file_path)
  /\ (forall name found,
         name <> "" ->
         ensure_valid_file path_exists_on_disk getcwd get_vector_image_dir
           (Some name) = FilePath found ->
         init_file_path path_exists_on_disk getcwd get_vector_image_dir
           get_full_vector_image_path (Some name) config_file_name
         = get_full_vector_image_path name).
Proof.
  split.
  - intros file_path. unfold init_file_path. cbn [or_else].
    destruct (ensure_valid_file _ _ _ config_file_name); discriminate.
  - intros name found Hname Hfound. unfold init_file_path.
    assert (or_else (Some name) config_file_name = Some name) as ->.
    { destruct name as [|c name]; [congruence|reflexivity]. }
    now rewrite Hfound.
Qed.

End FileLookupProperties.

(* ================================================================= *)
(** ** Elements with an id *)

Lemma flatten_items {A} (l : list A) : flatten [Nested (map Item l)] = l.
Proof.
  unfold flatten. cbn. rewrite app_nil_r.
  induction l as [|a l IH]; [reflexivity|]. cbn. now rewrite IH.
Qed.

Lemma flatten_app {A} (l1 l2 : list (nested A)) :
  flatten (l1 ++ l2) = flatten l1 ++ flatten l2.
Proof. unfold flatten. now rewrite map_app, concat_app. Qed.

Lemma flatten_nested_items {A} (l : list A) (rest : list (nested A)) :
  flatten (Nested (map Item l) :: rest) = l ++ flatten rest.
Proof.
  change (Nested (map Item l) :: rest) with ([Nested (map Item l)] ++ rest).
  now rewrite flatten_app, flatten_items.
Qed.

Lemma node_children_ind (Q : node -> Prop) :
  (forall data, Q (Text data)) ->
  (forall tag attrs children, Forall Q children ->
                              Q (Element tag attrs children)) ->
  forall n, Q n.
Proof.
  intros Htext Helement.
  fix IH 1. intros [tag attrs children|data]; [|apply Htext].
  apply Helement. induction children as [|child rest IHrest];
    constructor; [apply IH|exact IHrest].
Qed.

(** X18.  [get_all_childNodes_have_id] returns [None] exactly for a node
    that is no element; for an element with an [id] it returns the element
    alone, without looking below it; and every node it returns is an
    element that has an [id]. *)
Theorem childNodes_returned_have_an_id (element : node) :
  (get_all_childNodes_have_id element = None
   <-> exists data, element = Text data)
  /\ (hasAttribute element "id" = true ->
      get_all_childNodes_have_id element = Some [element])
  /\ (forall found,
         get_all_childNodes_have_id element = Some found ->
         Forall (fun n => hasAttribute n "id" = true) found).
Proof.
  split; [|split].
  - destruct element as [tag attrs children|data].
    + cbn [get_all_childNodes_have_id].
      split; [|intros [data [=]]].
      now destruct (hasAttribute _ "id").
    + split; [eauto|reflexivity].
  - destruct element as [tag attrs children|data]; [|discriminate].
    cbn [get_all_childNodes_have_id]. now intros ->.
  - induction element as [data|tag attrs children IH] using node_children_ind;
      intros found; [discriminate|].
    cbn [get_all_childNodes_have_id].
    destruct (hasAttribute (Element tag attrs children) "id") eqn:Hid.
    { intros [= <-]. now constructor. }
    intros [= <-]. clear Hid.
    induction IH as [|child rest Hchild Hrest IHrest]; [constructor|].
    cbn [map omap list_omap].
    destruct (get_all_childNodes_have_id child) as [[|n l]|] eqn:Hfound;
      try exact IHrest.
    rewrite (flatten_nested_items (n :: l)). apply Forall_app. split; [|exact IHrest].
    now apply Hchild.
Qed.


(* ================================================================= *)
(** ** Words of a Text *)

Lemma is_prefix_take (word l : list ascii) :
  is_prefix word l = true <-> take (length word) l = word.
Proof.
  revert l. induction word as [|c word IH]; intros l.
  - cbn. now rewrite take_0.
  - destruct l as [|d l]; cbn; [split; discriminate|].
    rewrite andb_true_iff, IH. unfold ascii_eqb. rewrite Ascii.eqb_eq.
    split; [intros [-> ->]; reflexivity|intros [= -> ->]; auto].
Qed.

Lemma find_at_some (word l : list ascii) (i k : nat) :
  find_at word l i = Some k ->
  (i <= k)%nat
  /\ is_prefix word (drop (k - i) l) = true
  /\ forall m, (i <= m < k)%nat -> is_prefix word (drop (m - i) l) = false.
Proof.
  revert i. induction l as [|c l IH]; intros i; cbn [find_at].
  - destruct (is_prefix word []) eqn:Hp; [|discriminate].
    intros [= <-]. rewrite Nat.sub_diag. cbn. split; [lia|].
    split; [exact Hp|]. intros m Hm. lia.
  - destruct (is_prefix word (c :: l)) eqn:Hp.
    + intros [= <-]. rewrite Nat.sub_diag. cbn. split; [lia|].
      split; [exact Hp|]. intros m Hm. lia.
    + intros Hfind. apply IH in Hfind as (Hle & Hat & Hbefore).
      split; [lia|]. split.
      * replace (k - i)%nat with (S (k - S i)) by lia. exact Hat.
      * intros m Hm. destruct (decide (m = i)) as [-> | Hne].
        -- now rewrite Nat.sub_diag.
        -- replace (m - i)%nat with (S (m - S i)) by lia.
           apply Hbefore. lia.
Qed.

Lemma find_at_none (word l : list ascii) (i : nat) :
  find_at word l i = None -> forall m, is_prefix word (drop m l) = false.
Proof.
  revert i. induction l as [|c l IH]; intros i; cbn [find_at].
  - destruct (is_prefix word []) eqn:Hp; [discriminate|].
    intros _ m. now rewrite drop_nil.
  - destruct (is_prefix word (c :: l)) eqn:Hp; [discriminate|].
    intros Hfind [|m]; [exact Hp|]. cbn. eapply IH, Hfind.
Qed.

Lemma str_find_some (text word : list ascii) (start k : nat) :
  str_find text word start = Some k ->
  (start <= k)%nat /\ occurs_at text word k
  /\ forall m, (start <= m < k)%nat -> ~ occurs_at text word m.
Proof.
  unfold str_find, occurs_at.
  destruct (start <=? length text)%nat; [|discriminate].
  intros (Hle & Hat & Hbefore)%find_at_some.
  rewrite drop_drop in Hat.
  replace (start + (k - start))%nat with k in Hat by lia.
  split; [exact Hle|]. split; [now apply is_prefix_take|].
  intros m Hm Hocc. apply is_prefix_take in Hocc.
  specialize (Hbefore m Hm). rewrite drop_drop in Hbefore.
  replace (start + (m - start))%nat with m in Hbefore by lia. congruence.
Qed.

Lemma str_find_none (text word : list ascii) (start : nat) :
  word <> [] ->
  str_find text word start = None ->
  forall m, (start <= m)%nat -> ~ occurs_at text word m.
Proof.
  unfold str_find, occurs_at. intros Hword Hfind m Hm Hocc.
  apply is_prefix_take in Hocc.
  destruct (start <=? length text)%nat eqn:Hstart.
  - pose proof (find_at_none _ _ _ Hfind (m - start)) as Hnone.
    rewrite drop_drop in Hnone.
    replace (start + (m - start))%nat with m in Hnone by lia. congruence.
  - apply Nat.leb_gt in Hstart.
    rewrite drop_ge in Hocc by lia.
    destruct word; [congruence|discriminate].
Qed.

Lemma occurs_at_bound (text word : list ascii) (i : nat) :
  word <> [] -> occurs_at text word i -> (i + length word <= length text)%nat.
Proof.
  unfold occurs_at. intros Hword Hocc.
  apply (f_equal length) in Hocc.
  rewrite length_take, length_drop in Hocc.
  destruct word as [|c word]; [congruence|]. cbn [length] in *.
  destruct (Nat.min_spec (S (length word)) (length text - i)) as [[_ Hmin]|[_ Hmin]];
    rewrite Hmin in Hocc; lia.
Qed.

Lemma find_loop_from (text word : list ascii) (fuel start : nat) :
  word <> [] ->
  (length text <= fuel + start)%nat ->
  exists indexes,
    find_loop fuel text word (str_find text word start)
    = Some (map (index_pair word) indexes)
    /\ Forall (fun i => (start <= i)%nat /\ occurs_at text word i) indexes
    /\ (forall k i j,
           indexes !! k = Some i -> indexes !! S k = Some j ->
           (i + length word <= j)%nat)
    /\ (forall p,
           (start <= p)%nat -> occurs_at text word p ->
           exists i, In i indexes /\ (i <= p < i + length word)%nat).
Proof.
  intros Hword. revert start.
  induction fuel as [|fuel IH]; intros start Hfuel.
  - destruct (str_find text word start) as [i|] eqn:Hfind.
    + apply str_find_some in Hfind as (Hle & Hocc & _).
      apply occurs_at_bound in Hocc; [|exact Hword].
      destruct word; [congruence|]. cbn in *. lia.
    + exists []. split; [reflexivity|]. split; [constructor|].
      split; [intros k i j [=]|].
      intros p Hp Hocc. now apply (str_find_none _ _ _ Hword Hfind p) in Hocc.
  - destruct (str_find text word start) as [i|] eqn:Hfind.
    + apply str_find_some in Hfind as (Hle & Hocc & Hbefore).
      pose proof (occurs_at_bound _ _ _ Hword Hocc) as Hbound.
      assert (1 <= length word)%nat as Hlen
          by (destruct word; [congruence|cbn; lia]).
      destruct (IH (i + length word)%nat ltac:(lia))
        as (indexes & Hloop & Hall & Hsorted & Hcomplete).
      exists (i :: indexes). cbn [find_loop]. rewrite Hloop.
      split; [reflexivity|]. split; [|split].
      * constructor; [auto|].
        eapply List.Forall_impl; [|exact Hall]. intros j [Hj Hoccj].
        split; [lia|exact Hoccj].
      * intros [|k] a b Ha Hb.
        -- cbn in Ha, Hb. injection Ha as <-.
           destruct indexes as [|j indexes]; [discriminate|].
           injection Hb as <-. inversion Hall as [|? ? [Hj _] _]; subst.
           exact Hj.
        -- eapply Hsorted; eassumption.
      * intros p Hp Hoccp.
        destruct (le_lt_dec i p) as [Hip|Hip].
        -- destruct (le_lt_dec (i + length word) p) as [Hfar|Hnear].
           ++ destruct (Hcomplete p Hfar Hoccp) as (j & Hin & Hj).
              exists j. split; [now right|exact Hj].
           ++ exists i. split; [now left|lia].
        -- exfalso. apply (Hbefore p); [lia|exact Hoccp].
    + exists []. split; [reflexivity|]. split; [constructor|].
      split; [intros k i j [=]|].
      intros p Hp Hocc. now apply (str_find_none _ _ _ Hword Hfind p) in Hocc.
Qed.

(** X19.  For a word that is not empty and does not begin with a slice,
    [find_indexes] ends within as many rounds as the text has characters
    and returns the occurrences of the word from left to right: the word
    stands at every index returned, each pair spans the length of the
    word, no two of them overlap, and every place where the word stands
    begins within one of them. *)
Theorem find_indexes_occurrences (fuel : nat) (text word : list ascii) :
  word <> [] -> match_slice word = None -> (length text <= fuel)%nat ->
  exists indexes,
    find_indexes fuel text word = Some (Ok (map (index_pair word) indexes))
    /\ Forall (occurs_at text word) indexes
    /\ (forall k i j,
           indexes !! k = Some i -> indexes !! S k = Some j ->
           (i + length word <= j)%nat)
    /\ (forall p,
           occurs_at text word p ->
           exists i, In i indexes /\ (i <= p < i + length word)%nat).
Proof.
  intros Hword Hslice Hfuel. unfold find_indexes. rewrite Hslice.
  destruct (find_loop_from text word fuel 0 Hword ltac:(lia))
    as (indexes & Hloop & Hall & Hsorted & Hcomplete).
  exists indexes. rewrite Hloop. split; [reflexivity|]. split; [|split].
  - eapply List.Forall_impl; [|exact Hall]. now intros i [_ Hocc].
  - exact Hsorted.
  - intros p. apply Hcomplete. lia.
Qed.

Lemma find_indexes_occurrences_witness :
  exists indexes,
    find_indexes 7 (chars "abababa") (chars "aba")
    = Some (Ok (map (index_pair (chars "aba")) indexes))
    /\ Forall (occurs_at (chars "abababa") (chars "aba")) indexes
    /\ (forall k i j,
           indexes !! k = Some i -> indexes !! S k = Some j ->
           (i + length (chars "aba") <= j)%nat)
    /\ (forall p,
           occurs_at (chars "abababa") (chars "aba") p ->
           exists i,
             In i indexes /\ (i <= p < i + length (chars "aba"))%nat).
Proof.
  apply (find_indexes_occurrences 7 (chars "abababa") (chars "aba")).
  - discriminate.
  - reflexivity.
  - cbn. lia.
Defined.

(** X20.  For the empty word [find_indexes] never returns: every round of
    its loop finds the empty word at index 0 again, whatever the text and
    however many rounds are allowed. *)
Theorem find_indexes_of_empty_word_loops (fuel : nat) (text : list ascii) :
  find_indexes fuel text [] = None
  /\ str_find text [] 0 = Some 0%nat.
Proof.
  assert (str_find text [] 0 = Some 0%nat) as Hfind.
  { unfold str_find. cbn [Nat.leb drop]. now destruct text. }
  split; [|exact Hfind].
  unfold find_indexes. cbn [match_slice]. rewrite Hfind.
  assert (find_loop fuel text [] (Some 0%nat) = None) as ->; [|reflexivity].
  induction fuel as [|fuel IH]; [reflexivity|].
  cbn [find_loop length Nat.add]. rewrite Hfind, IH. reflexivity.
Qed.

Lemma span_slice_chars (g rest : list ascii) :
  Forall (fun c => is_slice_char c = true) g ->
  match rest with [] => True | c :: _ => is_slice_char c = false end ->
  span is_slice_char (g ++ rest) = (g, rest).
Proof.
  intros Hg Hrest. induction Hg as [|c g Hc Hg IH].
  - now apply span_head.
  - cbn. now rewrite Hc, IH.
Qed.

(** X21.  A word that begins with [[a:b]], [a] and [b] made of digits and
    minus signs, is a slice whatever follows the bracket and whatever the
    text holds: an empty [a] is 0 and an empty [b] the length of the text,
    a negative number counts from the end of the text, and a group that is
    no integer raises [ValueError]. *)
Theorem find_indexes_of_a_slice (fuel : nat) (text g1 g2 rest : list ascii) :
  Forall (fun c => is_slice_char c = true) g1 ->
  Forall (fun c => is_slice_char c = true) g2 ->
  find_indexes fuel text ("["%char :: g1 ++ ":"%char :: g2 ++ "]"%char :: rest)
  = Some (start ← (match g1 with [] => Ok 0%Z | _ => int_of g1 end);
          end_ ← (match g2 with
                  | [] => Ok (Z.of_nat (length text))
                  | _ => int_of g2
                  end);
          Ok [(if (start <? 0)%Z then (Z.of_nat (length text) + start)%Z
               else start,
               if (end_ <? 0)%Z then (Z.of_nat (length text) + end_)%Z
               else end_)]).
Proof.
  intros Hg1 Hg2. unfold find_indexes. cbn [match_slice].
  rewrite span_slice_chars by (exact Hg1 || reflexivity).
  rewrite span_slice_chars by (exact Hg2 || reflexivity).
  reflexivity.
Qed.

Lemma find_indexes_of_a_slice_witness :
  find_indexes 0 (chars "hello world") (chars "[-5:]")
  = Some (Ok [(6%Z, 11%Z)])
  /\ find_indexes 0 (chars "hello world") (chars "[1-2:3]")
     = Some (Raise ValueError).
Proof.
  split.
  - etransitivity;
      [apply (find_indexes_of_a_slice 0 (chars "hello world")
                (chars "-5") [] [])|reflexivity];
      repeat constructor.
  - etransitivity;
      [apply (find_indexes_of_a_slice 0 (chars "hello world")
                (chars "1-2") (chars "3") [])|reflexivity];
      repeat constructor.
Defined.
